(** * Guided depth fast-marching inpainting (gdfmm.cc): model and properties

    A shallow embedding of [src/gdfmm.cc].  The C++ [float] is IEEE-754
    binary32, modelled with the Standard Library's executable
    specification of floating-point arithmetic ([SpecFloat], precision 24,
    maximal exponent 128, round to nearest even).  Images are dense
    row-major matrices, as [cv::Mat] stores them.  Code that lives outside
    the repository (OpenCV's blur and Sobel filters, Eigen's LDLT solver,
    the exponential caches declared in the missing header) enters as
    parameters. *)

From Stdlib Require Import Reals Lra.
From Stdlib Require Import String ZArith List Bool Lia Permutation.
From Stdlib Require Import Floats.SpecFloat.
Import ListNotations.

Local Open Scope Z_scope.

Set Implicit Arguments.

(** ** binary32 arithmetic *)

Definition float : Type := spec_float.
Definition prec : Z := 24.
Definition emax : Z := 128.

Definition fadd : float -> float -> float := SFadd prec emax.
Definition fsub : float -> float -> float := SFsub prec emax.
Definition fmul : float -> float -> float := SFmul prec emax.
Definition fdiv : float -> float -> float := SFdiv prec emax.
Definition fsqrt : float -> float := SFsqrt prec emax.

(** The C comparisons [==], [!=], [<] on floats; each is false on NaN but [!=]. *)
Definition feq (a b : float) : bool := SFeqb a b.
Definition fne (a b : float) : bool := negb (SFeqb a b).
Definition flt (a b : float) : bool := SFltb a b.
Definition fle (a b : float) : bool := SFleb a b.

(** Conversion [int -> float] (round to nearest even; exact below 2^24). *)
Definition float_of_int (n : Z) : float := binary_normalize prec emax n 0 false.

Definition fzero : float := S754_zero false.
Definition fone : float := float_of_int 1.

(** The literal [(float)1e-6] of [PredictDepth] and the literal [0.00001f] of
    [PredictDepth2]: the binary32 numbers nearest to 10^-6 and 10^-5. *)
Definition float_1em6 : float := S754_finite false 8796093 (-43).
Definition float_1em5 : float := S754_finite false 10995116 (-40).

(** [std::max(a, b)] is [(a < b) ? b : a]. *)
Definition std_max (a b : float) : float := if flt a b then b else a.

(** [std::isnan]. *)
Definition isnan (a : float) : bool :=
  match a with S754_nan => true | _ => false end.

Definition is_finite (a : float) : bool :=
  match a with S754_zero _ | S754_finite _ _ _ => true | _ => false end.

(** [cvRound]: the nearest integer, ties to even ([lrint] under the default
    rounding mode).  For NaN, infinities and values outside [int] the SSE
    conversion yields the "integer indefinite" value INT_MIN. *)
Definition INT_MIN : Z := - 2 ^ 31.
Definition INT_MAX : Z := 2 ^ 31 - 1.

Definition round_half_even (m : Z) (e : Z) : Z :=
  match e with
  | Zneg k =>
      let q := m / 2 ^ Zpos k in
      let r := m mod 2 ^ Zpos k in
      let half := 2 ^ (Zpos k - 1) in
      if r <? half then q
      else if half <? r then q + 1
      else if Z.even q then q else q + 1
  | _ => m * 2 ^ e
  end.

Definition cvRound (a : float) : Z :=
  match a with
  | S754_zero _ => 0
  | S754_finite s m e =>
      let r := round_half_even (Zpos m) e in
      let v := if s then - r else r in
      if (INT_MIN <=? v) && (v <=? INT_MAX) then v else INT_MIN
  | _ => INT_MIN
  end.

(** [cv::saturate_cast<ushort>(float)]: [cvRound], then clamped to 0..65535. *)
Definition saturate_cast_ushort (a : float) : Z :=
  let v := cvRound a in
  if v <? 0 then 0 else if 65535 <? v then 65535 else v.

(** ** Images *)

(** A [cv::Mat]: sizes, channel count and the row-major elements. *)
Record Mat (A : Type) : Type := mkMat {
  rows : Z;
  cols : Z;
  channels : Z;
  elems : list A
}.

Fixpoint set_nth (A : Type) (l : list A) (i : nat) (v : A) : list A :=
  match l, i with
  | [], _ => []
  | _ :: t, O => v :: t
  | h :: t, S j => h :: set_nth t j v
  end.

Definition mat_index (A : Type) (m : Mat A) (y x : Z) : nat :=
  Z.to_nat (y * cols m + x).

(** [m.at<A>(y, x)] as a read, and the assignment [m.at<A>(y, x) = v]. *)
Definition mat_at (A : Type) (d : A) (m : Mat A) (y x : Z) : A :=
  nth (mat_index m y x) (elems m) d.

Definition mat_set (A : Type) (m : Mat A) (y x : Z) (v : A) : Mat A :=
  mkMat (rows m) (cols m) (channels m) (set_nth (elems m) (mat_index m y x) v).

Definition mat_map (A B : Type) (f : A -> B) (m : Mat A) : Mat B :=
  mkMat (rows m) (cols m) (channels m) (map f (elems m)).

Definition in_bounds (A : Type) (m : Mat A) (y x : Z) : bool :=
  (0 <=? x) && (0 <=? y) && (x <? cols m) && (y <? rows m).

Definition mat_wf (A : Type) (m : Mat A) : Prop :=
  0 <= rows m /\ 0 <= cols m /\ length (elems m) = Z.to_nat (rows m * cols m).

(** A three-channel pixel ([uint8_t[3]], [cv::Vec3f]). *)
Definition Vec3 (A : Type) : Type := (A * A * A)%type.

Definition vec3_get (A : Type) (v : Vec3 A) (c : Z) : A :=
  let '(a, b, d) := v in
  if c =? 0 then a else if c =? 1 then b else d.

Definition RGB : Type := Vec3 Z.
Definition rgb_black : RGB := (0, 0, 0).
Definition vec3f_zero : Vec3 float := (fzero, fzero, fzero).

Definition depth_at (m : Mat float) (y x : Z) : float := mat_at fzero m y x.
Definition rgb_at (m : Mat RGB) (y x : Z) : RGB := mat_at rgb_black m y x.

(** [convertTo(.., CV_32F)] of an integer-valued image and
    [convertTo(.., CV_16U)] of a float image. *)
Definition convertTo_32F (m : Mat Z) : Mat float := mat_map float_of_int m.
Definition convertTo_16U (m : Mat float) : Mat Z := mat_map saturate_cast_ushort m.

Record Point : Type := mkPoint { p_x : Z; p_y : Z }.

(** The integers [lo, lo+1, .., hi] a [for (i = lo; i <= hi; i++)] loop visits. *)
Definition Zrange (lo hi : Z) : list Z :=
  map (fun i => lo + Z.of_nat i) (seq 0 (Z.to_nat (hi - lo + 1))).

(** ** Errors *)

Inductive error : Type :=
| runtime_error (what : string)   (* throw std::runtime_error(what) *)
| CHECK_failed (what : string)    (* the CHECK macro's throw of a C string *)
| assert_failed (expr : string).  (* a failed assert(expr) *)

Inductive result (A : Type) : Type :=
| Ok (a : A)
| Err (e : error).

Arguments Ok {A} a.
Arguments Err {A} e.

Definition bind (A B : Type) (m : result A) (k : A -> result B) : result B :=
  match m with
  | Ok a => k a
  | Err e => Err e
  end.

Notation "x <- m ;; k" := (bind m (fun x => k))
  (at level 61, m at next level, right associativity).

Definition assert (b : bool) (expr : string) : result unit :=
  if b then Ok tt else Err (assert_failed expr).

Definition newline : string := String (Ascii.ascii_of_nat 10) EmptyString.

Definition CHECK (b : bool) (expr : string) : result unit :=
  if b then Ok tt
  else Err (CHECK_failed ("Failed expression: " ++ expr ++ newline)%string).

(** A loop whose body can throw: the first error ends it. *)
Definition fold_result (A B : Type) (f : A -> B -> result A) (l : list B) (a : A) : result A :=
  fold_left (fun (r : result A) (b : B) => a' <- r ;; f a' b) l (Ok a).

(** ** The [GDFMM] object

    [distExpCache_] and [colorExpCache_] are instances of the exponential
    cache class declared in the header [gdfmm/gdfmm.h], which is not among
    the sources; a cache enters as the function [int -> float] its call
    operator computes. *)
Record GDFMM : Type := mkGDFMM {
  distExpCache_ : Z -> float;
  colorExpCache_ : Z -> float;
  windowSize_ : Z;
  blurSigma_ : float
}.

(** [GDFMM::GDFMM], given the two caches its initialiser list builds;
    [%] is C's remainder. *)
Definition GDFMM_new (distExpCache colorExpCache : Z -> float) (blurSigma : float)
    (windowSize : Z) : result GDFMM :=
  let this := mkGDFMM distExpCache colorExpCache windowSize blurSigma in
  _ <- assert ((Z.rem (windowSize_ this) 2 =? 1) && (3 <=? windowSize))
              "windowSize_ % 2 == 1 && windowSize >= 3" ;;
  Ok this.

(** [ComputeDepthGradient]: one-sided differences between known neighbours. *)
Definition ComputeDepthGradient (depthImage : Mat float) (x y : Z) : float * float :=
  let at_ := depth_at depthImage in
  let dx := fzero in
  let dy := fzero in
  let wx := 0 in
  let wy := 0 in
  let '(dx, wx) :=
    if (0 <? x) && fne (at_ y x) fzero && fne (at_ y (x - 1)) fzero
    then (fadd dx (fsub (at_ y x) (at_ y (x - 1))), wx + 1) else (dx, wx) in
  let '(dx, wx) :=
    if (x + 1 <? cols depthImage) && fne (at_ y (x + 1)) fzero && fne (at_ y x) fzero
    then (fadd dx (fsub (at_ y (x + 1)) (at_ y x)), wx + 1) else (dx, wx) in
  let '(dy, wy) :=
    if (0 <? y) && fne (at_ y x) fzero && fne (at_ (y - 1) x) fzero
    then (fadd dy (fsub (at_ y x) (at_ (y - 1) x)), wy + 1) else (dy, wy) in
  let '(dy, wy) :=
    if (y + 1 <? rows depthImage) && fne (at_ (y + 1) x) fzero && fne (at_ y x) fzero
    then (fadd dy (fsub (at_ (y + 1) x) (at_ y x)), wy + 1) else (dy, wy) in
  (if 0 <? wx then fdiv dx (float_of_int wx) else fzero,
   if 0 <? wy then fdiv dy (float_of_int wy) else fzero).

(** [GDFMM::BilateralWeight]; that the image holds [uint8_t] is in its type. *)
Definition BilateralWeight (g : GDFMM) (p1 p2 : Point) (rgbImage : Mat RGB) : result float :=
  _ <- assert (channels rgbImage =? 3) "rgbImage.channels() == 3" ;;
  let c1 := rgb_at rgbImage (p_y p1) (p_x p1) in
  let c2 := rgb_at rgbImage (p_y p2) (p_x p2) in
  Ok (fmul (fmul (fmul (fmul
    (distExpCache_ g (p_x p2 - p_x p1))
    (distExpCache_ g (p_y p2 - p_y p1)))
    (colorExpCache_ g (vec3_get c1 0 - vec3_get c2 0)))
    (colorExpCache_ g (vec3_get c1 1 - vec3_get c2 1)))
    (colorExpCache_ g (vec3_get c1 2 - vec3_get c2 2))).

(** The three accumulators of [PredictDepth]'s loops. *)
Record Sums : Type := mkSums {
  sumWeights : float;
  sumValues : float;
  count : Z
}.

Definition Sums_init : Sums := mkSums fzero fzero 0.

(** Body of the inner loop of [PredictDepth] at window pixel [(m, n)].  The
    gradient term is computed, as in the source, and not used. *)
Definition PredictDepth_pixel (g : GDFMM) (depthImage : Mat float) (rgbImage : Mat RGB)
    (x y n m : Z) (s : Sums) : result Sums :=
  let depth := depth_at depthImage n m in
  if feq depth fzero then Ok s
  else
    w <- BilateralWeight g (mkPoint x y) (mkPoint m n) rgbImage ;;
    let weight := std_max float_1em6 w in
    let '(gX, gY) := ComputeDepthGradient depthImage m n in
    let gradientTerm :=
      fadd (fmul gX (float_of_int (x - m))) (fmul gY (float_of_int (y - n))) in
    Ok (mkSums (fadd (sumWeights s) weight)
               (fadd (sumValues s) (fmul weight depth))
               (count s + 1)).

Definition window_lo (c windowRadius : Z) : Z := Z.max 0 (c - windowRadius).
Definition window_hi (size c windowRadius : Z) : Z := Z.min (size - 1) (c + windowRadius).

Definition PredictDepth_loops (g : GDFMM) (depthImage : Mat float) (rgbImage : Mat RGB)
    (x y : Z) : result Sums :=
  let windowRadius := Z.quot (windowSize_ g) 2 in
  fold_result
    (fun s n =>
       fold_result
         (fun s m => PredictDepth_pixel g depthImage rgbImage x y n m s)
         (Zrange (window_lo x windowRadius) (window_hi (cols depthImage) x windowRadius))
         s)
    (Zrange (window_lo y windowRadius) (window_hi (rows depthImage) y windowRadius))
    Sums_init.

(** [GDFMM::PredictDepth]. *)
Definition PredictDepth (g : GDFMM) (depthImage : Mat float) (rgbImage : Mat RGB)
    (x y : Z) : result float :=
  _ <- assert (cols depthImage =? cols rgbImage) "depthImage.cols == rgbImage.cols" ;;
  _ <- assert (rows depthImage =? rows rgbImage) "depthImage.rows == rgbImage.rows" ;;
  s <- PredictDepth_loops g depthImage rgbImage x y ;;
  if count s <=? 3 then Ok fzero
  else Ok (fdiv (sumValues s) (sumWeights s)).

(** [ComputeSpeed]. *)
Definition ComputeSpeed (gradientStrength : Mat (Vec3 float)) (position : Point) : float :=
  let v := mat_at vec3f_zero gradientStrength (p_y position) (p_x position) in
  fdiv (float_of_int (-1))
       (fadd (fadd (fadd (float_of_int 1) (vec3_get v 0)) (vec3_get v 1)) (vec3_get v 2)).

(** ** The least-squares predictor

    Eigen arrays are lists: a dynamic [n x 4] array is the list of its
    rows.  Eigen's reductions are modelled as left-to-right sums; the
    library may associate them differently, which changes roundings only. *)
Definition fsum (l : list float) : float := fold_left fadd l fzero.

Definition fmean (l : list float) : float :=
  fdiv (fsum l) (float_of_int (Z.of_nat (List.length l))).

Definition column (X : list (list float)) (j : nat) : list float :=
  map (fun r => nth j r fzero) X.

Definition colwise (A : Type) (f : list float -> A) (X : list (list float)) : list A :=
  map (fun j => f (column X j)) [0; 1; 2; 3]%nat.

Definition rowwise2 (op : float -> float -> float) (X : list (list float))
    (v : list float) : list (list float) :=
  map (fun r => map (fun p => op (fst p) (snd p)) (combine r v)) X.

Definition fdot (a b : list float) : float :=
  fsum (map (fun p => fmul (fst p) (snd p)) (combine a b)).

(** The pixels [(m, n)] of the clipped window, in loop order, that are known. *)
Definition known_window (g : GDFMM) (depthImage : Mat float) (x y : Z) : list (Z * Z) :=
  let windowRadius := Z.quot (windowSize_ g) 2 in
  let lowerY := Z.max 0 (y - windowRadius) in
  let lowerX := Z.max 0 (x - windowRadius) in
  let upperY := Z.min (rows depthImage - 1) (y + windowRadius) in
  let upperX := Z.min (cols depthImage - 1) (x + windowRadius) in
  flat_map
    (fun n =>
       flat_map
         (fun m => if feq (depth_at depthImage n m) fzero then [] else [(m, n)])
         (Zrange lowerX upperX))
    (Zrange lowerY upperY).

(** What [PredictDepth2] holds when it reaches the solve: the normalised
    features, the scales, the clamped constant and the test vector. *)
Record LeastSquares : Type := mkLeastSquares {
  ls_mX : list float;
  ls_mY : float;
  ls_sX : list float;
  ls_X : list (list float);
  ls_Y : list float;
  ls_constant : float;
  ls_cov : list (list float);
  ls_xy : list float;
  ls_test : list float
}.

Definition PredictDepth2_system (g : GDFMM) (depthImage : Mat float) (rgbImage : Mat RGB)
    (x y : Z) (epsilon constant : float) : LeastSquares :=
  let known := known_window g depthImage x y in
  (* Build the array *)
  let X :=
    map (fun mn : Z * Z =>
           let c := rgb_at rgbImage (snd mn) (fst mn) in
           [float_of_int (vec3_get c 0); float_of_int (vec3_get c 1);
            float_of_int (vec3_get c 2); float_of_int 0])
        known in
  let Y := map (fun mn : Z * Z => depth_at depthImage (snd mn) (fst mn)) known in
  (* Find mean *)
  let mX := colwise fmean X in
  let mY := fmean Y in
  (* normalize x... *)
  let X := rowwise2 fsub X mX in
  let Y := map (fun v => fsub v mY) Y in
  let sX := colwise (fun c => fsqrt (fmean (map (fun v => fmul v v) c))) X in
  let sX := map (fun s => std_max s float_1em5) sX in
  let sX := set_nth sX 3 (float_of_int 1) in
  let X := map (fun r => set_nth r 3 constant) X in
  let constant := std_max float_1em5 constant in
  let X := rowwise2 fdiv X sX in
  (* Find covariance *)
  let cov :=
    map (fun i => map (fun j => fdot (column X i) (column X j)) [0; 1; 2; 3]%nat)
        [0; 1; 2; 3]%nat in
  let reg :=
    map (fun i => map (fun j => if Nat.eqb i j then epsilon else float_of_int 0)
                      [0; 1; 2; 3]%nat)
        [0; 1; 2; 3]%nat in
  let cov := map (fun p => map (fun q => fadd (fst q) (snd q)) (combine (fst p) (snd p)))
                 (combine cov reg) in
  (* make prediction *)
  let xy := colwise (fun c => fsum (map (fun p => fmul (fst p) (snd p)) (combine c Y))) X in
  let c := rgb_at rgbImage y x in
  let test :=
    [float_of_int (vec3_get c 0); float_of_int (vec3_get c 1);
     float_of_int (vec3_get c 2); float_of_int 0] in
  let test := map (fun p => fdiv (fsub (fst (fst p)) (snd (fst p))) (snd p))
                  (combine (combine test mX) sX) in
  let test := set_nth test 3 constant in
  mkLeastSquares mX mY sX X Y constant cov xy test.

Section LeastSquaresPredictor.

(** [cov.ldlt().solve(b)]: Eigen's LDLT factorisation and solve. *)
Variable ldlt_solve : list (list float) -> list float -> list float.

(** [GDFMM::PredictDepth2]; [truncation] is accepted and ignored. *)
Definition PredictDepth2 (g : GDFMM) (depthImage : Mat float) (rgbImage : Mat RGB)
    (x y : Z) (epsilon constant truncation : float) : result float :=
  _ <- assert (cols depthImage =? cols rgbImage) "depthImage.cols == rgbImage.cols" ;;
  _ <- assert (rows depthImage =? rows rgbImage) "depthImage.rows == rgbImage.rows" ;;
  let num_known := Z.of_nat (List.length (known_window g depthImage x y)) in
  if num_known <=? 3 then Ok fzero
  else
    let ls := PredictDepth2_system g depthImage rgbImage x y epsilon constant in
    let beta := ldlt_solve (ls_cov ls) (ls_xy ls) in
    _ <- assert (channels rgbImage =? 3) "rgbImage.channels() == 3" ;;
    let prediction := fadd (fdot beta (ls_test ls)) (ls_mY ls) in
    _ <- assert (negb (isnan prediction)) "!std::isnan(prediction)" ;;
    Ok prediction.

End LeastSquaresPredictor.

(** ** The propagation engine *)

(** An entry of the narrow band: [pair<float, Point>]. *)
Definition BandItem : Type := (float * Point)%type.

(** The comparator of the priority queue: [p1.first < p2.first]. *)
Definition compare_items (p1 p2 : BandItem) : bool := flt (fst p1) (fst p2).

Definition too_few_known_values : string :=
  "Too few known values. Try densifying your depth image first, or increasing the window size.".

Definition images_must_have_same_size : string := "Images must have same size.".

(** The 4-neighbourhood, in the order of the source's array. *)
Definition neighbours : list Point :=
  [mkPoint 0 1; mkPoint 1 0; mkPoint (-1) 0; mkPoint 0 (-1)].

(** The mutable state of the loop: the working depth image and the queue. *)
Record Band : Type := mkBand {
  depthImage : Mat float;
  narrowBand : list BandItem
}.

(** [narrowBand.emplace(priority, p)]. *)
Definition emplace (priority : float) (p : Point) (h : list BandItem) : list BandItem :=
  (priority, p) :: h.

(** What a [std::priority_queue] promises of [top()] followed by [pop()] on a
    queue that holds [it :: rest]: the element taken is one of the queue's,
    the others stay, and no element left behind is greater under the
    comparator.  Which of several greatest elements is taken is not fixed. *)
Definition priority_queue_contract
    (top_pop : BandItem -> list BandItem -> BandItem * list BandItem) : Prop :=
  forall it rest,
    Permutation (it :: rest) (fst (top_pop it rest) :: snd (top_pop it rest)) /\
    forall j, In j (snd (top_pop it rest)) -> compare_items (fst (top_pop it rest)) j = false.

(** A queue that takes the first greatest element, scanning from the back. *)
Fixpoint heap_top_pop (it : BandItem) (rest : list BandItem) : BandItem * list BandItem :=
  match rest with
  | [] => (it, [])
  | j :: t =>
      let '(m, t') := heap_top_pop j t in
      if compare_items m it then (it, rest) else (m, it :: t')
  end.

Section Propagation.

(** [narrowBand.top()] and [narrowBand.pop()] on a non-empty queue. *)
Variable top_pop : BandItem -> list BandItem -> BandItem * list BandItem.

(** The predictor the template is instantiated with. *)
Variable predict : Mat float -> Mat RGB -> Z -> Z -> result float.

(** OpenCV's [cv::GaussianBlur(src, dst, Size(0,0), sigma, sigma)] and
    [cv::Sobel(src, dst, CV_32F, dx, dy, 3)]. *)
Variable cv_GaussianBlur : Mat RGB -> float -> Mat RGB.
Variable cv_Sobel : Mat RGB -> Z -> Z -> Mat (Vec3 float).

(** One iteration of the loop over [neighbours], for the entry
    [(speed, position)] just popped. *)
Definition visit_neighbour (rgbImage : Mat RGB) (rgbGradientStrength : Mat (Vec3 float))
    (speed : float) (position : Point) (st : Band) (d : Point) : result Band :=
  let neighbour := mkPoint (p_x position + p_x d) (p_y position + p_y d) in
  if negb (in_bounds (depthImage st) (p_y neighbour) (p_x neighbour)) then Ok st
  else if feq (depth_at (depthImage st) (p_y neighbour) (p_x neighbour)) fzero then
    prediction <- predict (depthImage st) rgbImage (p_x neighbour) (p_y neighbour) ;;
    let depthImage' := mat_set (depthImage st) (p_y neighbour) (p_x neighbour) prediction in
    if fne prediction fzero then
      let T := ComputeSpeed rgbGradientStrength neighbour in
      Ok (mkBand depthImage' (emplace T neighbour (narrowBand st)))
    else
      (* re-try later *)
      if flt speed (float_of_int (-20)) then Err (runtime_error too_few_known_values)
      else Ok (mkBand depthImage' (emplace (fsub speed (float_of_int 1)) position (narrowBand st)))
  else Ok st.

(** The body of [while (narrowBand.size() > 0)] on a queue [it :: rest]. *)
Definition propagate_step (rgbImage : Mat RGB) (rgbGradientStrength : Mat (Vec3 float))
    (depth : Mat float) (it : BandItem) (rest : list BandItem) : result Band :=
  let '((speed, position), rest') := top_pop it rest in
  fold_result (visit_neighbour rgbImage rgbGradientStrength speed position)
              neighbours (mkBand depth rest').

(** The loop, run for at most [fuel] iterations; [None] when they do not
    suffice. *)
Fixpoint propagate (fuel : nat) (rgbImage : Mat RGB) (rgbGradientStrength : Mat (Vec3 float))
    (st : Band) : option (result (Mat float)) :=
  match fuel with
  | O => None
  | S fuel' =>
      match narrowBand st with
      | [] => Some (Ok (depthImage st))
      | it :: rest =>
          match propagate_step rgbImage rgbGradientStrength (depthImage st) it rest with
          | Err e => Some (Err e)
          | Ok st' => propagate fuel' rgbImage rgbGradientStrength st'
          end
      end
  end.

(** The state at the head of the loop after [n] iterations that threw
    nothing; [None] when the loop has ended before. *)
Fixpoint state_after (n : nat) (rgbImage : Mat RGB) (rgbGradientStrength : Mat (Vec3 float))
    (st : Band) : option Band :=
  match n with
  | O => Some st
  | S n' =>
      match narrowBand st with
      | [] => None
      | it :: rest =>
          match propagate_step rgbImage rgbGradientStrength (depthImage st) it rest with
          | Err _ => None
          | Ok st' => state_after n' rgbImage rgbGradientStrength st'
          end
      end
  end.

Definition all_pixels (A : Type) (m : Mat A) : list (Z * Z) :=
  flat_map (fun y => map (fun x => (y, x)) (Zrange 0 (cols m - 1))) (Zrange 0 (rows m - 1)).

(** Squared gradient magnitude per channel. *)
Definition gradient_strength (rgbImage : Mat RGB) (rgbGradientX rgbGradientY : Mat (Vec3 float))
    : Mat (Vec3 float) :=
  let cell (y x c : Z) :=
    let gx := vec3_get (mat_at vec3f_zero rgbGradientX y x) c in
    let gy := vec3_get (mat_at vec3f_zero rgbGradientY y x) c in
    fadd (fmul gx gx) (fmul gy gy) in
  mkMat (rows rgbImage) (cols rgbImage) 3
        (map (fun yx : Z * Z =>
                (cell (fst yx) (snd yx) 0, cell (fst yx) (snd yx) 1, cell (fst yx) (snd yx) 2))
             (all_pixels rgbImage)).

(** The initial narrow band: every known pixel, with priority 0. *)
Definition initial_band (depth : Mat float) : list BandItem :=
  fold_left
    (fun h (yx : Z * Z) =>
       if fne (depth_at depth (fst yx) (snd yx)) fzero
       then emplace (float_of_int 0) (mkPoint (snd yx) (fst yx)) h
       else h)
    (all_pixels depth) [].

(** [GDFMM::InPaintBase] up to the final conversion: what it returns or
    throws, [None] when [fuel] iterations of the loop do not suffice. *)
Definition InPaintBase_body (blurSigma : float) (depthImageOriginal : Mat Z)
    (rgbImage : Mat RGB) (fuel : nat) : option (result (Mat Z)) :=
  if negb (cols rgbImage =? cols depthImageOriginal)
     || negb (rows rgbImage =? rows depthImageOriginal)
  then Some (Err (runtime_error images_must_have_same_size))
  else
    match
      (_ <- CHECK (channels depthImageOriginal =? 1) "depthImageOriginal.channels() == 1" ;;
       CHECK (channels rgbImage =? 3) "rgbImage.channels() == 3")
    with
    | Err e => Some (Err e)
    | Ok _ =>
        let depth := convertTo_32F depthImageOriginal in
        let tmp := cv_GaussianBlur rgbImage blurSigma in
        let rgbGradientX := cv_Sobel tmp 1 0 in
        let rgbGradientY := cv_Sobel tmp 0 1 in
        let rgbGradientStrength := gradient_strength rgbImage rgbGradientX rgbGradientY in
        match propagate fuel rgbImage rgbGradientStrength (mkBand depth (initial_band depth)) with
        | None => None
        | Some (Err e) => Some (Err e)
        | Some (Ok filled) => Some (Ok (convertTo_16U filled))
        end
    end.

(** [GDFMM::InPaintBase] with its out-parameter: [output] is what [*output]
    holds before the call ([None] for a null pointer); the second component
    is what it holds afterwards. *)
Definition InPaintBase (blurSigma : float) (depthImageOriginal : Mat Z) (rgbImage : Mat RGB)
    (output : option (Mat Z)) (fuel : nat) : option (result (Mat Z)) * option (Mat Z) :=
  match InPaintBase_body blurSigma depthImageOriginal rgbImage fuel with
  | Some (Ok img) => (Some (Ok img), match output with Some _ => Some img | None => None end)
  | r => (r, output)
  end.

End Propagation.

Section EntryPoints.

Variable top_pop : BandItem -> list BandItem -> BandItem * list BandItem.
Variable cv_GaussianBlur : Mat RGB -> float -> Mat RGB.
Variable cv_Sobel : Mat RGB -> Z -> Z -> Mat (Vec3 float).
Variable ldlt_solve : list (list float) -> list float -> list float.

(** [GDFMM::InPaint]. *)
Definition InPaint (g : GDFMM) (depthImage : Mat Z) (rgbImageOriginal : Mat RGB)
    (output : option (Mat Z)) (fuel : nat) : option (result (Mat Z)) * option (Mat Z) :=
  InPaintBase top_pop (PredictDepth g) cv_GaussianBlur cv_Sobel (blurSigma_ g)
              depthImage rgbImageOriginal output fuel.

(** [GDFMM::InPaint2]. *)
Definition InPaint2 (g : GDFMM) (depthImage : Mat Z) (rgbImageOriginal : Mat RGB)
    (epsilon constant truncation : float) (output : option (Mat Z)) (fuel : nat)
    : option (result (Mat Z)) * option (Mat Z) :=
  InPaintBase top_pop
              (fun dI rgbI x y => PredictDepth2 ldlt_solve g dI rgbI x y epsilon constant truncation)
              cv_GaussianBlur cv_Sobel (blurSigma_ g)
              depthImage rgbImageOriginal output fuel.

End EntryPoints.

(** ** Collaborators to run the model with *)

(** Modelled from the spec: the exponential cache of [gdfmm/gdfmm.h], which
    is not among the sources, holds [E(k) = exp(-k^2 / (2 sigma^2))].  For a
    small [sigma] (0.01, say) the exponential underflows to 0 in binary32 at
    every [k <> 0], and [E(0) = 1]. *)
Definition ExpCache_sharp (k : Z) : float := if k =? 0 then fone else fzero.

(** Modelled from the spec: the same cache for a [sigma] so large (1e30,
    say) that [exp(-k^2 / (2 sigma^2))] rounds to 1 at every [k] in range. *)
Definition ExpCache_flat (k : Z) : float := fone.

Definition gdfmm_flat : GDFMM := mkGDFMM ExpCache_flat ExpCache_flat 3 fone.
Definition gdfmm_sharp : GDFMM := mkGDFMM ExpCache_sharp ExpCache_sharp 3 fone.

(** On an image of one colour a normalised blur changes nothing and the
    Sobel derivatives vanish. *)
Definition blur_uniform (src : Mat RGB) (sigma : float) : Mat RGB := src.

Definition sobel_uniform (src : Mat RGB) (dx dy : Z) : Mat (Vec3 float) :=
  mkMat (rows src) (cols src) 3 (map (fun _ => vec3f_zero) (elems src)).

Definition uniform_image (r c : Z) (colour : RGB) : Mat RGB :=
  mkMat r c 3 (repeat colour (Z.to_nat (r * c))).

Definition gray : RGB := (128, 128, 128).
Definition white : RGB := (255, 255, 255).

(** A solve for systems whose matrix is diagonal: one division per
    component, which is what an LDLT solve of a diagonal matrix with
    nonzero pivots performs. *)
Definition solve_diagonal (cov : list (list float)) (b : list float) : list float :=
  map (fun i => fdiv (nth i b fzero) (nth i (nth i cov []) fzero)) [0; 1; 2; 3]%nat.

(** ** The bilateral predictor, as the specification words it *)

(** The bilateral weight of two pixels: two spatial and three colour cache
    values multiplied. *)
Definition bilateral_weight (g : GDFMM) (p1 p2 : Point) (rgbImage : Mat RGB) : float :=
  let c1 := rgb_at rgbImage (p_y p1) (p_x p1) in
  let c2 := rgb_at rgbImage (p_y p2) (p_x p2) in
  fmul (fmul (fmul (fmul
    (distExpCache_ g (p_x p2 - p_x p1))
    (distExpCache_ g (p_y p2 - p_y p1)))
    (colorExpCache_ g (vec3_get c1 0 - vec3_get c2 0)))
    (colorExpCache_ g (vec3_get c1 1 - vec3_get c2 1)))
    (colorExpCache_ g (vec3_get c1 2 - vec3_get c2 2)).

(** A weight floored at 1e-6: the weight itself where it is at least 1e-6,
    and 1e-6 everywhere else. *)
Definition floor_at_1em6 (w : float) : float :=
  if fle float_1em6 w then w else float_1em6.

Definition floored_weight (g : GDFMM) (rgbImage : Mat RGB) (x y : Z) (mn : Z * Z) : float :=
  floor_at_1em6 (bilateral_weight g (mkPoint x y) (mkPoint (fst mn) (snd mn)) rgbImage).

Definition weight_sum (g : GDFMM) (rgbImage : Mat RGB) (x y : Z)
    (known : list (Z * Z)) (start : float) : float :=
  fold_left (fun acc mn => fadd acc (floored_weight g rgbImage x y mn)) known start.

Definition value_sum (g : GDFMM) (depthImage : Mat float) (rgbImage : Mat RGB) (x y : Z)
    (known : list (Z * Z)) (start : float) : float :=
  fold_left
    (fun acc mn =>
       fadd acc (fmul (floored_weight g rgbImage x y mn)
                      (depth_at depthImage (snd mn) (fst mn))))
    known start.


(** The accumulators after one more known window pixel [(m, n)]. *)
Definition add_known (g : GDFMM) (depthImage : Mat float) (rgbImage : Mat RGB)
    (x y : Z) (s : Sums) (mn : Z * Z) : Sums :=
  mkSums (fadd (sumWeights s) (floored_weight g rgbImage x y mn))
         (fadd (sumValues s)
               (fmul (floored_weight g rgbImage x y mn)
                     (depth_at depthImage (snd mn) (fst mn))))
         (count s + 1).

(** The three accumulators after all known window pixels. *)
Definition bilateral_sums (g : GDFMM) (depthImage : Mat float) (rgbImage : Mat RGB)
    (x y : Z) : Sums :=
  fold_left (add_known g depthImage rgbImage x y) (known_window g depthImage x y) Sums_init.

(** ** Notions the properties are stated with *)

(** [d] agrees with [d0] wherever [d0] holds a known (non-zero) value. *)
Definition keeps_known (d0 d : Mat float) : Prop :=
  cols d = cols d0 /\ rows d = rows d0 /\
  forall i, feq (nth i (elems d0) fzero) fzero = false ->
            nth i (elems d) fzero = nth i (elems d0) fzero.

(** [test] holds at [v], [v + 1], .., [v + n - 1]. *)
Fixpoint check_up (test : Z -> bool) (n : nat) (v : Z) : bool :=
  match n with
  | O => true
  | S k => test v && check_up test k (v + 1)
  end.

(** A 16-bit depth survives the conversion to [float] and back, and a
    non-zero one stays non-zero as a [float]. *)
Definition ushort_round_trip (v : Z) : bool :=
  (saturate_cast_ushort (float_of_int v) =? v) && fne (float_of_int v) fzero.

(** ** Inputs of the worked examples *)

(** One known pixel beside one unknown pixel. *)
Definition depth_1x2 : Mat Z := mkMat 1 2 1 [100; 0].

(** The specification's "single hole" scenario. *)
Definition depth_hole : Mat Z := mkMat 3 3 1 [100; 100; 100; 100; 0; 100; 100; 100; 100].

(** Five known pixels of depth 3, all white, around a black unknown pixel. *)
Definition depth_five_threes : Mat float :=
  mkMat 3 3 1 (map float_of_int [3; 3; 3; 3; 0; 3; 0; 0; 0]).

Definition rgb_black_centre : Mat RGB :=
  mkMat 3 3 3 [white; white; white; white; rgb_black; white; white; white; white].

(** Eight known depths around an unknown centre. *)
Definition depth_ring : Mat float :=
  mkMat 3 3 1 (map float_of_int [1; 2; 3; 4; 0; 6; 7; 8; 9]).

(** Four known depths, 2^123 where red is 0 and 1.5 * 2^123 where red is
    2, around an unknown pixel whose red is 255; green and blue agree on
    the five pixels. *)
Definition depth_huge : Mat float :=
  mkMat 3 3 1
        [S754_finite false 8388608 100; fzero; S754_finite false 12582912 100;
         fzero; fzero; fzero;
         S754_finite false 8388608 100; fzero; S754_finite false 12582912 100].

Definition rgb_red_ramp : Mat RGB :=
  mkMat 3 3 3 [(0, 7, 7); (9, 9, 9); (2, 7, 7);
               (9, 9, 9); (255, 7, 7); (9, 9, 9);
               (0, 7, 7); (9, 9, 9); (2, 7, 7)].

(** ** Real values of binary32 numbers and rounding to nearest even *)

Definition bpow (e : Z) : R := powerRZ 2 e.

(** The exponent of the binary32 numbers of magnitude [2^(g-1) <= x < 2^g]. *)
Definition fexp32 (g : Z) : Z := Z.max (g - 24) (-149).

(** The real number a zero or finite float stands for. *)
Definition F2R (f : float) : R :=
  match f with
  | S754_finite s m e =>
      if s then (- (IZR (Zpos m) * bpow e))%R else (IZR (Zpos m) * bpow e)%R
  | _ => 0%R
  end.

(** Well-formed binary32 numbers: a finite one has its canonical mantissa
    and exponent. *)
Definition valid (f : float) : bool := valid_binary prec emax f.

(** The integer [m] and the location [l] describe the real [y]:
    [m <= y < m + 1], and [l] places [y] against [m] and [m + 1/2]. *)
Definition loc_ok (m : Z) (l : location) (y : R) : Prop :=
  match l with
  | loc_Exact => y = IZR m
  | loc_Inexact Lt => (IZR m < y < IZR m + / 2)%R
  | loc_Inexact Eq => y = (IZR m + / 2)%R
  | loc_Inexact Gt => (IZR m + / 2 < y < IZR m + 1)%R
  end.

(** [k] is the integer nearest to [y], the even one of two nearest. *)
Definition is_rne (y : R) (k : Z) : Prop :=
  (y - / 2 < IZR k < y + / 2)%R \/
  ((IZR k = y - / 2 \/ IZR k = y + / 2)%R /\ Z.even k = true).

(** [r] is [x > 0] rounded to nearest even in binary32 with unbounded
    exponent range above. *)
Definition rounds_to (x r : R) : Prop :=
  exists g k,
    (bpow (g - 1) <= x < bpow g)%R /\
    is_rne (x * bpow (- fexp32 g)) k /\
    r = (IZR k * bpow (fexp32 g))%R.

(** What a rounding operation returns for the rounded value [r >= 0]: zero,
    a valid finite number of value [r], or +infinity once [r] reaches
    [2^128]. *)
Definition round_result (f : float) (r : R) : Prop :=
  match f with
  | S754_zero false => r = 0%R
  | S754_finite false m e => valid f = true /\ F2R f = r
  | S754_infinity false => (bpow 128 <= r)%R
  | _ => False
  end.

(** The value of a non-negative float, +infinity counting as [2^128]. *)
Definition val (f : float) : R :=
  match f with
  | S754_infinity false => bpow 128
  | S754_finite false m e => (IZR (Zpos m) * bpow e)%R
  | _ => 0%R
  end.

(** Valid floats that are +0, positive and finite, or +infinity. *)
Definition nonneg (f : float) : Prop :=
  valid f = true /\
  match f with
  | S754_zero false | S754_finite false _ _ | S754_infinity false => True
  | _ => False
  end.

Definition finite_nonneg (f : float) : Prop := nonneg f /\ is_finite f = true.

(** [f] is what an operation returns whose exact result is [x >= 0]: +0
    when [x = 0], else [x] rounded to nearest even, +infinity from [2^128]
    on. *)
Definition rounded (f : float) (x : R) : Prop :=
  nonneg f /\
  ((x = 0%R /\ f = fzero) \/
   ((0 < x)%R /\ exists r, rounds_to x r /\ val f = Rmin r (bpow 128))).

(** Valid floats that are a zero, negative and finite, or -infinity, and
    the magnitude of such a float. *)
Definition nonpos (f : float) : Prop :=
  valid f = true /\
  match f with
  | S754_zero _ | S754_finite true _ _ | S754_infinity true => True
  | _ => False
  end.

Definition absval (f : float) : R := val (SFabs f).

(** [f] is a valid float, +0 or positive and finite, and at most [bound]. *)
Definition nonneg_upto (bound f : float) : bool :=
  valid f &&
  match f with
  | S754_zero false | S754_finite false _ _ => fle f bound
  | _ => false
  end.

(** The float [2^n], for [-126 <= n <= 127]. *)
Definition pow2 (n : Z) : float := S754_finite false 8388608 (n - 23).

(** The squared gradients the speeds are computed from are non-negative
    and at most [2^125] (those of 8-bit images stay below [2^22]). *)
Definition strength_ok (strength : Mat (Vec3 float)) : bool :=
  forallb (fun v => nonneg_upto (pow2 125) (vec3_get v 0) &&
                    nonneg_upto (pow2 125) (vec3_get v 1) &&
                    nonneg_upto (pow2 125) (vec3_get v 2))
          (elems strength).

(** Every priority in the queue is a valid float that is not positive. *)
Definition band_nonpos (h : list BandItem) : Prop :=
  Forall (fun it : BandItem => nonpos (fst it)) h.

(** A key that orders all floats but NaN as [<] does: a class for the sign
    and kind, then exponent and mantissa. *)
Definition order_key (f : float) : option (Z * Z * Z) :=
  match f with
  | S754_nan => None
  | S754_infinity true => Some (-2, 0, 0)
  | S754_infinity false => Some (2, 0, 0)
  | S754_zero _ => Some (0, 0, 0)
  | S754_finite false m e => Some (1, e, Zpos m)
  | S754_finite true m e => Some (-1, - e, Zneg m)
  end.

Definition key_lt (a b : Z * Z * Z) : Prop :=
  let '(a1, a2, a3) := a in
  let '(b1, b2, b3) := b in
  a1 < b1 \/ (a1 = b1 /\ (a2 < b2 \/ (a2 = b2 /\ a3 < b3))).

(** Squared gradients of one pixel: 4, 0 and 9. *)
Definition strength_1x1 : Mat (Vec3 float) :=
  mkMat 1 1 3 [(float_of_int 4, fzero, float_of_int 9)].

(** Both caches return valid floats between 0 and 1, as values of
    [exp(-k^2 / (2 sigma^2))] are. *)
Definition cache_ok (g : GDFMM) : Prop :=
  forall k, nonneg_upto fone (distExpCache_ g k) = true /\
            nonneg_upto fone (colorExpCache_ g k) = true.

(** A depth is unknown, or a valid positive float between [2^a] and [2^b]. *)
Definition depth_in_range (a b : Z) (d : float) : bool :=
  feq d fzero || (nonneg_upto (pow2 b) d && fle (pow2 a) d).

Definition depths_in_range (a b : Z) (D : Mat float) : bool :=
  forallb (depth_in_range a b) (elems D).

(** Four times the floor [(float)1e-6] of a weight. *)
Definition four_weight_floors : float := S754_finite false 8796093 (-41).

(** The running sum of weights is finite and never passes [2^24]. *)
Definition weights_inv (sw : float) : Prop := finite_nonneg sw /\ (val sw <= bpow 24)%R.

Definition weight_in_range (w : float) : Prop :=
  finite_nonneg w /\ (val float_1em6 <= val w <= 1)%R.

(** The two running sums together: their quotient stays between [2^a] and
    [2^b]. *)
Definition sums_inv (a b : Z) (sw sv : float) : Prop :=
  weights_inv sw /\ nonneg sv /\
  (val sw * bpow a <= val sv <= val sw * bpow b)%R.

(** ** The measure that bounds the propagation loop *)

(** The largest [k <= n] with [s <= -k]. *)
Fixpoint level_upto (n : nat) (s : float) : Z :=
  match n with
  | O => 0
  | S m => if fle s (float_of_int (- Z.of_nat n)) then Z.of_nat n else level_upto m s
  end.

(** A priority below [-20] ends the run at its next deferral, so 21 levels
    are all a queue entry can pass through. *)
Definition level (s : float) : Z := level_upto 21 s.

(** An entry weighs five times what each of the at most four entries
    weighs that one visit of it can defer. *)
Definition item_weight (it : BandItem) : Z := 5 ^ (21 - level (fst it)).

Definition band_weight (h : list BandItem) : Z :=
  fold_right (fun it acc => item_weight it + acc) 0 h.

Definition unknown_count (D : Mat float) : Z :=
  Z.of_nat (List.length (filter (fun v => feq v fzero) (elems D))).

Definition band_measure (st : Band) : Z :=
  (5 ^ 21 + 1) * unknown_count (depthImage st) + band_weight (narrowBand st).

(** ** Invariants of the propagation loop *)

(** Every known pixel with an unknown 4-neighbour inside the image has an
    entry in the queue, but for the pixel [p] being visited, whose
    neighbours [p + d], [d] in [todo], are still to be looked at. *)
Definition covers_but (D : Mat float) (h : list BandItem) (p : Point) (todo : list Point)
    : Prop :=
  forall x y d,
    In d neighbours ->
    in_bounds D y x = true -> feq (depth_at D y x) fzero = false ->
    in_bounds D (y + p_y d) (x + p_x d) = true ->
    feq (depth_at D (y + p_y d) (x + p_x d)) fzero = true ->
    (exists s, In (s, mkPoint x y) h) \/ (mkPoint x y = p /\ In d todo).

Definition band_covers (D : Mat float) (h : list BandItem) : Prop :=
  forall x y d,
    In d neighbours ->
    in_bounds D y x = true -> feq (depth_at D y x) fzero = false ->
    in_bounds D (y + p_y d) (x + p_x d) = true ->
    feq (depth_at D (y + p_y d) (x + p_x d)) fzero = true ->
    exists s, In (s, mkPoint x y) h.


(** Every position in the queue lies inside the image. *)
Definition band_in_bounds (D : Mat float) (h : list BandItem) : Prop :=
  Forall (fun it : BandItem => in_bounds D (p_y (snd it)) (p_x (snd it)) = true) h.

(** A colour derivative that is a valid finite float of magnitude at most
    [2^62] (the Sobel derivatives of an 8-bit image stay below [2^11]). *)
Definition gradient_ok (g : float) : bool :=
  valid g && is_finite g && fle (SFabs g) (pow2 62).

Definition gradients_ok (G : Mat (Vec3 float)) : bool :=
  forallb (fun v => gradient_ok (vec3_get v 0) && gradient_ok (vec3_get v 1) &&
                    gradient_ok (vec3_get v 2))
          (elems G).

(** The two running sums after [j] known pixels with depths between [lo]
    and [hi]: what the roundings of [j] steps, each of relative error at
    most [2^-24], leave of [lo * sw <= sv <= hi * sw]. *)
Definition rel_sums_inv (lo hi : R) (j : nat) (sw sv : float) : Prop :=
  (lo * (1 - bpow (-24)) ^ (j + 1) * val sw <= val sv * (1 + bpow (-24)) ^ j)%R /\
  (val sv * (1 - bpow (-24)) ^ j <= hi * (1 + bpow (-24)) ^ (j + 1) * val sw)%R.



(** * Properties *)

Unset Implicit Arguments.

(** ** Lists and matrices *)

Lemma length_set_nth (A : Type) (l : list A) (i : nat) (v : A) :
  List.length (set_nth l i v) = List.length l.
Proof.
  revert i; induction l as [|h t IH]; intros [|i]; simpl; auto.
Qed.

Lemma nth_set_nth_same (A : Type) (l : list A) (i : nat) (v d : A) :
  (i < List.length l)%nat -> nth i (set_nth l i v) d = v.
Proof.
  revert i; induction l as [|h t IH]; intros [|i] H; simpl in *; try lia; auto.
  apply IH; lia.
Qed.

Lemma nth_set_nth_other (A : Type) (l : list A) (i j : nat) (v d : A) :
  i <> j -> nth j (set_nth l i v) d = nth j l d.
Proof.
  revert i j; induction l as [|h t IH]; intros [|i] [|j] H; simpl; auto; try congruence.
Qed.

Lemma fold_left_flat_map (A B C : Type) (f : A -> C -> A) (g : B -> list C)
    (l : list B) (a : A) :
  fold_left f (flat_map g l) a = fold_left (fun acc b => fold_left f (g b) acc) l a.
Proof.
  revert a; induction l as [|b l IH]; intro a; simpl; auto.
  rewrite fold_left_app. apply IH.
Qed.

Lemma fold_left_ext_in (A B : Type) (f g : A -> B -> A) (l : list B) (a : A) :
  (forall acc b, f acc b = g acc b) -> fold_left f l a = fold_left g l a.
Proof.
  intro H; revert a; induction l as [|b l IH]; intro a; simpl; auto.
  rewrite H; apply IH.
Qed.

(** ** Loops that can throw *)

Lemma fold_left_Err (A B : Type) (f : A -> B -> result A) (l : list B) (e : error) :
  fold_left (fun (r : result A) (b : B) => a' <- r ;; f a' b) l (Err e) = Err e.
Proof.
  induction l as [|b l IH]; simpl; auto.
Qed.

Lemma fold_result_cons (A B : Type) (f : A -> B -> result A) (b : B) (l : list B) (a : A) :
  fold_result f (b :: l) a =
  match f a b with
  | Ok a' => fold_result f l a'
  | Err e => Err e
  end.
Proof.
  unfold fold_result; simpl.
  destruct (f a b); auto. apply fold_left_Err.
Qed.

Lemma fold_result_nil (A B : Type) (f : A -> B -> result A) (a : A) :
  fold_result f [] a = Ok a.
Proof. reflexivity. Qed.

Lemma fold_result_inv (A B : Type) (P : A -> Prop) (f : A -> B -> result A) (l : list B) :
  (forall a b a', P a -> f a b = Ok a' -> P a') ->
  forall a a', P a -> fold_result f l a = Ok a' -> P a'.
Proof.
  intro Hf; induction l as [|b l IH]; intros a a' Pa H.
  - rewrite fold_result_nil in H. inversion H; subst; auto.
  - rewrite fold_result_cons in H.
    destruct (f a b) as [a1|e] eqn:E; [|discriminate].
    eapply IH; [|exact H]. eapply Hf; eauto.
Qed.

Lemma fold_result_Ok_fold_left (A B : Type) (f : A -> B -> result A) (h : A -> B -> A)
    (l : list B) (a : A) :
  (forall a b, f a b = Ok (h a b)) -> fold_result f l a = Ok (fold_left h l a).
Proof.
  intro H. revert a. induction l as [|b l IH]; intro a.
  - apply fold_result_nil.
  - rewrite fold_result_cons, H. cbn [fold_left]. apply IH.
Qed.

(** ** The bilateral predictor *)

Lemma BilateralWeight_Ok g p1 p2 C :
  channels C = 3 -> BilateralWeight g p1 p2 C = Ok (bilateral_weight g p1 p2 C).
Proof.
  intro H. unfold BilateralWeight. rewrite H. reflexivity.
Qed.

(** [std::max((float)1e-6, w)] floors [w] at 1e-6; the two differ in how
    they are written only where [w] equals 1e-6. *)
Lemma std_max_is_floor w : std_max float_1em6 w = floor_at_1em6 w.
Proof.
  unfold std_max, floor_at_1em6, flt, fle, SFltb, SFleb, float_1em6.
  destruct w as [s|s| |s m e]; try reflexivity; try (destruct s; reflexivity).
  destruct s; [reflexivity|].
  unfold SFcompare.
  destruct (Z.compare_spec (-43) e) as [E|E|E]; try reflexivity.
  subst e. fold (Pos.compare 8796093 m).
  destruct (Pos.compare_spec 8796093 m) as [E|E|E]; try reflexivity.
  subst m. reflexivity.
Qed.

Lemma PredictDepth_pixel_known g D C x y n m s :
  channels C = 3 ->
  PredictDepth_pixel g D C x y n m s =
  Ok (fold_left (add_known g D C x y)
                (if feq (depth_at D n m) fzero then [] else [(m, n)]) s).
Proof.
  intro H. unfold PredictDepth_pixel.
  destruct (feq (depth_at D n m) fzero); cbn [fold_left]; auto.
  rewrite (BilateralWeight_Ok g _ _ C H). cbn [bind].
  rewrite std_max_is_floor.
  destruct (ComputeDepthGradient D m n); reflexivity.
Qed.

Lemma PredictDepth_loops_known g D C x y :
  channels C = 3 -> PredictDepth_loops g D C x y = Ok (bilateral_sums g D C x y).
Proof.
  intro H. unfold PredictDepth_loops, bilateral_sums, known_window, window_lo, window_hi.
  rewrite fold_left_flat_map.
  apply fold_result_Ok_fold_left. intros s n.
  rewrite fold_left_flat_map.
  apply fold_result_Ok_fold_left. intros s' m.
  apply PredictDepth_pixel_known. exact H.
Qed.

Lemma fold_add_known g D C x y l s :
  fold_left (add_known g D C x y) l s =
  mkSums (weight_sum g C x y l (sumWeights s))
         (value_sum g D C x y l (sumValues s))
         (count s + Z.of_nat (List.length l)).
Proof.
  revert s; induction l as [|mn l IH]; intro s.
  - destruct s; simpl; f_equal; lia.
  - cbn [fold_left]. rewrite IH. unfold add_known at 1 2 3; cbn [sumWeights sumValues count].
    unfold weight_sum, value_sum; cbn [fold_left List.length].
    f_equal; lia.
Qed.


(** ** The result monad and the loop over neighbours *)

Lemma check_up_spec (test : Z -> bool) (n : nat) (v u : Z) :
  check_up test n v = true -> v <= u < v + Z.of_nat n -> test u = true.
Proof.
  revert v; induction n as [|n IH]; intros v H Hu.
  - simpl in Hu; lia.
  - simpl in H. apply andb_prop in H. destruct H as [H1 H2].
    destruct (Z.eq_dec u v) as [->|Hne]; auto.
    apply (IH (v + 1)); auto. lia.
Qed.

Lemma ushort_round_trip_all (v : Z) : 1 <= v <= 65535 -> ushort_round_trip v = true.
Proof.
  intro H.
  apply (check_up_spec ushort_round_trip (Z.to_nat 65535) 1).
  - vm_compute; reflexivity.
  - rewrite Z2Nat.id; lia.
Qed.

(** ** Known pixels are never written *)

Section Frame.

Variable top_pop : BandItem -> list BandItem -> BandItem * list BandItem.
Variable predict : Mat float -> Mat RGB -> Z -> Z -> result float.
Variable rgbImage : Mat RGB.
Variable strength : Mat (Vec3 float).
Variable d0 : Mat float.

Lemma keeps_known_refl : keeps_known d0 d0.
Proof. repeat split; auto. Qed.

Lemma visit_neighbour_keeps_known speed position st d st' :
  keeps_known d0 (depthImage st) ->
  visit_neighbour predict rgbImage strength speed position st d = Ok st' ->
  keeps_known d0 (depthImage st').
Proof.
  intros K H. unfold visit_neighbour in H.
  destruct (negb (in_bounds _ _ _)); [inversion H; subst; auto|].
  destruct (feq (depth_at _ _ _) fzero) eqn:Ez; [|inversion H; subst; auto].
  destruct (predict _ _ _ _) as [v|e]; [|discriminate]. cbn [bind] in H.
  assert (K' : keeps_known d0
                 (mat_set (depthImage st) (p_y position + p_y d) (p_x position + p_x d) v)).
  { destruct K as (Kc & Kr & Ke). repeat split; auto.
    intros i Hi. cbn [mat_set elems p_x p_y].
    destruct (Nat.eq_dec (mat_index (depthImage st) (p_y position + p_y d)
                                    (p_x position + p_x d)) i) as [<-|Hne].
    - exfalso. specialize (Ke _ Hi). unfold depth_at, mat_at in Ez.
      cbn [p_x p_y] in Ez. rewrite Ke in Ez. congruence.
    - rewrite nth_set_nth_other by exact Hne. auto. }
  destruct (fne v fzero).
  - inversion H; subst; exact K'.
  - destruct (flt speed _); [discriminate|]. inversion H; subst; exact K'.
Qed.

Lemma propagate_step_keeps_known depth it rest st' :
  keeps_known d0 depth ->
  propagate_step top_pop predict rgbImage strength depth it rest = Ok st' ->
  keeps_known d0 (depthImage st').
Proof.
  intros K H. unfold propagate_step in H.
  destruct (top_pop it rest) as [[speed position] rest'].
  revert H.
  apply (fold_result_inv Band Point (fun st => keeps_known d0 (depthImage st))); auto.
  intros a b a' Pa Hv. eapply visit_neighbour_keeps_known; eauto.
Qed.

Lemma propagate_keeps_known fuel st filled :
  keeps_known d0 (depthImage st) ->
  propagate top_pop predict fuel rgbImage strength st = Some (Ok filled) ->
  keeps_known d0 filled.
Proof.
  revert st; induction fuel as [|fuel IH]; intros st K H; [discriminate|].
  cbn [propagate] in H.
  destruct (narrowBand st) as [|it rest].
  - inversion H; subst; auto.
  - destruct (propagate_step _ _ _ _ _ _ _) as [st'|e] eqn:E; [|discriminate].
    eapply IH; [|exact H]. eapply propagate_step_keeps_known; eauto.
Qed.

End Frame.

Lemma InPaintBase_body_Ok top_pop predict blur sobel sigma D rgb fuel img :
  InPaintBase_body top_pop predict blur sobel sigma D rgb fuel = Some (Ok img) ->
  exists filled, keeps_known (convertTo_32F D) filled /\ img = convertTo_16U filled.
Proof.
  unfold InPaintBase_body.
  destruct (_ || _); [discriminate|].
  destruct (bind _ _); [|intro H; inversion H].
  destruct (propagate _ _ _ _ _ _) as [[filled|e]|] eqn:E; try discriminate.
  intro H; inversion H; subst. exists filled; split; auto.
  eapply propagate_keeps_known; [|exact E]. apply keeps_known_refl.
Qed.

Lemma InPaintBase_fst top_pop predict blur sobel sigma D rgb output fuel :
  fst (InPaintBase top_pop predict blur sobel sigma D rgb output fuel) =
  InPaintBase_body top_pop predict blur sobel sigma D rgb fuel.
Proof.
  unfold InPaintBase.
  destruct (InPaintBase_body _ _ _ _ _ _ _ _) as [[img|e]|]; reflexivity.
Qed.

(** C2 (as the code has it): a pixel whose depth lies in 1..65535 has the same value
    in whatever image the call returns, whatever the other pixels hold:
    propagation never writes a known pixel, and the conversions to [float]
    and back to 16 bit are exact on 1..65535.  (Above 65535 the final
    conversion saturates.) *)
Theorem C2_known_pixels_preserved top_pop predict blur sobel sigma D rgb output fuel img :
  fst (InPaintBase top_pop predict blur sobel sigma D rgb output fuel) = Some (Ok img) ->
  forall y x, 1 <= mat_at 0 D y x <= 65535 -> mat_at 0 img y x = mat_at 0 D y x.
Proof.
  intros H y x Hv. rewrite InPaintBase_fst in H.
  apply InPaintBase_body_Ok in H. destruct H as (filled & (Kc & Kr & Ke) & ->).
  unfold mat_at in *.
  assert (Hi : mat_index (convertTo_16U filled) y x = mat_index D y x).
  { unfold mat_index, convertTo_16U. cbn [mat_map cols]. rewrite Kc. reflexivity. }
  rewrite Hi. set (i := mat_index D y x) in *.
  unfold convertTo_16U, convertTo_32F in *. cbn [mat_map elems] in *.
  pose proof (ushort_round_trip_all _ Hv) as RT.
  unfold ushort_round_trip in RT. apply andb_prop in RT. destruct RT as [RT1 RT2].
  change 0 with (saturate_cast_ushort fzero) at 1. rewrite map_nth.
  rewrite Ke.
  - change fzero with (float_of_int 0). rewrite map_nth. apply Z.eqb_eq, RT1.
  - change fzero with (float_of_int 0) at 1. rewrite map_nth.
    unfold fne in RT2. apply negb_true_iff in RT2. exact RT2.
Qed.

(** ** Pre-flight checks *)

(** C9 (as the code has it): images of different sizes make the call throw
    [std::runtime_error("Images must have same size.")], a fixed text; a
    depth image that is not single-channel, or an RGB image that is not
    3-channel, makes it throw the text of the failed [CHECK].  In each case
    nothing was computed (no iteration is needed, whatever the predictor)
    and [*output] keeps what it held. *)
Theorem C9_preflight_errors top_pop predict blur sobel sigma D rgb output fuel :
  (cols rgb <> cols D \/ rows rgb <> rows D ->
   InPaintBase top_pop predict blur sobel sigma D rgb output fuel =
   (Some (Err (runtime_error "Images must have same size.")), output)) /\
  (cols rgb = cols D -> rows rgb = rows D -> channels D <> 1 ->
   InPaintBase top_pop predict blur sobel sigma D rgb output fuel =
   (Some (Err (CHECK_failed
                 ("Failed expression: depthImageOriginal.channels() == 1" ++ newline))),
    output)) /\
  (cols rgb = cols D -> rows rgb = rows D -> channels D = 1 -> channels rgb <> 3 ->
   InPaintBase top_pop predict blur sobel sigma D rgb output fuel =
   (Some (Err (CHECK_failed ("Failed expression: rgbImage.channels() == 3" ++ newline))),
    output)).
Proof.
  unfold InPaintBase, InPaintBase_body. repeat split.
  - intros [H|H]; apply Z.eqb_neq in H; rewrite H; cbn [negb orb];
      [|rewrite orb_true_r]; reflexivity.
  - intros Hc Hr Hd. rewrite Hc, Hr, !Z.eqb_refl. cbn [negb orb].
    apply Z.eqb_neq in Hd. rewrite Hd. reflexivity.
  - intros Hc Hr Hd Hch. rewrite Hc, Hr, Hd, !Z.eqb_refl. cbn [negb orb].
    apply Z.eqb_neq in Hch. rewrite Hch. reflexivity.
Qed.

Lemma C9_witness :
  InPaintBase heap_top_pop (PredictDepth gdfmm_flat) blur_uniform sobel_uniform fone
              depth_1x2 (uniform_image 3 3 gray) None 0 =
  (Some (Err (runtime_error "Images must have same size.")), None).
Proof.
  apply (proj1 (C9_preflight_errors heap_top_pop (PredictDepth gdfmm_flat) blur_uniform
                  sobel_uniform fone depth_1x2 (uniform_image 3 3 gray) None 0)).
  left. vm_compute. discriminate.
Defined.

(** C9 fails as stated: the message for a 1x2 depth image with a 3x3 RGB
    image and the message for a 3x3 depth image with a 1x2 RGB image are the
    same text, which names no size. *)
Lemma C9_counterexample :
  InPaintBase heap_top_pop (PredictDepth gdfmm_flat) blur_uniform sobel_uniform fone
              depth_1x2 (uniform_image 3 3 gray) None 100 =
  (Some (Err (runtime_error "Images must have same size.")), None) /\
  InPaintBase heap_top_pop (PredictDepth gdfmm_flat) blur_uniform sobel_uniform fone
              depth_hole (uniform_image 1 2 gray) None 100 =
  (Some (Err (runtime_error "Images must have same size.")), None).
Proof.
  split; vm_compute; reflexivity.
Qed.

(** ** Deferral *)

Lemma fold_result_app (A B : Type) (f : A -> B -> result A) (l1 l2 : list B) (a : A) :
  fold_result f (l1 ++ l2) a =
  match fold_result f l1 a with
  | Ok a' => fold_result f l2 a'
  | Err e => Err e
  end.
Proof.
  revert a. induction l1 as [|b l1 IH]; intro a; cbn [app].
  - rewrite fold_result_nil. reflexivity.
  - rewrite !fold_result_cons. destruct (f a b); auto.
Qed.

Lemma propagate_visit_error top_pop predict rgb grad depth it rest l1 d l2 st1 e fuel :
  neighbours = l1 ++ d :: l2 ->
  fold_result (visit_neighbour predict rgb grad (fst (fst (top_pop it rest)))
                               (snd (fst (top_pop it rest))))
              l1 (mkBand depth (snd (top_pop it rest))) = Ok st1 ->
  visit_neighbour predict rgb grad (fst (fst (top_pop it rest)))
                  (snd (fst (top_pop it rest))) st1 d = Err e ->
  propagate top_pop predict (S fuel) rgb grad (mkBand depth (it :: rest)) = Some (Err e).
Proof.
  intros Hn H1 He.
  cbn [propagate narrowBand depthImage]. unfold propagate_step.
  destruct (top_pop it rest) as [[sp pos] rest']. cbn [fst snd] in *.
  rewrite Hn, fold_result_app, H1, fold_result_cons, He. reflexivity.
Qed.

Lemma propagate_state_after top_pop predict rgb grad n :
  forall st st' k,
    state_after top_pop predict n rgb grad st = Some st' ->
    propagate top_pop predict (n + k) rgb grad st = propagate top_pop predict k rgb grad st'.
Proof.
  induction n as [|n IH]; intros st st' k H; cbn [state_after] in H.
  - injection H as <-. reflexivity.
  - cbn [Nat.add propagate].
    destruct (narrowBand st) as [|it rest]; [discriminate|].
    destruct (propagate_step top_pop predict rgb grad (depthImage st) it rest) as [st1|e];
      [|discriminate].
    apply IH. exact H.
Qed.

Lemma InPaintBase_propagate_error top_pop predict blur sobel sigma D rgb output fuel e :
  cols rgb = cols D -> rows rgb = rows D -> channels D = 1 -> channels rgb = 3 ->
  propagate top_pop predict fuel rgb
            (gradient_strength rgb (sobel (blur rgb sigma) 1 0) (sobel (blur rgb sigma) 0 1))
            (mkBand (convertTo_32F D) (initial_band (convertTo_32F D))) = Some (Err e) ->
  InPaintBase top_pop predict blur sobel sigma D rgb output fuel = (Some (Err e), output).
Proof.
  intros Hc Hr HcD HcC H.
  unfold InPaintBase, InPaintBase_body.
  rewrite Hc, Hr, !Z.eqb_refl, HcD, HcC.
  change (1 =? 1) with true. change (3 =? 3) with true.
  cbv beta iota delta [negb orb CHECK bind].
  rewrite H. reflexivity.
Qed.

(** C5: when the predictor returns 0 for an unknown neighbour in bounds, the
    visit throws the "too few known values" error exactly when the popped
    priority is below -20, and otherwise pushes the popped position again
    with priority [speed - 1].  And when it throws, the run aborts: if this
    visit is one of a call of [InPaintBase], in whichever iteration of the
    [while] loop and at whichever of the four neighbours, the call ends
    with that error, returns no image and leaves [*output] as it was. *)
Theorem C5_deferral_and_abort top_pop predict blur sobel rgbImage strength speed position st d v :
  let nx := p_x position + p_x d in
  let ny := p_y position + p_y d in
  in_bounds (depthImage st) ny nx = true ->
  feq (depth_at (depthImage st) ny nx) fzero = true ->
  predict (depthImage st) rgbImage nx ny = Ok v ->
  fne v fzero = false ->
  visit_neighbour predict rgbImage strength speed position st d =
  (if flt speed (float_of_int (-20))
   then Err (runtime_error
     "Too few known values. Try densifying your depth image first, or increasing the window size.")
   else Ok (mkBand (mat_set (depthImage st) ny nx v)
                   ((fsub speed (float_of_int 1), position) :: narrowBand st))) /\
  (flt speed (float_of_int (-20)) = true ->
   forall sigma D output n depth it rest l1 l2 fuel,
     cols rgbImage = cols D -> rows rgbImage = rows D ->
     channels D = 1 -> channels rgbImage = 3 ->
     strength = gradient_strength rgbImage (sobel (blur rgbImage sigma) 1 0)
                                  (sobel (blur rgbImage sigma) 0 1) ->
     state_after top_pop predict n rgbImage strength
                 (mkBand (convertTo_32F D) (initial_band (convertTo_32F D))) =
       Some (mkBand depth (it :: rest)) ->
     fst (top_pop it rest) = (speed, position) ->
     neighbours = l1 ++ d :: l2 ->
     fold_result (visit_neighbour predict rgbImage strength speed position)
                 l1 (mkBand depth (snd (top_pop it rest))) = Ok st ->
     (n < fuel)%nat ->
     InPaintBase top_pop predict blur sobel sigma D rgbImage output fuel =
     (Some (Err (runtime_error
        "Too few known values. Try densifying your depth image first, or increasing the window size.")),
      output)).
Proof.
  intros nx ny Hb Hz Hp Hv.
  assert (V : visit_neighbour predict rgbImage strength speed position st d =
              (if flt speed (float_of_int (-20))
               then Err (runtime_error too_few_known_values)
               else Ok (mkBand (mat_set (depthImage st) ny nx v)
                         ((fsub speed (float_of_int 1), position) :: narrowBand st)))).
  { unfold visit_neighbour. cbn [p_x p_y]. fold nx ny.
    rewrite Hb, Hz, Hp. cbn [negb bind]. rewrite Hv. reflexivity. }
  split; [exact V|].
  intros Hlt sigma D output n depth it rest l1 l2 fuel Hc Hr HcD HcC Hs Hn Ht Hl Hf Hfuel.
  rewrite Hlt in V.
  apply InPaintBase_propagate_error; try assumption.
  rewrite <- Hs.
  replace fuel with (n + S (fuel - S n))%nat by lia.
  rewrite (propagate_state_after top_pop predict rgbImage strength n _ _ _ Hn).
  pose proof (propagate_visit_error top_pop predict rgbImage strength depth it rest l1 d l2 st
                (runtime_error too_few_known_values) (fuel - S n) Hl) as P.
  destruct (top_pop it rest) as [[sp pos] rest']. cbn [fst snd] in *.
  injection Ht as -> ->. exact (P Hf V).
Qed.

Lemma C5_witness :
  visit_neighbour (PredictDepth gdfmm_flat) (uniform_image 1 2 gray)
    (gradient_strength (uniform_image 1 2 gray)
       (sobel_uniform (blur_uniform (uniform_image 1 2 gray) fone) 1 0)
       (sobel_uniform (blur_uniform (uniform_image 1 2 gray) fone) 0 1))
    (float_of_int (-21)) (mkPoint 0 0)
    (mkBand (convertTo_32F depth_1x2) []) (mkPoint 1 0) =
  Err (runtime_error too_few_known_values) /\
  InPaintBase heap_top_pop (PredictDepth gdfmm_flat) blur_uniform sobel_uniform fone
              depth_1x2 (uniform_image 1 2 gray) None 22%nat =
  (Some (Err (runtime_error too_few_known_values)), None).
Proof.
  assert (H := @C5_deferral_and_abort heap_top_pop (PredictDepth gdfmm_flat) blur_uniform
                 sobel_uniform (uniform_image 1 2 gray)
                 (gradient_strength (uniform_image 1 2 gray)
                    (sobel_uniform (blur_uniform (uniform_image 1 2 gray) fone) 1 0)
                    (sobel_uniform (blur_uniform (uniform_image 1 2 gray) fone) 0 1))
                 (float_of_int (-21)) (mkPoint 0 0)
                 (mkBand (convertTo_32F depth_1x2) []) (mkPoint 1 0) fzero
                 ltac:(vm_compute; reflexivity) ltac:(vm_compute; reflexivity)
                 ltac:(vm_compute; reflexivity) ltac:(vm_compute; reflexivity)).
  split.
  - exact (proj1 H).
  - apply (proj2 H ltac:(vm_compute; reflexivity) fone depth_1x2 None 21%nat
             (convertTo_32F depth_1x2) (float_of_int (-21), mkPoint 0 0) []
             [mkPoint 0 1] [mkPoint (-1) 0; mkPoint 0 (-1)] 22%nat);
      first [vm_compute; reflexivity | lia].
Defined.

(** ** Powers of two *)

Lemma bpow_gt_0 e : (0 < bpow e)%R.
Proof. apply powerRZ_lt; lra. Qed.

Lemma bpow_plus a b : bpow (a + b) = (bpow a * bpow b)%R.
Proof. apply powerRZ_add; lra. Qed.

Lemma bpow_0 : bpow 0 = 1%R.
Proof. reflexivity. Qed.

Lemma bpow_1 : bpow 1 = 2%R.
Proof. unfold bpow; simpl; lra. Qed.

Lemma bpow_m1 : bpow (-1) = (/ 2)%R.
Proof. unfold bpow; simpl. f_equal; lra. Qed.

Lemma bpow_opp e : (bpow (- e) * bpow e = 1)%R.
Proof. rewrite <- bpow_plus. replace (- e + e) with 0 by lia. apply bpow_0. Qed.

Lemma bpow_ge_1 n : 0 <= n -> (1 <= bpow n)%R.
Proof.
  intro H. pattern n. apply natlike_ind; auto.
  - rewrite bpow_0; lra.
  - intros k Hk IH. unfold Z.succ. rewrite bpow_plus, bpow_1. lra.
Qed.

Lemma bpow_le a b : a <= b -> (bpow a <= bpow b)%R.
Proof.
  intro H. replace b with (a + (b - a)) by lia. rewrite bpow_plus.
  pose proof (bpow_gt_0 a). pose proof (bpow_ge_1 (b - a) ltac:(lia)). nra.
Qed.

Lemma bpow_lt a b : a < b -> (bpow a < bpow b)%R.
Proof.
  intro H. replace b with (a + 1 + (b - a - 1)) by lia. rewrite !bpow_plus, bpow_1.
  pose proof (bpow_gt_0 a). pose proof (bpow_ge_1 (b - a - 1) ltac:(lia)). nra.
Qed.

Lemma bpow_lt_inv a b : (bpow a < bpow b)%R -> a < b.
Proof.
  intro H. destruct (Z_lt_le_dec a b) as [|Hle]; auto.
  apply bpow_le in Hle. lra.
Qed.

Lemma bpow_IZR n : 0 <= n -> bpow n = IZR (2 ^ n).
Proof.
  intro H. pattern n. apply natlike_ind; auto.
  intros k Hk IH. unfold Z.succ. rewrite bpow_plus, bpow_1, IH.
  rewrite Z.pow_add_r by lia. rewrite mult_IZR. simpl. reflexivity.
Qed.

(** The magnitude of a positive real is unique. *)
Lemma mag_unique x g g' :
  (bpow (g - 1) <= x < bpow g)%R -> (bpow (g' - 1) <= x < bpow g')%R -> g = g'.
Proof.
  intros [H1 H2] [H3 H4].
  assert (g - 1 < g') by (apply bpow_lt_inv; lra).
  assert (g' - 1 < g) by (apply bpow_lt_inv; lra).
  lia.
Qed.

Lemma IZR_xO p : IZR (Zpos p~0) = (2 * IZR (Zpos p))%R.
Proof. rewrite Pos2Z.inj_xO, mult_IZR. reflexivity. Qed.

Lemma IZR_xI p : IZR (Zpos p~1) = (2 * IZR (Zpos p) + 1)%R.
Proof. rewrite Pos2Z.inj_xI, plus_IZR, mult_IZR. reflexivity. Qed.

Lemma IZR_pos_ge_1 p : (1 <= IZR (Zpos p))%R.
Proof. apply IZR_le. lia. Qed.

(** ** Binary digits *)

Lemma digits2_pos_bounds (m : positive) :
  2 ^ (Zpos (digits2_pos m) - 1) <= Zpos m < 2 ^ Zpos (digits2_pos m).
Proof.
  induction m as [m IH|m IH|]; cbn [digits2_pos].
  - rewrite Pos2Z.inj_succ. replace (Z.succ (Zpos (digits2_pos m)) - 1)
      with (Z.succ (Zpos (digits2_pos m) - 1)) by lia.
    rewrite !Z.pow_succ_r by lia. lia.
  - rewrite Pos2Z.inj_succ. replace (Z.succ (Zpos (digits2_pos m)) - 1)
      with (Z.succ (Zpos (digits2_pos m) - 1)) by lia.
    rewrite !Z.pow_succ_r by lia. lia.
  - simpl. lia.
Qed.

Lemma digits2_pos_unique (m : positive) (d : Z) :
  2 ^ (d - 1) <= Zpos m < 2 ^ d -> 0 < d -> Zpos (digits2_pos m) = d.
Proof.
  intros [H1 H2] Hd. pose proof (digits2_pos_bounds m) as [H3 H4].
  assert (d - 1 < Zpos (digits2_pos m)).
  { apply (Z.pow_lt_mono_r_iff 2); lia. }
  assert (Zpos (digits2_pos m) - 1 < d).
  { apply (Z.pow_lt_mono_r_iff 2); lia. }
  lia.
Qed.

Lemma fexp_32 e : fexp prec emax e = fexp32 e.
Proof. reflexivity. Qed.

(** ** Shifting a mantissa right keeps track of the value *)

Lemma loc_of_record_of_loc m l : loc_of_shr_record (shr_record_of_loc m l) = l.
Proof. destruct l as [|[ | | ]]; reflexivity. Qed.

Lemma shr_m_record_of_loc m l : shr_m (shr_record_of_loc m l) = m.
Proof. destruct l as [|[ | | ]]; reflexivity. Qed.

Lemma shr_1_ok mrs y :
  0 <= shr_m mrs ->
  loc_ok (shr_m mrs) (loc_of_shr_record mrs) y ->
  0 <= shr_m (shr_1 mrs) /\
  loc_ok (shr_m (shr_1 mrs)) (loc_of_shr_record (shr_1 mrs)) (y * / 2).
Proof.
  destruct mrs as [m r s]. cbn [shr_m].
  intros Hm H.
  destruct m as [|p|p]; [| |lia].
  - destruct r, s; cbn in *; split; try lia; lra.
  - pose proof (IZR_pos_ge_1 p).
    destruct p as [p|p|]; destruct r, s; cbn [shr_1 orb shr_m loc_of_shr_record loc_ok] in *;
      try pose proof (IZR_xO p); try pose proof (IZR_xI p);
      (split; [lia|]); lra.
Qed.

Lemma iter_shr_1_ok (p : positive) : forall mrs y,
  0 <= shr_m mrs ->
  loc_ok (shr_m mrs) (loc_of_shr_record mrs) y ->
  0 <= shr_m (iter_pos shr_1 p mrs) /\
  loc_ok (shr_m (iter_pos shr_1 p mrs)) (loc_of_shr_record (iter_pos shr_1 p mrs))
         (y * bpow (- Zpos p)).
Proof.
  induction p as [p IH|p IH|]; intros mrs y Hm H; cbn [iter_pos].
  - destruct (shr_1_ok mrs y Hm H) as [Hm1 H1].
    destruct (IH _ _ Hm1 H1) as [Hm2 H2].
    destruct (IH _ _ Hm2 H2) as [Hm3 H3].
    split; auto.
    replace (y * bpow (- Zpos p~1))%R with (y * / 2 * bpow (- Zpos p) * bpow (- Zpos p))%R; auto.
    replace (- Zpos p~1) with (-1 + (- Zpos p + - Zpos p)) by lia.
    rewrite !bpow_plus, bpow_m1. ring.
  - destruct (IH _ _ Hm H) as [Hm2 H2].
    destruct (IH _ _ Hm2 H2) as [Hm3 H3].
    split; auto.
    replace (y * bpow (- Zpos p~0))%R with (y * bpow (- Zpos p) * bpow (- Zpos p))%R; auto.
    replace (- Zpos p~0) with (- Zpos p + - Zpos p) by lia.
    rewrite !bpow_plus. ring.
  - change (- Zpos 1) with (-1). rewrite bpow_m1. apply shr_1_ok; auto.
Qed.

(** [shr_fexp] brings [(m, e, l)] to the exponent [fexp (digits m + e)]
    when that is above [e], and leaves it alone otherwise. *)
Lemma shr_fexp_ok m e l x :
  0 <= m ->
  loc_ok m l (x * bpow (- e)) ->
  let e' := Z.max e (fexp32 (Zdigits2 m + e)) in
  let r := shr_fexp prec emax m e l in
  snd r = e' /\ 0 <= shr_m (fst r) /\
  loc_ok (shr_m (fst r)) (loc_of_shr_record (fst r)) (x * bpow (- e')).
Proof.
  intros Hm H e' r. subst r. unfold shr_fexp. rewrite fexp_32.
  unfold shr. subst e'.
  destruct (fexp32 (Zdigits2 m + e) - e) as [|n|n] eqn:En; cbn [fst snd].
  - rewrite Z.max_l by lia. rewrite shr_m_record_of_loc, loc_of_record_of_loc. auto.
  - rewrite Z.max_r by lia. split; [lia|].
    replace (x * bpow (- fexp32 (Zdigits2 m + e)))%R
      with (x * bpow (- e) * bpow (- Zpos n))%R.
    + apply iter_shr_1_ok; rewrite ?shr_m_record_of_loc, ?loc_of_record_of_loc; auto.
    + replace (- fexp32 (Zdigits2 m + e)) with (- e + - Zpos n) by lia.
      rewrite bpow_plus. ring.
  - rewrite Z.max_l by lia. rewrite shr_m_record_of_loc, loc_of_record_of_loc. auto.
Qed.

Lemma round_nearest_even_ok m l y :
  loc_ok m l y -> is_rne y (round_nearest_even m l) /\
                  m <= round_nearest_even m l <= m + 1.
Proof.
  unfold is_rne. destruct l as [|[ | | ]]; cbn [loc_ok round_nearest_even]; intro H.
  - split; [left; lra | lia].
  - destruct (Z.even m) eqn:E.
    + split; [right; split; auto; left; lra | lia].
    + split; [|lia]. right. split.
      * right. rewrite plus_IZR. lra.
      * rewrite Z.even_add, E. reflexivity.
  - split; [left; lra | lia].
  - split; [left; rewrite plus_IZR; lra | lia].
Qed.

(** ** Correctness of [binary_round_aux] on positive values *)

Lemma loc_ok_bounds m l y : loc_ok m l y -> (IZR m <= y < IZR m + 1)%R.
Proof. destruct l as [|[ | | ]]; cbn [loc_ok]; lra. Qed.

Lemma loc_ok_int m l k : loc_ok m l (IZR k) -> m = k.
Proof.
  intro H. apply loc_ok_bounds in H. destruct H as [H1 H2].
  apply le_IZR in H1. rewrite <- plus_IZR in H2. apply lt_IZR in H2. lia.
Qed.

Lemma digits_le_24 p : Zpos p < 2 ^ 24 -> Zpos (digits2_pos p) <= 24.
Proof.
  intro H. pose proof (digits2_pos_bounds p) as [H1 _].
  assert (Zpos (digits2_pos p) - 1 < 24); [|lia].
  apply (Z.pow_lt_mono_r_iff 2); lia.
Qed.

Lemma digits_eq_24 p : 2 ^ 23 <= Zpos p < 2 ^ 24 -> Zpos (digits2_pos p) = 24.
Proof. intro H. apply digits2_pos_unique; [exact H | lia]. Qed.

Lemma scaled_bounds x g e :
  (bpow (g - 1) <= x < bpow g)%R ->
  (bpow (g - 1 - e) <= x * bpow (- e) < bpow (g - e))%R.
Proof.
  intros [H1 H2]. pose proof (bpow_gt_0 (- e)).
  replace (g - 1 - e) with (g - 1 + - e) by lia.
  replace (g - e) with (g + - e) by lia.
  rewrite !bpow_plus. split; nra.
Qed.

Lemma unscale x e : (x * bpow (- e) * bpow e = x)%R.
Proof. rewrite Rmult_assoc, bpow_opp. ring. Qed.

Lemma unscale_r x e : (x * bpow e * bpow (- e) = x)%R.
Proof. rewrite Rmult_assoc, (Rmult_comm (bpow e)), bpow_opp. ring. Qed.

(** The exponent the first shift arrives at is the canonical one. *)
Lemma first_exponent mx ex lx x g :
  0 <= mx ->
  (bpow (g - 1) <= x < bpow g)%R ->
  loc_ok mx lx (x * bpow (- ex)) ->
  ex <= fexp32 g ->
  Z.max ex (fexp32 (Zdigits2 mx + ex)) = fexp32 g.
Proof.
  intros Hmx Hg Hloc Hex.
  apply loc_ok_bounds in Hloc.
  pose proof (scaled_bounds x g ex Hg) as Hy.
  destruct mx as [|p|p]; [| |lia].
  - cbn [Zdigits2]. cbn [IZR] in Hloc.
    assert (g - 1 - ex < 0) by (apply bpow_lt_inv; rewrite bpow_0; lra).
    unfold fexp32 in *. lia.
  - cbn [Zdigits2].
    pose proof (digits2_pos_bounds p) as [D1 D2].
    set (d := Zpos (digits2_pos p)) in *.
    assert (Hd : 0 < d) by (subst d; lia).
    apply IZR_le in D1. apply Z.lt_le_incl in D2 as D3.
    assert (D4 : Zpos p + 1 <= 2 ^ d) by lia. apply IZR_le in D4.
    rewrite plus_IZR in D4.
    rewrite <- !bpow_IZR in * by lia.
    assert (g - 1 - ex < d) by (apply bpow_lt_inv; lra).
    assert (d - 1 < g - ex) by (apply bpow_lt_inv; lra).
    replace (d + ex) with g by lia. lia.
Qed.

Lemma binary_round_aux_correct mx ex lx x g :
  0 <= mx ->
  (bpow (g - 1) <= x < bpow g)%R ->
  loc_ok mx lx (x * bpow (- ex)) ->
  ex <= fexp32 g ->
  exists r, rounds_to x r /\ round_result (binary_round_aux prec emax false mx ex lx) r.
Proof.
  intros Hmx Hg Hloc Hex.
  pose proof (first_exponent mx ex lx x g Hmx Hg Hloc Hex) as E1.
  pose proof (shr_fexp_ok mx ex lx x Hmx Hloc) as S1. cbv zeta in S1. rewrite E1 in S1.
  unfold binary_round_aux.
  destruct (shr_fexp prec emax mx ex lx) as [mrs1 e1]. cbn [fst snd] in S1.
  destruct S1 as (-> & Hm1 & Hloc1).
  set (E := fexp32 g) in *.
  set (y1 := (x * bpow (- E))%R) in *.
  destruct (round_nearest_even_ok _ _ _ Hloc1) as [Hrne Hk].
  set (k := round_nearest_even (shr_m mrs1) (loc_of_shr_record mrs1)) in *.
  apply loc_ok_bounds in Hloc1.
  pose proof (scaled_bounds x g E Hg) as Hy1. fold y1 in Hy1.
  assert (HE : -149 <= E /\ g - 24 <= E) by (subst E; unfold fexp32; lia).
  (* the mantissa has at most 24 digits *)
  assert (Hm24 : shr_m mrs1 < 2 ^ 24).
  { apply lt_IZR. rewrite <- bpow_IZR by lia.
    pose proof (bpow_le (g - E) 24 ltac:(lia)). lra. }
  (* and exactly 24 when the number is normal *)
  assert (Hm23 : E = g - 24 -> 2 ^ 23 <= shr_m mrs1).
  { intro HE'. assert (2 ^ 23 < shr_m mrs1 + 1); [|lia].
    apply lt_IZR. rewrite plus_IZR, <- bpow_IZR by lia.
    replace (g - 1 - E) with 23 in Hy1 by lia. lra. }
  exists (IZR k * bpow E)%R. split.
  { exists g, k. auto. }
  assert (Hk0 : 0 <= k) by lia.
  assert (Hloc2 : loc_ok k loc_Exact (IZR k * bpow E * bpow (- E))).
  { cbn [loc_ok]. rewrite Rmult_assoc. replace (bpow E * bpow (- E))%R with 1%R; [ring|].
    rewrite Rmult_comm, bpow_opp. reflexivity. }
  pose proof (shr_fexp_ok _ _ _ _ Hk0 Hloc2) as S2. cbv zeta in S2.
  destruct (shr_fexp prec emax k E loc_Exact) as [mrs2 e2]. cbn [fst snd] in S2.
  destruct S2 as (He2 & Hm2 & Hloc2').
  destruct (Z.eq_dec k (2 ^ 24)) as [Hk24|Hk24].
  - (* the rounding carried into a 25th digit *)
    assert (He2' : e2 = E + 1).
    { rewrite He2, Hk24. change (Zdigits2 (2 ^ 24)) with 25. unfold fexp32. lia. }
    assert (Hm2' : shr_m mrs2 = 2 ^ 23).
    { apply loc_ok_int with (l := loc_of_shr_record mrs2).
      rewrite <- He2, He2' in Hloc2'. rewrite Hk24 in Hloc2'.
      replace (IZR (2 ^ 24) * bpow E * bpow (- (E + 1)))%R with (IZR (2 ^ 23)) in Hloc2';
        [exact Hloc2'|].
      replace (- (E + 1)) with (- E + -1) by lia. rewrite bpow_plus, bpow_m1.
      rewrite Rmult_assoc, <- (Rmult_assoc (bpow E)).
      replace (bpow E * bpow (- E))%R with 1%R by (rewrite Rmult_comm, bpow_opp; reflexivity).
      change (2 ^ 24) with (2 * 2 ^ 23). rewrite mult_IZR. lra. }
    rewrite Hm2'. change (2 ^ 23) with (Zpos 8388608).
    assert (Hval : (IZR k * bpow E = IZR (Zpos 8388608) * bpow e2)%R).
    { rewrite Hk24, He2'. rewrite bpow_plus, bpow_1.
      change (2 ^ 24) with (2 * 8388608). rewrite mult_IZR. ring. }
    destruct (e2 <=? emax - prec) eqn:Ee.
    + cbn [round_result]. split.
      * unfold valid, valid_binary, bounded, canonical_mantissa. rewrite Ee, fexp_32.
        change (Zpos (digits2_pos 8388608)) with 24.
        rewrite andb_true_r. apply Z.eqb_eq. unfold fexp32. lia.
      * cbn [F2R]. symmetry. exact Hval.
    + cbn [round_result]. apply Z.leb_gt in Ee. change (emax - prec) with 104 in Ee.
      rewrite Hval. change 128 with (23 + 105).
      rewrite bpow_plus, (bpow_IZR 23) by lia. change (2 ^ 23) with 8388608.
      pose proof (bpow_le 105 e2 ltac:(lia)). pose proof (bpow_gt_0 105). nra.
  - (* no carry: the exponent stays *)
    assert (Hk24' : k < 2 ^ 24) by lia.
    assert (He2' : e2 = E).
    { rewrite He2. destruct k as [|p|p]; [| |lia].
      - cbn [Zdigits2]. unfold fexp32. lia.
      - cbn [Zdigits2]. pose proof (digits_le_24 _ Hk24'). unfold fexp32. lia. }
    assert (Hm2' : shr_m mrs2 = k).
    { apply loc_ok_int with (l := loc_of_shr_record mrs2).
      rewrite <- He2, He2' in Hloc2'.
      replace (IZR k * bpow E * bpow (- E))%R with (IZR k) in Hloc2'
        by (symmetry; exact Hloc2).
      exact Hloc2'. }
    rewrite Hm2', He2'.
    destruct k as [|p|p]; [| |lia].
    + cbn [round_result]. cbn [IZR]. ring.
    + destruct (E <=? emax - prec) eqn:Ee.
      * cbn [round_result]. split; [|reflexivity].
        unfold valid, valid_binary, bounded, canonical_mantissa. rewrite Ee, fexp_32.
        rewrite andb_true_r. apply Z.eqb_eq.
        pose proof (digits_le_24 _ Hk24').
        destruct (Z.eq_dec E (g - 24)) as [HEg|HEg].
        -- rewrite (digits_eq_24 p) by (specialize (Hm23 HEg); lia).
           unfold fexp32. lia.
        -- assert (E = -149) by (subst E; unfold fexp32 in *; lia).
           unfold fexp32. lia.
      * cbn [round_result]. apply Z.leb_gt in Ee. change (emax - prec) with 104 in Ee.
        assert (HEg : E = g - 24) by (subst E; unfold fexp32 in *; lia).
        specialize (Hm23 HEg).
        assert (Hp : (IZR (2 ^ 23) <= IZR (Zpos p))%R) by (apply IZR_le; lia).
        change 128 with (23 + 105).
        rewrite bpow_plus, (bpow_IZR 23) by lia.
        pose proof (bpow_le 105 E ltac:(lia)). pose proof (bpow_gt_0 105).
        assert (0 < IZR (2 ^ 23))%R by (apply IZR_lt; lia). nra.
Qed.

(** ** Rounding to nearest even is monotone and fixes the format *)

Lemma is_rne_IZR n : is_rne (IZR n) n.
Proof. left. lra. Qed.

Lemma is_rne_mono y y' k k' :
  (y <= y')%R -> is_rne y k -> is_rne y' k' -> k <= k'.
Proof.
  intros Hy H H'.
  destruct (Z_le_gt_dec k k') as [|Hgt]; auto. exfalso.
  assert (Hk : (IZR k' + 1 <= IZR k)%R).
  { rewrite <- plus_IZR. apply IZR_le. lia. }
  destruct H as [H|[[H|H] Ev]]; destruct H' as [H'|[[H'|H'] Ev']]; try lra.
  assert (Hs : k = k' + 1).
  { apply eq_IZR. rewrite plus_IZR. lra. }
  rewrite Hs, Z.even_add, Ev' in Ev. discriminate.
Qed.

Lemma is_rne_ge_int y k n : (IZR n <= y)%R -> is_rne y k -> n <= k.
Proof. intros H Hk. exact (is_rne_mono _ _ _ _ H (is_rne_IZR n) Hk). Qed.

Lemma is_rne_le_int y k n : (y <= IZR n)%R -> is_rne y k -> k <= n.
Proof. intros H Hk. exact (is_rne_mono _ _ _ _ H Hk (is_rne_IZR n)). Qed.

Lemma rounds_to_nonneg x r : rounds_to x r -> (0 <= r)%R.
Proof.
  intros (g & k & Hg & Hk & ->).
  pose proof (bpow_gt_0 (g - 1)). pose proof (bpow_gt_0 (fexp32 g)).
  pose proof (bpow_gt_0 (- fexp32 g)).
  assert (0 <= k).
  { apply (is_rne_ge_int (x * bpow (- fexp32 g)) k 0); auto. simpl. nra. }
  apply IZR_le in H2. simpl in H2. nra.
Qed.

Lemma fexp32_mono g g' : g <= g' -> fexp32 g <= fexp32 g'.
Proof. unfold fexp32. lia. Qed.

Lemma rounds_to_mono x x' r r' :
  (x <= x')%R -> rounds_to x r -> rounds_to x' r' -> (r <= r')%R.
Proof.
  intros Hx (g & k & Hg & Hk & ->) (g' & k' & Hg' & Hk' & ->).
  assert (Hgg : g <= g').
  { assert (g - 1 < g') by (apply bpow_lt_inv; lra). lia. }
  pose proof (fexp32_mono _ _ Hgg) as HE.
  set (E := fexp32 g) in *. set (E' := fexp32 g') in *.
  pose proof (bpow_gt_0 E). pose proof (bpow_gt_0 E').
  pose proof (bpow_gt_0 (- E)). pose proof (bpow_gt_0 (- E')).
  destruct (Z.eq_dec E E') as [HEE|HEE].
  - rewrite <- HEE in *.
    assert (k <= k').
    { apply (is_rne_mono (x * bpow (- E)) (x' * bpow (- E))); auto. nra. }
    apply IZR_le in H3. nra.
  - assert (HE' : E' = g' - 24 /\ -149 <= E /\ g - 24 <= E /\ E < E')
      by (subst E E'; unfold fexp32 in *; lia).
    (* both sides compared with 2^(g'-1) *)
    assert (Hlow : (bpow (g' - 1) <= IZR k' * bpow E')%R).
    { assert (2 ^ 23 <= k').
      { apply (is_rne_ge_int (x' * bpow (- E'))); auto.
        rewrite <- bpow_IZR by lia.
        pose proof (scaled_bounds x' g' E' Hg') as [S1 _].
        replace (g' - 1 - E') with 23 in S1 by lia. exact S1. }
      apply IZR_le in H3. rewrite <- bpow_IZR in H3 by lia.
      replace (g' - 1) with (23 + E') by lia. rewrite bpow_plus. nra. }
    assert (Hhigh : (IZR k * bpow E <= bpow (g' - 1))%R).
    { assert (k <= 2 ^ (g' - 1 - E)).
      { apply (is_rne_le_int (x * bpow (- E))); auto.
        rewrite <- bpow_IZR by lia.
        pose proof (scaled_bounds x g E Hg) as [_ S2].
        pose proof (bpow_le (g - E) (g' - 1 - E) ltac:(lia)). lra. }
      apply IZR_le in H3. rewrite <- bpow_IZR in H3 by lia.
      replace (g' - 1) with (g' - 1 - E + E) at 1 by lia. rewrite bpow_plus. nra. }
    lra.
Qed.

Lemma rounds_to_unique x r r' : rounds_to x r -> rounds_to x r' -> r = r'.
Proof.
  intros H H'.
  pose proof (rounds_to_mono x x r r' ltac:(lra) H H').
  pose proof (rounds_to_mono x x r' r ltac:(lra) H' H). lra.
Qed.

(** A number of the format rounds to itself. *)
Lemma rounds_to_exact x g k :
  (bpow (g - 1) <= x < bpow g)%R -> x = (IZR k * bpow (fexp32 g))%R -> rounds_to x x.
Proof.
  intros Hg Hx. exists g, k. split; [exact Hg|]. split; [|exact Hx].
  rewrite Hx at 1. rewrite unscale_r. apply is_rne_IZR.
Qed.

Lemma rounds_to_bpow n : -149 <= n -> rounds_to (bpow n) (bpow n).
Proof.
  intro H. apply (rounds_to_exact (bpow n) (n + 1) (2 ^ (n - fexp32 (n + 1)))).
  - replace (n + 1 - 1) with n by lia. split; [lra|]. apply bpow_lt; lia.
  - rewrite <- bpow_IZR by (unfold fexp32; lia). rewrite <- bpow_plus.
    f_equal. lia.
Qed.

Lemma rounds_to_ge x r b : rounds_to x r -> rounds_to b b -> (b <= x)%R -> (b <= r)%R.
Proof. intros H Hb Hx. exact (rounds_to_mono b x b r Hx Hb H). Qed.

Lemma rounds_to_le x r b : rounds_to x r -> rounds_to b b -> (x <= b)%R -> (r <= b)%R.
Proof. intros H Hb Hx. exact (rounds_to_mono x b r b Hx H Hb). Qed.

(** Away from the subnormal range, rounding commutes with scaling by a
    power of two. *)
Lemma rounds_to_scale x r n :
  rounds_to x r -> (bpow (-126) <= x)%R -> (bpow (-126) <= x * bpow n)%R ->
  rounds_to (x * bpow n) (r * bpow n).
Proof.
  intros (g & k & Hg & Hk & ->) Hx Hxn.
  pose proof (bpow_gt_0 n).
  assert (G1 : -126 < g) by (apply bpow_lt_inv; lra).
  assert (Hgn : (bpow (g + n - 1) <= x * bpow n < bpow (g + n))%R).
  { replace (g + n - 1) with (g - 1 + n) by lia. rewrite !bpow_plus. split; nra. }
  assert (G2 : -126 < g + n) by (apply bpow_lt_inv; lra).
  assert (E1 : fexp32 g = g - 24) by (unfold fexp32; lia).
  assert (E2 : fexp32 (g + n) = g + n - 24) by (unfold fexp32; lia).
  exists (g + n), k. split; [exact Hgn|]. split.
  - rewrite E2. rewrite E1 in Hk.
    replace (x * bpow n * bpow (- (g + n - 24)))%R with (x * bpow (- (g - 24)))%R; auto.
    replace (- (g + n - 24)) with (- n + - (g - 24)) by lia.
    rewrite bpow_plus. rewrite Rmult_assoc, <- (Rmult_assoc (bpow n)).
    replace (bpow n * bpow (- n))%R with 1%R by (rewrite Rmult_comm, bpow_opp; reflexivity).
    ring.
  - rewrite E1, E2. replace (g + n - 24) with (g - 24 + n) by lia.
    rewrite bpow_plus. ring.
Qed.

(** ** Valid floats, their values and their order *)

Lemma valid_finite_inv s m e :
  valid (S754_finite s m e) = true ->
  fexp32 (Zpos (digits2_pos m) + e) = e /\ e <= 104.
Proof.
  unfold valid, valid_binary, bounded, canonical_mantissa. rewrite fexp_32.
  intro H. apply andb_prop in H. destruct H as [H1 H2].
  apply Z.eqb_eq in H1. apply Z.leb_le in H2. change (emax - prec) with 104 in H2. auto.
Qed.

Lemma finite_mag m e :
  (bpow (Zpos (digits2_pos m) + e - 1) <= IZR (Zpos m) * bpow e
   < bpow (Zpos (digits2_pos m) + e))%R.
Proof.
  pose proof (digits2_pos_bounds m) as [D1 D2].
  set (d := Zpos (digits2_pos m)) in *.
  assert (Hd : 0 < d) by (subst d; lia).
  apply IZR_le in D1. apply IZR_lt in D2. rewrite <- !bpow_IZR in * by lia.
  pose proof (bpow_gt_0 e).
  replace (d + e - 1) with (d - 1 + e) by lia. rewrite !bpow_plus. split; nra.
Qed.

Lemma valid_finite_bounds s m e :
  valid (S754_finite s m e) = true ->
  (bpow (-149) <= IZR (Zpos m) * bpow e < bpow 128)%R.
Proof.
  intro H. apply valid_finite_inv in H. destruct H as [H1 H2].
  pose proof (finite_mag m e) as [M1 M2].
  pose proof (digits2_pos_bounds m) as [D1 D2].
  assert (Hd : 0 < Zpos (digits2_pos m)) by lia.
  assert (Zpos (digits2_pos m) <= 24) by (unfold fexp32 in H1; lia).
  assert (-149 <= e) by (unfold fexp32 in H1; lia).
  pose proof (bpow_le (-149) (Zpos (digits2_pos m) + e - 1) ltac:(lia)).
  pose proof (bpow_le (Zpos (digits2_pos m) + e) 128 ltac:(lia)).
  lra.
Qed.

Lemma rounds_to_finite s m e :
  valid (S754_finite s m e) = true ->
  rounds_to (IZR (Zpos m) * bpow e) (IZR (Zpos m) * bpow e).
Proof.
  intro H. apply valid_finite_inv in H. destruct H as [H1 H2].
  apply (rounds_to_exact _ (Zpos (digits2_pos m) + e) (Zpos m)).
  - apply finite_mag.
  - rewrite H1. reflexivity.
Qed.

Lemma val_nonneg f : (0 <= val f)%R.
Proof.
  destruct f as [s|s| |s m e]; cbn [val]; try lra.
  - destruct s; [lra|]. pose proof (bpow_gt_0 128). lra.
  - destruct s; [lra|]. pose proof (bpow_gt_0 e). pose proof (IZR_pos_ge_1 m). nra.
Qed.

Lemma val_le_top f : nonneg f -> (val f <= bpow 128)%R.
Proof.
  intros [Hv Hs]. destruct f as [s|s| |s m e]; cbn [val]; try destruct s; try tauto;
    try (pose proof (bpow_gt_0 128); lra).
  apply valid_finite_bounds in Hv. lra.
Qed.

Lemma rounds_to_val f : nonneg f -> (0 < val f)%R -> rounds_to (val f) (val f).
Proof.
  intros [Hv Hs] Hp. destruct f as [s|s| |s m e]; cbn [val] in *; try destruct s; try tauto;
    try lra.
  - apply rounds_to_bpow. lia.
  - apply (rounds_to_finite false). exact Hv.
Qed.

(** A valid finite float is determined by its value. *)
Lemma finite_value_inj m1 e1 m2 e2 :
  valid (S754_finite false m1 e1) = true ->
  valid (S754_finite false m2 e2) = true ->
  (IZR (Zpos m1) * bpow e1 = IZR (Zpos m2) * bpow e2)%R ->
  m1 = m2 /\ e1 = e2.
Proof.
  intros V1 V2 H.
  apply valid_finite_inv in V1, V2. destruct V1 as [V1 _], V2 as [V2 _].
  pose proof (finite_mag m1 e1) as M1. pose proof (finite_mag m2 e2) as M2.
  rewrite H in M1.
  pose proof (mag_unique _ _ _ M1 M2) as Hg.
  assert (He : e1 = e2) by (rewrite <- V1, <- V2, Hg; reflexivity).
  split; auto. subst e2.
  pose proof (bpow_gt_0 e1).
  assert (IZR (Zpos m1) = IZR (Zpos m2)) by nra.
  apply eq_IZR in H1. congruence.
Qed.

Lemma nonneg_val_inj a b :
  nonneg a -> nonneg b -> val a = val b -> a = b.
Proof.
  intros [Va Sa] [Vb Sb] H.
  destruct a as [[]|[]| |[] m1 e1]; try tauto;
    destruct b as [[]|[]| |[] m2 e2]; try tauto; cbn [val] in H; auto;
    try (pose proof (valid_finite_bounds _ _ _ Va));
    try (pose proof (valid_finite_bounds _ _ _ Vb));
    pose proof (bpow_gt_0 128); pose proof (bpow_gt_0 (-149)); try lra.
  destruct (finite_value_inj _ _ _ _ Va Vb H). subst. reflexivity.
Qed.

Lemma finite_lt_exponent m1 e1 m2 e2 :
  valid (S754_finite false m1 e1) = true ->
  valid (S754_finite false m2 e2) = true ->
  e1 < e2 ->
  (IZR (Zpos m1) * bpow e1 < IZR (Zpos m2) * bpow e2)%R.
Proof.
  intros V1 V2 He.
  apply valid_finite_inv in V1, V2. destruct V1 as [V1 _], V2 as [V2 _].
  pose proof (finite_mag m1 e1) as [_ M1]. pose proof (finite_mag m2 e2) as [M2 _].
  assert (Zpos (digits2_pos m1) + e1 <= Zpos (digits2_pos m2) + e2 - 1)
    by (unfold fexp32 in *; lia).
  apply bpow_le in H. lra.
Qed.

Lemma SFcompare_finite m1 e1 m2 e2 :
  valid (S754_finite false m1 e1) = true ->
  valid (S754_finite false m2 e2) = true ->
  match SFcompare (S754_finite false m1 e1) (S754_finite false m2 e2) with
  | Some Lt => (IZR (Zpos m1) * bpow e1 < IZR (Zpos m2) * bpow e2)%R
  | Some Eq => (IZR (Zpos m1) * bpow e1 = IZR (Zpos m2) * bpow e2)%R
  | Some Gt => (IZR (Zpos m2) * bpow e2 < IZR (Zpos m1) * bpow e1)%R
  | None => False
  end.
Proof.
  intros V1 V2. cbn [SFcompare].
  destruct (Z.compare_spec e1 e2) as [He|He|He].
  - subst e2. rewrite Pos.compare_cont_spec. cbn [Pos.switch_Eq].
    pose proof (bpow_gt_0 e1).
    destruct (Pos.compare_spec m1 m2) as [Hm|Hm|Hm]; cbn [Pos.switch_Eq].
    + subst; reflexivity.
    + assert (IZR (Zpos m1) < IZR (Zpos m2))%R by (apply IZR_lt; lia). nra.
    + assert (IZR (Zpos m2) < IZR (Zpos m1))%R by (apply IZR_lt; lia). nra.
  - apply finite_lt_exponent; auto.
  - apply finite_lt_exponent; auto.
Qed.

Lemma SFcompare_nonneg a b :
  nonneg a -> nonneg b ->
  match SFcompare a b with
  | Some Lt => (val a < val b)%R
  | Some Eq => val a = val b
  | Some Gt => (val b < val a)%R
  | None => False
  end.
Proof.
  intros [Va Sa] [Vb Sb].
  destruct a as [[]|[]| |[] m1 e1]; try tauto;
    destruct b as [[]|[]| |[] m2 e2]; try tauto; cbn [val SFcompare]; auto;
    try (pose proof (bpow_gt_0 128); lra);
    try (pose proof (valid_finite_bounds _ _ _ Va));
    try (pose proof (valid_finite_bounds _ _ _ Vb));
    try (pose proof (bpow_gt_0 (-149)); lra); try lra.
  apply SFcompare_finite; auto.
Qed.

Lemma fle_nonneg a b : nonneg a -> nonneg b -> (fle a b = true <-> (val a <= val b)%R).
Proof.
  intros Ha Hb. pose proof (SFcompare_nonneg a b Ha Hb) as H.
  unfold fle, SFleb. destruct (SFcompare a b) as [[]|]; try tauto;
    split; intro; try lra; try discriminate; auto.
Qed.

Lemma flt_nonneg a b : nonneg a -> nonneg b -> (flt a b = true <-> (val a < val b)%R).
Proof.
  intros Ha Hb. pose proof (SFcompare_nonneg a b Ha Hb) as H.
  unfold flt, SFltb. destruct (SFcompare a b) as [[]|]; try tauto;
    split; intro; try lra; try discriminate; auto.
Qed.

Lemma flt_nonneg_false a b : nonneg a -> nonneg b -> (flt a b = false <-> (val b <= val a)%R).
Proof.
  intros Ha Hb. pose proof (flt_nonneg a b Ha Hb) as H.
  destruct (flt a b); split; intro; auto; try discriminate.
  - assert (val a < val b)%R by (apply H; auto). lra.
  - destruct (Rlt_le_dec (val a) (val b)) as [Hlt|Hle]; [|lra].
    apply H in Hlt. discriminate.
Qed.

(** ** What rounded results satisfy *)

Lemma round_result_rounded f x r :
  (0 < x)%R -> rounds_to x r -> round_result f r -> rounded f x.
Proof.
  intros Hx Hr Hf. pose proof (rounds_to_nonneg _ _ Hr) as Hr0.
  assert (N : nonneg f /\ val f = Rmin r (bpow 128)).
  { destruct f as [[]|[]| |[] m e]; cbn [round_result] in Hf; try tauto.
    - split; [split; [reflexivity|exact I]|]. cbn [val]. subst r.
      rewrite Rmin_left; auto. pose proof (bpow_gt_0 128). lra.
    - split; [split; [reflexivity|exact I]|]. cbn [val]. rewrite Rmin_right; auto.
    - destruct Hf as [Hv Hval]. split; [split; [exact Hv|exact I]|].
      cbn [val]. cbn [F2R] in Hval. rewrite <- Hval.
      rewrite Rmin_left; auto. pose proof (valid_finite_bounds _ _ _ Hv). lra. }
  destruct N as [N1 N2]. split; auto. right. split; auto. exists r. auto.
Qed.

Lemma rounded_nonneg f x : rounded f x -> nonneg f.
Proof. intros [H _]; exact H. Qed.

Lemma rounded_mono f x f' x' :
  rounded f x -> rounded f' x' -> (x <= x')%R -> (val f <= val f')%R.
Proof.
  intros [N [[Hx ->]|[Hx (r & Hr & Hv)]]] [N' [[Hx' ->]|[Hx' (r' & Hr' & Hv')]]] Hle.
  - lra.
  - cbn [val fzero]. apply val_nonneg.
  - lra.
  - rewrite Hv, Hv'. pose proof (rounds_to_mono _ _ _ _ Hle Hr Hr').
    apply Rle_min_compat_r. exact H.
Qed.

Lemma rounded_lower f x c :
  rounded f x -> nonneg c -> (val c <= x)%R -> (val c <= val f)%R.
Proof.
  intros [N [[Hx ->]|[Hx (r & Hr & Hv)]]] Hc Hle.
  - subst x. exact Hle.
  - destruct (Req_dec (val c) 0) as [Hz|Hnz].
    + rewrite Hz. apply val_nonneg.
    + pose proof (val_nonneg c).
      assert (Hc' : rounds_to (val c) (val c)) by (apply rounds_to_val; auto; lra).
      pose proof (rounds_to_ge _ _ _ Hr Hc' Hle).
      rewrite Hv. apply Rmin_glb; auto. apply val_le_top; auto.
Qed.

Lemma rounded_upper f x c :
  rounded f x -> nonneg c -> (x <= val c)%R -> (val f <= val c)%R.
Proof.
  intros [N [[Hx ->]|[Hx (r & Hr & Hv)]]] Hc Hle.
  - cbn [val fzero]. apply val_nonneg.
  - assert (Hc' : rounds_to (val c) (val c)) by (apply rounds_to_val; auto; lra).
    pose proof (rounds_to_le _ _ _ Hr Hc' Hle).
    rewrite Hv. pose proof (Rmin_l r (bpow 128)). lra.
Qed.

Lemma rounded_exact f x c : rounded f x -> nonneg c -> x = val c -> f = c.
Proof.
  intros Hf Hc Hx. apply nonneg_val_inj; auto.
  - apply (rounded_nonneg _ _ Hf).
  - apply Rle_antisym.
    + apply (rounded_upper f x c); auto; lra.
    + apply (rounded_lower f x c); auto; lra.
Qed.

Lemma rounded_pos f x : rounded f x -> (bpow (-149) <= x)%R -> (0 < val f)%R.
Proof.
  intros Hf Hx.
  assert (Hc : nonneg (S754_finite false 1 (-149))) by (split; [reflexivity|exact I]).
  pose proof (rounded_lower f x _ Hf Hc) as H. cbn [val] in H.
  pose proof (bpow_gt_0 (-149)). lra.
Qed.

Lemma rounded_finite f x c :
  rounded f x -> finite_nonneg c -> (x <= val c)%R -> finite_nonneg f.
Proof.
  intros Hf [Hc Hfin] Hx. split; [apply (rounded_nonneg _ _ Hf)|].
  pose proof (rounded_upper f x c Hf Hc Hx) as H.
  destruct Hf as [[Vf Sf] _].
  destruct f as [[]|[]| |[] m e]; try tauto; auto.
  destruct Hc as [Vc Sc].
  destruct c as [[]|[]| |[] m e]; try tauto; try discriminate; cbn [val] in H.
  - pose proof (bpow_gt_0 128). lra.
  - pose proof (valid_finite_bounds _ _ _ Vc). lra.
Qed.

(** ** Multiplication and addition of non-negative finite floats *)

Lemma nonneg_fzero : nonneg fzero.
Proof. split; [reflexivity|exact I]. Qed.

Lemma rounded_fzero : rounded fzero 0.
Proof. split; [apply nonneg_fzero|]. left; auto. Qed.

Lemma rounded_self f : nonneg f -> rounded f (val f).
Proof.
  intro N. split; auto.
  destruct (Req_dec (val f) 0) as [Hz|Hnz].
  - left. split; auto. apply nonneg_val_inj; auto. apply nonneg_fzero.
  - right. pose proof (val_nonneg f). split; [lra|].
    exists (val f). split; [apply rounds_to_val; auto; lra|].
    rewrite Rmin_left; auto. apply val_le_top; auto.
Qed.

Lemma finite_nonneg_cases f :
  finite_nonneg f ->
  f = fzero \/ exists m e, f = S754_finite false m e /\ valid f = true.
Proof.
  intros [[V S] F]. destruct f as [[]|[]| |[] m e]; try tauto; try discriminate; auto.
  right. exists m, e. auto.
Qed.

Lemma digits_mul_lower m1 m2 :
  Zpos (digits2_pos m1) + Zpos (digits2_pos m2) - 1 <= Zpos (digits2_pos (m1 * m2)).
Proof.
  pose proof (digits2_pos_bounds m1) as [A1 _].
  pose proof (digits2_pos_bounds m2) as [B1 _].
  pose proof (digits2_pos_bounds (m1 * m2)) as [_ C2].
  assert (Zpos (digits2_pos m1) - 1 + (Zpos (digits2_pos m2) - 1)
          < Zpos (digits2_pos (m1 * m2))); [|lia].
  apply (Z.pow_lt_mono_r_iff 2); try lia.
  rewrite Z.pow_add_r by lia. rewrite Pos2Z.inj_mul in C2. nia.
Qed.

Lemma fmul_rounded a b :
  finite_nonneg a -> finite_nonneg b -> rounded (fmul a b) (val a * val b).
Proof.
  intros Ha Hb.
  destruct (finite_nonneg_cases a Ha) as [->|(m1 & e1 & -> & V1)];
    destruct (finite_nonneg_cases b Hb) as [->|(m2 & e2 & -> & V2)]; cbn [val fzero];
    try (replace (0 * _)%R with 0%R by ring; apply rounded_fzero);
    try (replace (_ * 0)%R with 0%R by ring; apply rounded_fzero).
  unfold fmul. cbn [SFmul xorb].
  set (x := (IZR (Zpos m1) * bpow e1 * (IZR (Zpos m2) * bpow e2))%R).
  assert (Hx : x = (IZR (Zpos (m1 * m2)) * bpow (e1 + e2))%R).
  { subst x. rewrite Pos2Z.inj_mul, mult_IZR, bpow_plus. ring. }
  pose proof (finite_mag (m1 * m2) (e1 + e2)) as Hg. rewrite <- Hx in Hg.
  assert (Hpos : (0 < x)%R).
  { pose proof (bpow_gt_0 (Zpos (digits2_pos (m1 * m2)) + (e1 + e2) - 1)). lra. }
  destruct (binary_round_aux_correct (Zpos (m1 * m2)) (e1 + e2) loc_Exact x
              (Zpos (digits2_pos (m1 * m2)) + (e1 + e2))) as (r & Hr & Hres); auto.
  - lia.
  - cbn [loc_ok]. rewrite Hx. apply unscale_r.
  - apply valid_finite_inv in V1, V2. destruct V1 as [V1 _], V2 as [V2 _].
    pose proof (digits_mul_lower m1 m2).
    pose proof (digits2_pos_bounds m1). pose proof (digits2_pos_bounds m2).
    assert (0 < Zpos (digits2_pos m1)) by lia. assert (0 < Zpos (digits2_pos m2)) by lia.
    unfold fexp32 in *. lia.
  - apply (round_result_rounded _ x r); auto.
Qed.

Lemma shl_align_spec m e e' :
  snd (shl_align m e e') = Z.min e e' /\
  (IZR (Zpos (fst (shl_align m e e'))) * bpow (snd (shl_align m e e'))
   = IZR (Zpos m) * bpow e)%R /\
  Zpos (digits2_pos (fst (shl_align m e e'))) + snd (shl_align m e e')
  = Zpos (digits2_pos m) + e.
Proof.
  unfold shl_align. destruct (e' - e) as [|p|p] eqn:E; cbn [fst snd].
  - repeat split; lia.
  - repeat split; lia.
  - assert (He : e' = e - Zpos p) by lia.
    change (Pos.iter xO m p) with (shift_pos p m).
    assert (Hs : Zpos (shift_pos p m) = 2 ^ Zpos p * Zpos m).
    { rewrite shift_pos_correct. rewrite Z.pow_pos_fold. reflexivity. }
    split; [lia|]. split.
    + rewrite Hs, mult_IZR, <- bpow_IZR by lia. subst e'.
      replace e with (Zpos p + (e - Zpos p)) at 2 by lia. rewrite bpow_plus. ring.
    + assert (Zpos (digits2_pos (shift_pos p m)) = Zpos (digits2_pos m) + Zpos p); [|lia].
      pose proof (digits2_pos_bounds m) as [D1 D2].
      apply digits2_pos_unique; [|lia]. rewrite Hs.
      replace (Zpos (digits2_pos m) + Zpos p - 1)
        with (Zpos p + (Zpos (digits2_pos m) - 1)) by lia.
      rewrite (Z.add_comm (Zpos (digits2_pos m))).
      rewrite !Z.pow_add_r by lia.
      assert (0 < 2 ^ Zpos p) by (apply Z.pow_pos_nonneg; lia). nia.
Qed.

(** [binary_round] rounds the exact value of its positive mantissa. *)
Lemma binary_round_rounded m e :
  rounded (binary_round prec emax false m e) (IZR (Zpos m) * bpow e).
Proof.
  unfold binary_round. rewrite fexp_32.
  pose proof (shl_align_spec m e (fexp32 (Zpos (digits2_pos m) + e))) as (S1 & S2 & S3).
  destruct (shl_align m e (fexp32 (Zpos (digits2_pos m) + e))) as [mz ez].
  cbn [fst snd] in *.
  set (x := (IZR (Zpos m) * bpow e)%R) in *.
  pose proof (finite_mag m e) as Hg. fold x in Hg.
  assert (Hpos : (0 < x)%R).
  { pose proof (bpow_gt_0 (Zpos (digits2_pos m) + e - 1)). lra. }
  destruct (binary_round_aux_correct (Zpos mz) ez loc_Exact x
              (Zpos (digits2_pos m) + e)) as (r & Hr & Hres); auto.
  - lia.
  - cbn [loc_ok]. rewrite <- S2. apply unscale_r.
  - lia.
  - apply (round_result_rounded _ x r); auto.
Qed.

Lemma fadd_rounded a b :
  finite_nonneg a -> finite_nonneg b -> rounded (fadd a b) (val a + val b).
Proof.
  intros Ha Hb.
  destruct (finite_nonneg_cases a Ha) as [->|(m1 & e1 & -> & V1)];
    destruct (finite_nonneg_cases b Hb) as [->|(m2 & e2 & -> & V2)].
  - cbn [val fzero]. replace (0 + 0)%R with 0%R by ring. apply rounded_fzero.
  - change (fadd fzero (S754_finite false m2 e2)) with (S754_finite false m2 e2).
    replace (val fzero + val (S754_finite false m2 e2))%R
      with (val (S754_finite false m2 e2)) by (cbn [val fzero]; ring).
    apply rounded_self. apply Hb.
  - change (fadd (S754_finite false m1 e1) fzero) with (S754_finite false m1 e1).
    replace (val (S754_finite false m1 e1) + val fzero)%R
      with (val (S754_finite false m1 e1)) by (cbn [val fzero]; ring).
    apply rounded_self. apply Ha.
  - unfold fadd. cbn [SFadd cond_Zopp val].
    pose proof (shl_align_spec m1 e1 (Z.min e1 e2)) as (A1 & A2 & _).
    pose proof (shl_align_spec m2 e2 (Z.min e1 e2)) as (B1 & B2 & _).
    destruct (shl_align m1 e1 (Z.min e1 e2)) as [m1' e1'].
    destruct (shl_align m2 e2 (Z.min e1 e2)) as [m2' e2'].
    cbn [fst snd] in *.
    replace e1' with (Z.min e1 e2) in A2 by lia.
    replace e2' with (Z.min e1 e2) in B2 by lia.
    change (Zpos m1' + Zpos m2') with (Zpos (m1' + m2')).
    cbn [binary_normalize].
    replace (IZR (Zpos m1) * bpow e1 + IZR (Zpos m2) * bpow e2)%R
      with (IZR (Zpos (m1' + m2')) * bpow (Z.min e1 e2))%R.
    + apply binary_round_rounded.
    + rewrite Pos2Z.inj_add, plus_IZR. rewrite <- A2, <- B2. ring.
Qed.

(** ** Division of non-negative finite floats *)

Lemma new_location_ok nb k q :
  0 <= k < nb -> loc_ok q (new_location nb k) (IZR q + IZR k / IZR nb).
Proof.
  intros [Hk Hnb].
  assert (Hnb' : (0 < IZR nb)%R) by (apply IZR_lt; lia).
  set (t := (IZR k / IZR nb)%R).
  assert (Ht : (t * IZR nb = IZR k)%R) by (subst t; field; lra).
  clearbody t.
  assert (T0 : 0 < k -> (0 < t)%R).
  { intro H. apply IZR_lt in H. apply (Rmult_lt_reg_r (IZR nb)); [lra|]. rewrite Ht. lra. }
  assert (T1 : (t < 1)%R).
  { apply IZR_lt in Hnb. apply (Rmult_lt_reg_r (IZR nb)); [lra|]. rewrite Ht. lra. }
  assert (TL : 2 * k < nb -> (t < / 2)%R).
  { intro H. apply IZR_lt in H. rewrite mult_IZR in H.
    apply (Rmult_lt_reg_r (IZR nb)); [lra|]. rewrite Ht. lra. }
  assert (TE : 2 * k = nb -> (t = / 2)%R).
  { intro H. apply (f_equal IZR) in H. rewrite mult_IZR in H.
    apply (Rmult_eq_reg_r (IZR nb)); [|lra]. rewrite Ht. lra. }
  assert (TG : nb < 2 * k -> (/ 2 < t)%R).
  { intro H. apply IZR_lt in H. rewrite mult_IZR in H.
    apply (Rmult_lt_reg_r (IZR nb)); [lra|]. rewrite Ht. lra. }
  assert (TZ : k = 0 -> t = 0%R).
  { intro Hk0. apply (Rmult_eq_reg_r (IZR nb)); [|lra]. rewrite Ht, Hk0. cbn [IZR]. ring. }
  unfold new_location.
  destruct (Z.even nb) eqn:Ev.
  - unfold new_location_even.
    destruct (Z.eqb_spec k 0) as [Hk0|Hk0].
    + specialize (TZ Hk0). cbn [loc_ok]. lra.
    + specialize (T0 ltac:(lia)).
      destruct (Z.compare_spec (2 * k) nb) as [He|He|He]; cbn [loc_ok].
      * specialize (TE He). lra.
      * specialize (TL He). lra.
      * specialize (TG He). lra.
  - unfold new_location_odd.
    destruct (Z.eqb_spec k 0) as [Hk0|Hk0].
    + specialize (TZ Hk0). cbn [loc_ok]. lra.
    + specialize (T0 ltac:(lia)).
      assert (Hodd : nb <> 2 * k).
      { intro Hc. rewrite Hc, Z.even_mul in Ev. discriminate. }
      destruct (Z.compare_spec (2 * k + 1) nb) as [He|He|He]; cbn [loc_ok].
      * specialize (TL ltac:(lia)). lra.
      * specialize (TL ltac:(lia)). lra.
      * specialize (TG ltac:(lia)). lra.
Qed.

Lemma fdiv_rounded a b :
  finite_nonneg a -> finite_nonneg b -> (0 < val b)%R ->
  rounded (fdiv a b) (val a / val b).
Proof.
  intros Ha Hb Hbpos.
  destruct (finite_nonneg_cases b Hb) as [->|(m2 & e2 & -> & V2)];
    [cbn [val fzero] in Hbpos; lra|].
  destruct (finite_nonneg_cases a Ha) as [->|(m1 & e1 & -> & V1)].
  - change (fdiv fzero (S754_finite false m2 e2)) with fzero.
    replace (val fzero / _)%R with 0%R by (cbn [val fzero]; unfold Rdiv; ring).
    apply rounded_fzero.
  - unfold fdiv. cbn [SFdiv xorb val]. unfold SFdiv_core_binary. rewrite fexp_32.
    cbn [Zdigits2].
    set (d1 := Zpos (digits2_pos m1)). set (d2 := Zpos (digits2_pos m2)).
    set (e' := Z.min (fexp32 (d1 + e1 - (d2 + e2))) (e1 - e2)).
    set (s := e1 - e2 - e').
    assert (Hs : 0 <= s) by (subst s e'; lia).
    set (m' := match s with Zpos _ => Z.shiftl (Zpos m1) s | 0 => Zpos m1 | Zneg _ => 0 end).
    assert (Hm' : m' = Zpos m1 * 2 ^ s).
    { subst m'. destruct s as [|p|p]; [lia| |lia]. apply Z.shiftl_mul_pow2. lia. }
    pose proof (Z_div_mod m' (Zpos m2) ltac:(lia)) as Hdiv.
    destruct (Z.div_eucl m' (Zpos m2)) as [q r]. destruct Hdiv as [Hqr Hr].
    set (x := (IZR (Zpos m1) * bpow e1 / (IZR (Zpos m2) * bpow e2))%R).
    pose proof (IZR_pos_ge_1 m1) as P1. pose proof (IZR_pos_ge_1 m2) as P2.
    pose proof (bpow_gt_0 e1) as B1. pose proof (bpow_gt_0 e2) as B2.
    assert (Hxpos : (0 < x)%R).
    { subst x. apply Rdiv_lt_0_compat; nra. }
    (* the scaled quotient *)
    assert (Hy : (x * bpow (- e') = IZR q + IZR r / IZR (Zpos m2))%R).
    { assert (Hm'R : (IZR m' = IZR (Zpos m2) * IZR q + IZR r)%R).
      { rewrite Hqr, plus_IZR, mult_IZR. reflexivity. }
      rewrite Hm', mult_IZR, <- bpow_IZR in Hm'R by lia.
      replace (IZR q + IZR r / IZR (Zpos m2))%R
        with (IZR (Zpos m1) * bpow s / IZR (Zpos m2))%R by (rewrite Hm'R; field; lra).
      assert (He1 : bpow e1 = (bpow s * bpow e2 * bpow e')%R).
      { rewrite <- !bpow_plus. f_equal. subst s. lia. }
      assert (Hne : bpow (- e') = (/ bpow e')%R) by apply powerRZ_neg'.
      pose proof (bpow_gt_0 e').
      subst x. rewrite He1, Hne. field. lra. }
    (* the magnitude of the quotient *)
    pose proof (finite_mag m1 e1) as [M1 M1']. pose proof (finite_mag m2 e2) as [M2 M2'].
    fold d1 in M1, M1'. fold d2 in M2, M2'.
    set (D := d1 + e1 - (d2 + e2)).
    assert (Hlow : (bpow (D - 1) < x)%R).
    { assert (bpow (D - 1) * (IZR (Zpos m2) * bpow e2) < IZR (Zpos m1) * bpow e1)%R.
      { apply Rlt_le_trans with (bpow (D - 1) * bpow (d2 + e2))%R.
        - pose proof (bpow_gt_0 (D - 1)). nra.
        - rewrite <- bpow_plus. replace (D - 1 + (d2 + e2)) with (d1 + e1 - 1) by (subst D; lia).
          exact M1. }
      subst x. apply (Rmult_lt_reg_r (IZR (Zpos m2) * bpow e2)); [nra|].
      unfold Rdiv. rewrite Rmult_assoc, Rinv_l by nra. lra. }
    assert (Hhigh : (x < bpow (D + 1))%R).
    { assert (IZR (Zpos m1) * bpow e1 < bpow (D + 1) * (IZR (Zpos m2) * bpow e2))%R.
      { apply Rlt_le_trans with (bpow (D + 1) * bpow (d2 + e2 - 1))%R.
        - rewrite <- bpow_plus. replace (D + 1 + (d2 + e2 - 1)) with (d1 + e1) by (subst D; lia).
          exact M1'.
        - pose proof (bpow_gt_0 (D + 1)). nra. }
      subst x. apply (Rmult_lt_reg_r (IZR (Zpos m2) * bpow e2)); [nra|].
      unfold Rdiv. rewrite Rmult_assoc, Rinv_l by nra. lra. }
    assert (Hg : exists g, D <= g /\ (bpow (g - 1) <= x < bpow g)%R).
    { destruct (Rlt_le_dec x (bpow D)) as [Hlt|Hge].
      - exists D. split; [lia|]. lra.
      - exists (D + 1). split; [lia|]. replace (D + 1 - 1) with D by lia. lra. }
    destruct Hg as (g & HDg & Hg).
    destruct (binary_round_aux_correct q e' (new_location (Zpos m2) r) x g)
      as (r' & Hr' & Hres); auto.
    + assert (0 <= m') by (rewrite Hm'; apply Z.mul_nonneg_nonneg; [lia|apply Z.pow_nonneg; lia]).
      destruct (Z_lt_le_dec q 0) as [Hq|Hq]; auto. nia.
    + rewrite Hy. apply new_location_ok. lia.
    + pose proof (fexp32_mono D g HDg). subst e' D. lia.
    + apply (round_result_rounded _ x r'); auto.
Qed.

(** ** Signs *)

Lemma binary_round_aux_opp m e l :
  binary_round_aux prec emax true m e l = SFopp (binary_round_aux prec emax false m e l).
Proof.
  unfold binary_round_aux.
  destruct (shr_fexp prec emax m e l) as [mrs1 e1].
  destruct (shr_fexp prec emax _ e1 loc_Exact) as [mrs2 e2].
  destruct (shr_m mrs2); auto.
  destruct (e2 <=? emax - prec); reflexivity.
Qed.

Lemma binary_round_opp m e :
  binary_round prec emax true m e = SFopp (binary_round prec emax false m e).
Proof.
  unfold binary_round.
  destruct (shl_align m e _) as [mz ez]. apply binary_round_aux_opp.
Qed.

Lemma float_of_int_opp p : float_of_int (Zneg p) = SFopp (float_of_int (Zpos p)).
Proof. unfold float_of_int. cbn [binary_normalize]. apply binary_round_opp. Qed.

Lemma SFcompare_opp a b : SFcompare (SFopp a) (SFopp b) = SFcompare b a.
Proof.
  destruct a as [[]|[]| |[] m1 e1]; destruct b as [[]|[]| |[] m2 e2]; cbn; auto;
    pose proof (Pos.compare_cont_antisym m1 m2 Eq) as HA; cbn [CompOpp] in HA;
    rewrite (Z.compare_antisym e1 e2);
    destruct (e1 ?= e2); cbn [CompOpp]; auto;
    rewrite <- HA; destruct (Pos.compare_cont Eq m1 m2); reflexivity.
Qed.

Lemma nonneg_SFabs f : nonpos f -> nonneg (SFabs f).
Proof.
  intros [V S]. destruct f as [s|[]| |[] m e]; try tauto; split; auto.
Qed.

Lemma nonpos_SFopp f : nonneg f -> nonpos (SFopp f).
Proof.
  intros [V S]. destruct f as [[]|[]| |[] m e]; try tauto; split; auto.
Qed.

Lemma absval_SFopp f : nonneg f -> absval (SFopp f) = val f.
Proof.
  intros [V S]. destruct f as [[]|[]| |[] m e]; try tauto; reflexivity.
Qed.

Lemma absval_nonneg f : (0 <= absval f)%R.
Proof. apply val_nonneg. Qed.

(** Comparing a non-positive float with the opposite of a positive one. *)
Lemma SFcompare_nonpos s c :
  nonpos s -> nonneg c -> (0 < val c)%R ->
  SFcompare s (SFopp c) = SFcompare c (SFabs s) \/
  (absval s = 0%R /\ SFcompare s (SFopp c) = Some Gt).
Proof.
  intros [Vs Ss] [Vc Sc] Hc.
  destruct s as [s|[]| |[] m e]; try tauto.
  - right. split; [reflexivity|].
    destruct c as [[]|[]| |[] m2 e2]; try tauto; cbn [val] in Hc; try lra; reflexivity.
  - left. change (S754_infinity true) with (SFopp (S754_infinity false)).
    apply SFcompare_opp.
  - left. change (S754_finite true m e) with (SFopp (S754_finite false m e)).
    apply SFcompare_opp.
Qed.

Lemma fle_nonpos s c :
  nonpos s -> nonneg c -> (0 < val c)%R ->
  (fle s (SFopp c) = true <-> (val c <= absval s)%R).
Proof.
  intros Hs Hc Hpos.
  destruct (SFcompare_nonpos s c Hs Hc Hpos) as [E|[Hz E]].
  - unfold fle, SFleb. rewrite E.
    apply (fle_nonneg c (SFabs s) Hc (nonneg_SFabs s Hs)).
  - unfold fle, SFleb. rewrite E, Hz. split; [discriminate|lra].
Qed.

Lemma flt_nonpos s c :
  nonpos s -> nonneg c -> (0 < val c)%R ->
  (flt s (SFopp c) = true <-> (val c < absval s)%R).
Proof.
  intros Hs Hc Hpos.
  destruct (SFcompare_nonpos s c Hs Hc Hpos) as [E|[Hz E]].
  - unfold flt, SFltb. rewrite E.
    apply (flt_nonneg c (SFabs s) Hc (nonneg_SFabs s Hs)).
  - unfold flt, SFltb. rewrite E, Hz. split; [discriminate|lra].
Qed.

(** ** Integers as floats *)

Lemma rounds_to_small_int p : Zpos p < 2 ^ 24 -> rounds_to (IZR (Zpos p)) (IZR (Zpos p)).
Proof.
  intro H. pose proof (digits_le_24 p H) as Hd.
  pose proof (finite_mag p 0) as Hg.
  replace (IZR (Zpos p) * bpow 0)%R with (IZR (Zpos p)) in Hg by (rewrite bpow_0; ring).
  set (d := Zpos (digits2_pos p)) in *.
  assert (0 < d) by (subst d; lia).
  apply (rounds_to_exact _ (d + 0) (Zpos p * 2 ^ (24 - d))); auto.
  replace (fexp32 (d + 0)) with (d - 24) by (unfold fexp32; lia).
  rewrite mult_IZR, <- bpow_IZR by lia. rewrite Rmult_assoc, <- bpow_plus.
  replace (24 - d + (d - 24)) with 0 by lia. rewrite bpow_0. ring.
Qed.

Lemma float_of_int_pos p :
  Zpos p < 2 ^ 24 ->
  finite_nonneg (float_of_int (Zpos p)) /\ val (float_of_int (Zpos p)) = IZR (Zpos p).
Proof.
  intro H. unfold float_of_int. cbn [binary_normalize].
  pose proof (binary_round_rounded p 0) as R.
  replace (IZR (Zpos p) * bpow 0)%R with (IZR (Zpos p)) in R by (rewrite bpow_0; ring).
  pose proof (rounds_to_small_int p H) as Hr.
  destruct R as [N [[Hx _]|[Hx (r & Hr' & Hv)]]].
  - pose proof (IZR_pos_ge_1 p). lra.
  - rewrite (rounds_to_unique _ _ _ Hr' Hr) in Hv.
    assert (Hlt : (IZR (Zpos p) < bpow 128)%R).
    { apply IZR_lt in H. rewrite <- bpow_IZR in H by lia.
      pose proof (bpow_lt 24 128 ltac:(lia)). lra. }
    rewrite Rmin_left in Hv by lra.
    split; auto. split; auto.
    destruct N as [V S].
    destruct (binary_round prec emax false p 0) as [[]|[]| |[] m e]; try tauto; auto.
    cbn [val] in Hv. lra.
Qed.

Lemma float_of_int_nonneg n :
  0 <= n < 2 ^ 24 -> finite_nonneg (float_of_int n) /\ val (float_of_int n) = IZR n.
Proof.
  intros [H0 H]. destruct n as [|p|p]; [| |lia].
  - split; [split; [apply nonneg_fzero|reflexivity]|reflexivity].
  - apply float_of_int_pos. exact H.
Qed.

(** ** The negative side: [-1 / d] and [s - 1] *)

Lemma fdiv_minus_one d :
  finite_nonneg d -> fdiv (float_of_int (-1)) d = SFopp (fdiv (float_of_int 1) d).
Proof.
  intro Hd. destruct (finite_nonneg_cases d Hd) as [->|(m & e & -> & V)].
  - reflexivity.
  - change (float_of_int (-1)) with (S754_finite true 8388608 (-23)).
    change (float_of_int 1) with (S754_finite false 8388608 (-23)).
    unfold fdiv. cbn [SFdiv xorb].
    destruct (SFdiv_core_binary prec emax (Zpos 8388608) (-23) (Zpos m) e) as [[mz ez] lz].
    apply binary_round_aux_opp.
Qed.

Lemma fsub_one_nonpos s :
  nonpos s -> is_finite s = true ->
  fsub s (float_of_int 1) = SFopp (fadd (SFabs s) (float_of_int 1)).
Proof.
  intros [V S] F.
  change (float_of_int 1) with (S754_finite false 8388608 (-23)).
  destruct s as [[]|[]| |[] m e]; try tauto; try discriminate; try reflexivity.
  unfold fsub, fadd. cbn [SFsub SFadd SFabs cond_Zopp].
  destruct (shl_align m e (Z.min e (-23))) as [m1 e1].
  destruct (shl_align 8388608 (-23) (Z.min e (-23))) as [m2 e2].
  cbn [fst].
  change (- Zpos m1 - Zpos m2) with (Zneg (m1 + m2)).
  change (Zpos m1 + Zpos m2) with (Zpos (m1 + m2)).
  cbn [binary_normalize]. apply binary_round_opp.
Qed.

(** ** Bounds by constants *)

Lemma pow2_ok n : -126 <= n <= 127 -> finite_nonneg (pow2 n) /\ val (pow2 n) = bpow n.
Proof.
  intro H. unfold pow2. split.
  - split; [split; [|exact I]|reflexivity].
    unfold valid, valid_binary, bounded, canonical_mantissa. rewrite fexp_32.
    change (Zpos (digits2_pos 8388608)) with 24. change (emax - prec) with 104.
    apply andb_true_intro. split; [apply Z.eqb_eq; unfold fexp32; lia | apply Z.leb_le; lia].
  - cbn [val]. change 8388608%positive with (Z.to_pos (2 ^ 23)).
    change (Zpos (Z.to_pos (2 ^ 23))) with (2 ^ 23).
    rewrite <- bpow_IZR by lia. rewrite <- bpow_plus. f_equal. lia.
Qed.

Lemma fone_ok : finite_nonneg fone /\ val fone = 1%R.
Proof.
  change fone with (pow2 0). destruct (pow2_ok 0 ltac:(lia)) as [H1 H2].
  split; auto.
Qed.

Lemma nonneg_upto_spec bound f :
  nonneg bound -> nonneg_upto bound f = true ->
  finite_nonneg f /\ (val f <= val bound)%R.
Proof.
  intros Hb H. unfold nonneg_upto in H. apply andb_prop in H. destruct H as [V H].
  assert (N : finite_nonneg f).
  { destruct f as [[]|[]| |[] m e]; try discriminate; (split; [split; [exact V|exact I]|reflexivity]). }
  split; auto.
  apply (fle_nonneg f bound (proj1 N) Hb).
  destruct f as [[]|[]| |[] m e]; try discriminate; exact H.
Qed.

Lemma bpow_double n : bpow (n + 1) = (2 * bpow n)%R.
Proof. rewrite bpow_plus, bpow_1. ring. Qed.

(** ** The speed function *)

Lemma strength_ok_at strength y x c :
  strength_ok strength = true ->
  finite_nonneg (vec3_get (mat_at vec3f_zero strength y x) c) /\
  (val (vec3_get (mat_at vec3f_zero strength y x) c) <= bpow 125)%R.
Proof.
  intro H. unfold strength_ok in H. rewrite forallb_forall in H.
  destruct (pow2_ok 125 ltac:(lia)) as [[P1 _] P2]. rewrite <- P2.
  unfold mat_at.
  destruct (nth_in_or_default (mat_index strength y x) (elems strength) vec3f_zero) as [Hin | Hd].
  - specialize (H _ Hin). apply andb_prop in H. destruct H as [H H2].
    apply andb_prop in H. destruct H as [H0 H1].
    destruct (nth (mat_index strength y x) (elems strength) vec3f_zero) as [[a b] d].
    unfold vec3_get. destruct (c =? 0); [|destruct (c =? 1)];
      apply nonneg_upto_spec; auto.
  - rewrite Hd. assert (Hz : nonneg_upto (pow2 125) fzero = true) by reflexivity.
    unfold vec3f_zero, vec3_get. destruct (c =? 0); [|destruct (c =? 1)];
      apply nonneg_upto_spec; auto.
Qed.

(** Adding a non-negative term of at most [2^125] to a sum between 1 and
    [2^hi] keeps it between 1 and [2^(hi+1)]. *)
Lemma fadd_strength acc s hi :
  125 <= hi <= 126 ->
  finite_nonneg acc -> (1 <= val acc <= bpow hi)%R ->
  finite_nonneg s -> (val s <= bpow 125)%R ->
  finite_nonneg (fadd acc s) /\ (1 <= val (fadd acc s) <= bpow (hi + 1))%R.
Proof.
  intros Hhi Ha Hav Hs Hsv.
  pose proof (fadd_rounded acc s Ha Hs) as R.
  pose proof (val_nonneg s) as Hs0.
  destruct (pow2_ok (hi + 1) ltac:(lia)) as [Q1 Q2].
  destruct fone_ok as [O1 O2].
  assert (Hup : (val acc + val s <= val (pow2 (hi + 1)))%R).
  { rewrite Q2, bpow_double. pose proof (bpow_le 125 hi ltac:(lia)). lra. }
  split; [apply (rounded_finite _ _ _ R Q1 Hup)|]. split.
  - rewrite <- O2. apply (rounded_lower _ _ _ R (proj1 O1)). lra.
  - rewrite <- Q2. apply (rounded_upper _ _ _ R (proj1 Q1) Hup).
Qed.

Lemma speed_denominator strength position :
  strength_ok strength = true ->
  let v := mat_at vec3f_zero strength (p_y position) (p_x position) in
  let d := fadd (fadd (fadd (float_of_int 1) (vec3_get v 0)) (vec3_get v 1)) (vec3_get v 2) in
  finite_nonneg d /\ (1 <= val d <= bpow 128)%R.
Proof.
  intros H v d.
  destruct (strength_ok_at strength (p_y position) (p_x position) 0 H) as [S0 B0].
  destruct (strength_ok_at strength (p_y position) (p_x position) 1 H) as [S1 B1].
  destruct (strength_ok_at strength (p_y position) (p_x position) 2 H) as [S2 B2].
  fold v in S0, B0, S1, B1, S2, B2.
  destruct fone_ok as [O1 O2]. change (float_of_int 1) with fone in d.
  assert (H0 : (1 <= val fone <= bpow 125)%R).
  { rewrite O2. pose proof (bpow_ge_1 125 ltac:(lia)). lra. }
  destruct (fadd_strength fone (vec3_get v 0) 125 ltac:(lia) O1 H0 S0 B0) as [F1 V1].
  destruct (fadd_strength _ (vec3_get v 1) 126 ltac:(lia) F1 V1 S1 B1) as [F2 V2].
  change (126 + 1) with 127 in V2.
  pose proof (fadd_rounded _ _ F2 S2) as R.
  split.
  - destruct (pow2_ok 127 ltac:(lia)) as [Q1 Q2].
    pose proof (fadd_rounded (fadd (fadd fone (vec3_get v 0)) (vec3_get v 1)) (vec3_get v 2) F2 S2).
    assert (Hm : finite_nonneg (S754_finite false 16777215 104)).
    { split; [split; [reflexivity|exact I]|reflexivity]. }
    apply (rounded_finite _ _ _ R Hm). cbn [val].
    change 104 with (-23 + 127). rewrite bpow_plus.
    change 127 with (125 + 1 + 1) in V2 |- *. rewrite !bpow_double in *.
    pose proof (bpow_opp 23) as Hb. cbn [Z.opp] in Hb.
    rewrite (bpow_IZR 23) in Hb by lia. change (IZR (2 ^ 23)) with 8388608%R in Hb.
    pose proof (bpow_gt_0 125). pose proof (bpow_gt_0 (-23)). nra.
  - split.
    + rewrite <- O2. apply (rounded_lower _ _ _ R (proj1 O1)).
      pose proof (val_nonneg (vec3_get v 2)). lra.
    + apply val_le_top. apply (rounded_nonneg _ _ R).
Qed.

Lemma ComputeSpeed_spec strength position :
  strength_ok strength = true ->
  exists q, ComputeSpeed strength position = SFopp q /\
            finite_nonneg q /\ (0 < val q <= 1)%R.
Proof.
  intro H. unfold ComputeSpeed.
  destruct (speed_denominator strength position H) as [Fd Vd]. cbv zeta in Fd, Vd.
  set (d := fadd _ _) in *.
  rewrite (fdiv_minus_one d Fd).
  destruct fone_ok as [O1 O2]. change (float_of_int 1) with fone.
  pose proof (fdiv_rounded fone d O1 Fd ltac:(lra)) as R. rewrite O2 in R.
  exists (fdiv fone d). split; auto.
  assert (Hq : (/ bpow 128 <= 1 / val d <= 1)%R).
  { pose proof (bpow_gt_0 128). split.
    - unfold Rdiv. rewrite Rmult_1_l. apply Rinv_le_contravar; lra.
    - apply (Rmult_le_reg_r (val d)); [lra|]. unfold Rdiv.
      rewrite Rmult_assoc, Rinv_l by lra. lra. }
  assert (Hup : (1 / val d <= val fone)%R) by (rewrite O2; lra).
  split; [apply (rounded_finite _ _ _ R O1 Hup)|]. split.
  - apply (rounded_pos _ _ R).
    pose proof (bpow_opp 128) as Hb. cbn [Z.opp] in Hb.
    assert (Hi : (/ bpow 128 = bpow (-128))%R).
    { pose proof (bpow_gt_0 128). apply (Rmult_eq_reg_r (bpow 128)); [|lra].
      rewrite Rinv_l by lra. lra. }
    rewrite Hi in Hq.
    pose proof (bpow_le (-149) (-128) ltac:(lia)). lra.
  - rewrite <- O2. apply (rounded_upper _ _ _ R (proj1 O1) Hup).
Qed.

Lemma SFopp_positive_lt_zero q :
  finite_nonneg q -> (0 < val q)%R -> flt (SFopp q) fzero = true.
Proof.
  intros Hq Hp. destruct (finite_nonneg_cases q Hq) as [->|(m & e & -> & V)].
  - cbn [val fzero] in Hp. lra.
  - reflexivity.
Qed.

(** C3 (as the code computes it): where the squared gradients are
    non-negative floats of at most [2^125], the speed lies in [[-1, 0)]: it
    is at least -1 and below 0; and at a pixel whose three squared
    gradients are all zero it is -1. *)
Theorem C3_speed_range strength position :
  strength_ok strength = true ->
  fle (float_of_int (-1)) (ComputeSpeed strength position) = true /\
  flt (ComputeSpeed strength position) fzero = true /\
  (mat_at vec3f_zero strength (p_y position) (p_x position) = (fzero, fzero, fzero) ->
   ComputeSpeed strength position = float_of_int (-1)).
Proof.
  intro H. split; [|split].
  - destruct (ComputeSpeed_spec strength position H) as (q & -> & Fq & Vq).
    destruct fone_ok as [O1 O2].
    change (float_of_int (-1)) with (SFopp fone).
    unfold fle, SFleb. rewrite SFcompare_opp.
    apply (fle_nonneg q fone (proj1 Fq) (proj1 O1)). lra.
  - destruct (ComputeSpeed_spec strength position H) as (q & -> & Fq & Vq).
    apply SFopp_positive_lt_zero; auto. lra.
  - intro E. unfold ComputeSpeed. rewrite E. reflexivity.
Qed.

(** ** Priorities of deferred entries *)

Lemma fsub_one_spec s :
  nonpos s ->
  nonpos (fsub s (float_of_int 1)) /\
  forall c, nonneg c -> (val c <= absval s + 1)%R ->
            (val c <= absval (fsub s (float_of_int 1)))%R.
Proof.
  intro Hs. destruct (is_finite s) eqn:F.
  - rewrite (fsub_one_nonpos s Hs F). change (float_of_int 1) with fone.
    destruct fone_ok as [O1 O2].
    assert (Fa : finite_nonneg (SFabs s)).
    { split; [apply nonneg_SFabs; auto|]. destruct s; auto. }
    pose proof (fadd_rounded (SFabs s) fone Fa O1) as R. rewrite O2 in R.
    split.
    + apply nonpos_SFopp. apply (rounded_nonneg _ _ R).
    + intros c Hc Hle. rewrite absval_SFopp by apply (rounded_nonneg _ _ R).
      apply (rounded_lower _ _ c R Hc). exact Hle.
  - destruct Hs as [V S]. destruct s as [[]|[]| |[] m e]; try tauto; try discriminate.
    change (fsub (S754_infinity true) (float_of_int 1)) with (S754_infinity true).
    split; [split; [reflexivity|exact I]|].
    intros c Hc _. apply (val_le_top c Hc).
Qed.

Lemma fle_minus_int s k :
  nonpos s -> 0 < k < 2 ^ 24 ->
  (fle s (float_of_int (- k)) = true <-> (IZR k <= absval s)%R).
Proof.
  intros Hs Hk. destruct k as [|p|p]; try lia.
  change (- Zpos p) with (Zneg p). rewrite float_of_int_opp.
  destruct (float_of_int_pos p ltac:(lia)) as [[N _] V].
  rewrite <- V. apply fle_nonpos; auto. rewrite V.
  pose proof (IZR_pos_ge_1 p). lra.
Qed.

Lemma flt_minus_int s k :
  nonpos s -> 0 < k < 2 ^ 24 ->
  (flt s (float_of_int (- k)) = true <-> (IZR k < absval s)%R).
Proof.
  intros Hs Hk. destruct k as [|p|p]; try lia.
  change (- Zpos p) with (Zneg p). rewrite float_of_int_opp.
  destruct (float_of_int_pos p ltac:(lia)) as [[N _] V].
  rewrite <- V. apply flt_nonpos; auto. rewrite V.
  pose proof (IZR_pos_ge_1 p). lra.
Qed.

Lemma fsub_one_le_minus_one s :
  nonpos s -> fle (fsub s (float_of_int 1)) (float_of_int (-1)) = true.
Proof.
  intro Hs. destruct (fsub_one_spec s Hs) as [N L].
  apply (fle_minus_int _ 1 N ltac:(lia)).
  destruct fone_ok as [O1 O2]. rewrite <- O2. apply L; [apply O1|].
  rewrite O2. pose proof (absval_nonneg s). lra.
Qed.

Lemma nonpos_ComputeSpeed strength position :
  strength_ok strength = true -> nonpos (ComputeSpeed strength position).
Proof.
  intro H. destruct (ComputeSpeed_spec strength position H) as (q & -> & Fq & _).
  apply nonpos_SFopp. apply Fq.
Qed.

Lemma nonpos_fzero : nonpos fzero.
Proof. split; [reflexivity|exact I]. Qed.

Lemma band_nonpos_initial depth : band_nonpos (initial_band depth).
Proof.
  unfold initial_band.
  assert (G : forall l h, band_nonpos h ->
            band_nonpos (fold_left
              (fun h (yx : Z * Z) =>
                 if fne (depth_at depth (fst yx) (snd yx)) fzero
                 then emplace (float_of_int 0) (mkPoint (snd yx) (fst yx)) h
                 else h) l h)).
  { induction l as [|yx l IH]; intros h Hh; cbn [fold_left]; auto.
    apply IH. destruct (fne _ _); auto.
    constructor; auto. apply nonpos_fzero. }
  apply G. constructor.
Qed.

Section BandInvariant.

Variable top_pop : BandItem -> list BandItem -> BandItem * list BandItem.
Variable predict : Mat float -> Mat RGB -> Z -> Z -> result float.
Variable rgbImage : Mat RGB.
Variable strength : Mat (Vec3 float).
Hypothesis strength_fine : strength_ok strength = true.

Lemma visit_neighbour_band_nonpos speed position st d st' :
  nonpos speed -> band_nonpos (narrowBand st) ->
  visit_neighbour predict rgbImage strength speed position st d = Ok st' ->
  band_nonpos (narrowBand st').
Proof.
  intros Hs Hb H. unfold visit_neighbour in H.
  destruct (negb (in_bounds _ _ _)); [inversion H; subst; auto|].
  destruct (feq (depth_at _ _ _) fzero); [|inversion H; subst; auto].
  destruct (predict _ _ _ _) as [v|e]; [|discriminate]. cbn [bind] in H.
  destruct (fne v fzero).
  - inversion H; subst. cbn [narrowBand]. constructor; auto.
    apply nonpos_ComputeSpeed; auto.
  - destruct (flt speed _); [discriminate|]. inversion H; subst.
    cbn [narrowBand]. constructor; auto. apply (fsub_one_spec speed Hs).
Qed.

Lemma propagate_step_band_nonpos depth it rest st' :
  priority_queue_contract top_pop ->
  band_nonpos (it :: rest) ->
  propagate_step top_pop predict rgbImage strength depth it rest = Ok st' ->
  band_nonpos (narrowBand st').
Proof.
  intros PQ Hb H. unfold propagate_step in H.
  destruct (PQ it rest) as [Perm _].
  destruct (top_pop it rest) as [[speed position] rest']. cbn [fst snd] in Perm.
  assert (Hb' : band_nonpos ((speed, position) :: rest')).
  { unfold band_nonpos in *. rewrite Forall_forall in *.
    intros j Hj. apply Hb. apply (Permutation_in _ (Permutation_sym Perm)). exact Hj. }
  inversion Hb' as [|j l Hs Hr]; subst.
  revert H.
  apply (fold_result_inv Band Point (fun st => band_nonpos (narrowBand st))); auto.
  intros a b a' Pa Hv. eapply visit_neighbour_band_nonpos; eauto.
Qed.

End BandInvariant.

(** C6 (as the code has it): a deferred entry carries the popped priority
    minus 1, which is at most -1, and exactly -1 at the first deferral of
    a seed.  Priorities start at 0 and never become positive while the
    speeds are computed from squared gradients in range, so the bound holds
    at every deferral of a run. *)
Theorem C6_deferred_priority top_pop predict rgbImage strength :
  strength_ok strength = true ->
  priority_queue_contract top_pop ->
  (forall depth, band_nonpos (initial_band depth)) /\
  (forall depth it rest st',
      band_nonpos (it :: rest) ->
      propagate_step top_pop predict rgbImage strength depth it rest = Ok st' ->
      band_nonpos (narrowBand st')) /\
  (forall speed position st d st' v,
      nonpos speed ->
      predict (depthImage st) rgbImage (p_x position + p_x d) (p_y position + p_y d) = Ok v ->
      fne v fzero = false ->
      in_bounds (depthImage st) (p_y position + p_y d) (p_x position + p_x d) = true ->
      feq (depth_at (depthImage st) (p_y position + p_y d) (p_x position + p_x d)) fzero = true ->
      visit_neighbour predict rgbImage strength speed position st d = Ok st' ->
      narrowBand st' = (fsub speed (float_of_int 1), position) :: narrowBand st /\
      fle (fsub speed (float_of_int 1)) (float_of_int (-1)) = true) /\
  fsub (float_of_int 0) (float_of_int 1) = float_of_int (-1).
Proof.
  intros Hs PQ. split; [apply band_nonpos_initial|]. split; [|split; [|reflexivity]].
  - intros depth it rest st' Hb H.
    eapply propagate_step_band_nonpos; eauto.
  - intros speed position st d st' v Hsp Hp Hv Hb Hz H.
    unfold visit_neighbour in H. cbn [p_x p_y] in H.
    rewrite Hb, Hz, Hp in H. cbn [negb bind] in H. rewrite Hv in H.
    destruct (flt speed _); [discriminate|]. inversion H; subst. cbn [narrowBand].
    split; auto. apply fsub_one_le_minus_one; auto.
Qed.

(** ** The comparator is a strict order, and the model queue honours the
    contract *)

Lemma flt_key a b :
  flt a b = true <->
  exists ka kb, order_key a = Some ka /\ order_key b = Some kb /\ key_lt ka kb.
Proof.
  unfold flt, SFltb.
  destruct a as [[]|[]| |[] m1 e1]; destruct b as [[]|[]| |[] m2 e2]; cbn [SFcompare order_key];
    try (split; [discriminate|intros (ka & kb & Ha & Hb & Hlt); try discriminate;
                  inversion Ha; inversion Hb; subst; cbn in Hlt; lia]);
    try (split; [intros _; eexists; eexists; split; [reflexivity|split; [reflexivity|cbn; lia]]
                |reflexivity]).
  - (* both negative *)
    rewrite Pos.compare_cont_spec. cbn [Pos.switch_Eq].
    destruct (Z.compare_spec e1 e2) as [He|He|He];
      [destruct (Pos.compare_spec m1 m2) as [Hm|Hm|Hm]| |]; cbn [CompOpp];
      (split; [first [discriminate | intros _; eexists; eexists;
                split; [reflexivity|split; [reflexivity|cbn; lia]]]
              |intros (ka & kb & Ha & Hb & Hlt); inversion Ha; inversion Hb; subst;
               cbn in Hlt; first [reflexivity | lia]]).
  - (* both positive *)
    rewrite Pos.compare_cont_spec. cbn [Pos.switch_Eq].
    destruct (Z.compare_spec e1 e2) as [He|He|He];
      [destruct (Pos.compare_spec m1 m2) as [Hm|Hm|Hm]| |];
      (split; [first [discriminate | intros _; eexists; eexists;
                split; [reflexivity|split; [reflexivity|cbn; lia]]]
              |intros (ka & kb & Ha & Hb & Hlt); inversion Ha; inversion Hb; subst;
               cbn in Hlt; first [reflexivity | lia]]).
Qed.

Lemma key_lt_trans a b c : key_lt a b -> key_lt b c -> key_lt a c.
Proof.
  destruct a as [[a1 a2] a3], b as [[b1 b2] b3], c as [[c1 c2] c3]. cbn. lia.
Qed.

Lemma key_lt_irrefl a : ~ key_lt a a.
Proof. destruct a as [[a1 a2] a3]. cbn. lia. Qed.

Lemma flt_trans a b c : flt a b = true -> flt b c = true -> flt a c = true.
Proof.
  intros H1 H2. apply flt_key in H1, H2. apply flt_key.
  destruct H1 as (ka & kb & Ha & Hb & L1). destruct H2 as (kb' & kc & Hb' & Hc & L2).
  rewrite Hb in Hb'. inversion Hb'; subst.
  exists ka, kc. repeat split; auto. eapply key_lt_trans; eauto.
Qed.

Lemma flt_asym a b : flt a b = true -> flt b a = false.
Proof.
  intro H1. destruct (flt b a) eqn:H2; auto.
  pose proof (flt_trans _ _ _ H1 H2) as H. apply flt_key in H.
  destruct H as (ka & kb & Ha & Hb & L). rewrite Ha in Hb. inversion Hb; subst.
  exfalso. exact (key_lt_irrefl _ L).
Qed.

Lemma heap_top_pop_contract : priority_queue_contract heap_top_pop.
Proof.
  intros it rest. revert it. induction rest as [|j t IH]; intro it.
  - cbn. split; [apply Permutation_refl|]. intros j [].
  - cbn [heap_top_pop]. specialize (IH j). destruct IH as [Perm Max].
    destruct (heap_top_pop j t) as [m t']. cbn [fst snd] in *.
    destruct (compare_items m it) eqn:E; cbn [fst snd].
    + split; [apply Permutation_refl|].
      intros k Hk. unfold compare_items in *.
      assert (Hk' : In k (m :: t')) by (apply (Permutation_in _ Perm); exact Hk).
      destruct Hk' as [<-|Hk'].
      * apply flt_asym. exact E.
      * specialize (Max k Hk'). destruct (flt (fst it) (fst k)) eqn:E2; auto.
        rewrite (flt_trans _ _ _ E E2) in Max. discriminate.
    + split.
      * apply Permutation_trans with (it :: m :: t').
        -- constructor. exact Perm.
        -- apply perm_swap.
      * intros k [<-|Hk]; auto.
Qed.

(** ** The least-squares predictor *)

Lemma fdiv_one k : valid k = true -> fdiv k fone = k.
Proof.
  intro V. destruct fone_ok as [O1 O2].
  assert (P : forall m e, valid (S754_finite false m e) = true ->
                          fdiv (S754_finite false m e) fone = S754_finite false m e).
  { intros m e Vm.
    assert (F : finite_nonneg (S754_finite false m e))
      by (split; [split; [exact Vm|exact I]|reflexivity]).
    pose proof (fdiv_rounded _ fone F O1 ltac:(lra)) as R. rewrite O2 in R.
    apply (rounded_exact _ _ _ R (proj1 F)). field. }
  destruct k as [[]|[]| |[] m e]; try reflexivity.
  - (* negative: the sign goes through the rounding *)
    assert (Vm : valid (S754_finite false m e) = true) by exact V.
    specialize (P m e Vm).
    change fone with (S754_finite false 8388608 (-23)) in *.
    unfold fdiv in *. cbn [SFdiv xorb] in *.
    destruct (SFdiv_core_binary prec emax (Zpos m) e (Zpos 8388608) (-23)) as [[mz ez] lz].
    rewrite binary_round_aux_opp, P. reflexivity.
  - apply P. exact V.
Qed.

Lemma nth_map_combine (A B C : Type) (f : A * B -> C) (a : list A) (b : list B)
    (i : nat) (da : A) (db : B) (d : C) :
  (i < List.length a)%nat -> (i < List.length b)%nat ->
  nth i (map f (combine a b)) d = f (nth i a da, nth i b db).
Proof.
  revert b i; induction a as [|x a IH]; intros [|y b] [|i] Ha Hb; cbn in *; try lia; auto.
  apply IH; lia.
Qed.

Lemma length_rowwise2_row (op : float -> float -> float) (r v : list float) :
  List.length (map (fun p => op (fst p) (snd p)) (combine r v))
  = Nat.min (List.length r) (List.length v).
Proof. rewrite length_map, length_combine. reflexivity. Qed.

(** C7 (as the code has it): the fourth scale is forced to 1, column 3 of
    the feature matrix holds [constant / 1] in every row, which is the
    caller's [constant] itself, unclamped (the column is filled before the
    clamp), and the fourth component of the test vector is
    [std::max(0.00001f, constant)]. *)
Theorem C7_bias_column g D rgb x y epsilon constant :
  let ls := PredictDepth2_system g D rgb x y epsilon constant in
  nth 3 (ls_sX ls) fzero = float_of_int 1 /\
  (forall row, In row (ls_X ls) ->
     nth 3 row fzero = fdiv constant (float_of_int 1) /\
     (valid constant = true -> nth 3 row fzero = constant)) /\
  nth 3 (ls_test ls) fzero = std_max float_1em5 constant.
Proof.
  unfold PredictDepth2_system. cbn [ls_sX ls_X ls_test].
  split; [|split].
  - apply nth_set_nth_same. rewrite length_map. unfold colwise. cbn. lia.
  - intros row Hrow. unfold rowwise2 at 1 in Hrow.
    apply in_map_iff in Hrow. destruct Hrow as (r2 & <- & Hr2).
    apply in_map_iff in Hr2. destruct Hr2 as (r1 & <- & Hr1).
    unfold rowwise2 in Hr1. apply in_map_iff in Hr1. destruct Hr1 as (r0 & <- & Hr0).
    apply in_map_iff in Hr0. destruct Hr0 as (mn & <- & _).
    rewrite (nth_map_combine _ _ _ _ _ _ _ fzero fzero).
    + cbn [fst snd].
      rewrite nth_set_nth_same by (rewrite length_map, length_combine; unfold colwise; cbn; lia).
      rewrite nth_set_nth_same by (rewrite length_map; unfold colwise; cbn; lia).
      split; auto. intro V. apply fdiv_one. exact V.
    + rewrite length_set_nth, length_map, length_combine. unfold colwise. cbn. lia.
    + rewrite length_set_nth, length_map. unfold colwise. cbn. lia.
  - apply nth_set_nth_same. rewrite length_map, !length_combine, length_set_nth, length_map.
    unfold colwise. cbn. lia.
Qed.

(** C8 (as the code has it): the predictor asserts [!std::isnan] of the
    prediction and nothing more, so whatever it returns is not NaN; at most
    three known window pixels make it return 0. *)
Theorem C8_returned_value_not_NaN ldlt_solve g D rgb x y epsilon constant truncation v :
  PredictDepth2 ldlt_solve g D rgb x y epsilon constant truncation = Ok v ->
  isnan v = false /\
  (Z.of_nat (List.length (known_window g D x y)) <= 3 -> v = fzero).
Proof.
  unfold PredictDepth2.
  destruct (cols D =? cols rgb); [|discriminate].
  destruct (rows D =? rows rgb); [|discriminate]. cbn [assert bind].
  destruct (Z.of_nat (List.length (known_window g D x y)) <=? 3) eqn:E.
  - intro H. inversion H; subst. auto.
  - destruct (channels rgb =? 3); [|discriminate]. cbn [assert bind].
    destruct (isnan _) eqn:N; [discriminate|]. cbn [negb assert bind].
    intro H. inversion H; subst. split; auto.
    intro Hc. apply Z.leb_gt in E. lia.
Qed.

(** ** Bounds on the bilateral mean *)

Lemma rounded_scale_lower f x f' x' n :
  rounded f x -> rounded f' x' ->
  (bpow (-126) <= x)%R -> (bpow (-126) <= x * bpow n)%R ->
  (x * bpow n <= x')%R -> (val f * bpow n <= bpow 128)%R ->
  (val f * bpow n <= val f')%R.
Proof.
  intros [N [[Hx _]|[Hx (r & Hr & Hv)]]] R' H1 H2 H3 H4.
  - pose proof (bpow_gt_0 (-126)). lra.
  - pose proof (bpow_gt_0 (-126)). pose proof (bpow_gt_0 n).
    destruct R' as [N' [[Hx' _]|[Hx' (r' & Hr' & Hv')]]]; [nra|].
    pose proof (rounds_to_scale x r n Hr H1 H2) as Hs.
    pose proof (rounds_to_mono _ _ _ _ H3 Hs Hr') as Hm.
    rewrite Hv'. apply Rmin_glb; auto.
    pose proof (Rmin_l r (bpow 128)). rewrite <- Hv in H5. nra.
Qed.

Lemma rounded_scale_upper f x f' x' n :
  rounded f x -> rounded f' x' ->
  (bpow (-126) <= x)%R -> (bpow (-126) <= x * bpow n)%R ->
  (x' <= x * bpow n)%R -> (val f < bpow 128)%R ->
  (val f' <= val f * bpow n)%R.
Proof.
  intros [N [[Hx _]|[Hx (r & Hr & Hv)]]] R' H1 H2 H3 H4.
  - pose proof (bpow_gt_0 (-126)). lra.
  - pose proof (bpow_gt_0 (-126)). pose proof (bpow_gt_0 n).
    assert (Hr' : r = val f).
    { destruct (Rle_dec r (bpow 128)) as [Hle|Hgt].
      - rewrite Rmin_left in Hv by lra. auto.
      - rewrite Rmin_right in Hv by lra. lra. }
    destruct R' as [N' [[Hx' ->]|[Hx' (r' & Hr2 & Hv')]]].
    + cbn [val fzero]. pose proof (val_nonneg f). nra.
    + pose proof (rounds_to_scale x r n Hr H1 H2) as Hs.
      pose proof (rounds_to_mono _ _ _ _ H3 Hr2 Hs) as Hm.
      rewrite Hv'. pose proof (Rmin_l r' (bpow 128)). rewrite <- Hr'. lra.
Qed.

Lemma nonneg_below_top_finite f : nonneg f -> (val f < bpow 128)%R -> finite_nonneg f.
Proof.
  intros N H. split; auto. destruct N as [V S].
  destruct f as [[]|[]| |[] m e]; try tauto; auto. cbn [val] in H. lra.
Qed.

Lemma float_1em6_ok :
  finite_nonneg float_1em6 /\ (bpow (-20) <= val float_1em6 <= 1)%R.
Proof.
  split; [split; [split; [reflexivity|exact I]|reflexivity]|].
  cbn [val float_1em6].
  change (-43) with (-23 + -20). rewrite bpow_plus.
  pose proof (bpow_opp 23) as Hb. cbn [Z.opp] in Hb.
  rewrite (bpow_IZR 23) in Hb by lia. change (IZR (2 ^ 23)) with 8388608%R in Hb.
  pose proof (bpow_gt_0 (-23)) as Ht. pose proof (bpow_gt_0 (-20)) as Hu.
  pose proof (bpow_le (-20) (-1) ltac:(lia)) as Hh. rewrite bpow_m1 in Hh.
  set (t := bpow (-23)) in *. set (u := bpow (-20)) in *. clearbody t u.
  assert (Ht' : (8796093 * t = 8796093 / 8388608)%R) by lra.
  replace (8796093 * (t * u))%R with ((8796093 * t) * u)%R by ring.
  rewrite Ht'. lra.
Qed.

Lemma fmul_unit a b :
  finite_nonneg a -> (val a <= 1)%R -> finite_nonneg b -> (val b <= 1)%R ->
  finite_nonneg (fmul a b) /\ (val (fmul a b) <= 1)%R.
Proof.
  intros Fa Va Fb Vb. destruct fone_ok as [O1 O2].
  pose proof (fmul_rounded a b Fa Fb) as R.
  pose proof (val_nonneg a). pose proof (val_nonneg b).
  assert (Hx : (val a * val b <= val fone)%R) by (rewrite O2; nra).
  split; [apply (rounded_finite _ _ _ R O1 Hx)|].
  rewrite <- O2. apply (rounded_upper _ _ _ R (proj1 O1) Hx).
Qed.

Lemma cache_value_ok c : nonneg_upto fone c = true -> finite_nonneg c /\ (val c <= 1)%R.
Proof.
  intro H. destruct fone_ok as [O1 O2]. rewrite <- O2.
  apply nonneg_upto_spec; auto. apply O1.
Qed.

Lemma bilateral_weight_unit g p1 p2 rgb :
  cache_ok g ->
  finite_nonneg (bilateral_weight g p1 p2 rgb) /\ (val (bilateral_weight g p1 p2 rgb) <= 1)%R.
Proof.
  intro H. unfold bilateral_weight.
  repeat match goal with
  | |- finite_nonneg (fmul _ _) /\ _ => apply fmul_unit
  | |- finite_nonneg (distExpCache_ g ?k) => apply (cache_value_ok _ (proj1 (H k)))
  | |- (val (distExpCache_ g ?k) <= 1)%R => apply (cache_value_ok _ (proj1 (H k)))
  | |- finite_nonneg (colorExpCache_ g ?k) => apply (cache_value_ok _ (proj2 (H k)))
  | |- (val (colorExpCache_ g ?k) <= 1)%R => apply (cache_value_ok _ (proj2 (H k)))
  | |- finite_nonneg (fmul ?a ?b) =>
      assert (finite_nonneg (fmul a b) /\ (val (fmul a b) <= 1)%R) as [? ?]; [|assumption]
  | |- (val (fmul ?a ?b) <= 1)%R =>
      assert (finite_nonneg (fmul a b) /\ (val (fmul a b) <= 1)%R) as [? ?]; [|assumption]
  end.
Qed.

Lemma floored_weight_ok g rgb x y mn :
  cache_ok g ->
  finite_nonneg (floored_weight g rgb x y mn) /\
  (val float_1em6 <= val (floored_weight g rgb x y mn) <= 1)%R.
Proof.
  intro H. unfold floored_weight, floor_at_1em6.
  destruct (bilateral_weight_unit g (mkPoint x y) (mkPoint (fst mn) (snd mn)) rgb H) as [Fw Vw].
  destruct float_1em6_ok as [F6 V6].
  destruct (fle float_1em6 _) eqn:E.
  - apply (fle_nonneg _ _ (proj1 F6) (proj1 Fw)) in E. split; auto.
  - split; auto. lra.
Qed.

Lemma depth_known_in_range a b D n m :
  -126 <= a -> b <= 127 -> a <= b ->
  depths_in_range a b D = true ->
  feq (depth_at D n m) fzero = false ->
  finite_nonneg (depth_at D n m) /\ (bpow a <= val (depth_at D n m) <= bpow b)%R.
Proof.
  intros Ha Hb Hab H Hk. unfold depths_in_range in H. rewrite forallb_forall in H.
  unfold depth_at, mat_at in *.
  destruct (nth_in_or_default (mat_index D n m) (elems D) fzero) as [Hin | Hd].
  - specialize (H _ Hin). unfold depth_in_range in H. rewrite Hk in H. cbn [orb] in H.
    apply andb_prop in H. destruct H as [H1 H2].
    destruct (pow2_ok a ltac:(lia)) as [[Pa _] Va].
    destruct (pow2_ok b ltac:(lia)) as [[Pb _] Vb].
    destruct (nonneg_upto_spec _ _ Pb H1) as [F U]. split; auto.
    apply (fle_nonneg _ _ Pa (proj1 F)) in H2. lra.
  - rewrite Hd in Hk. discriminate.
Qed.

Lemma rounds_to_tie_24 : rounds_to (bpow 24 + 1) (bpow 24).
Proof.
  exists 25, 8388608. change (25 - 1) with 24.
  assert (F : fexp32 25 = 1) by reflexivity. rewrite F.
  rewrite (bpow_IZR 24), (bpow_IZR 25), bpow_1 by lia.
  change (- (1)) with (-1). rewrite bpow_m1.
  change (IZR (2 ^ 24)) with 16777216%R. change (IZR (2 ^ 25)) with 33554432%R.
  split; [lra|]. split; [|lra].
  right. split; [left; lra|reflexivity].
Qed.

Lemma rounded_le_pow24 f x : rounded f x -> (x <= bpow 24 + 1)%R -> (val f <= bpow 24)%R.
Proof.
  intros [N [[Hx ->]|[Hx (r & Hr & Hv)]]] H.
  - cbn [val fzero]. pose proof (bpow_gt_0 24). lra.
  - pose proof (rounds_to_mono _ _ _ _ H Hr rounds_to_tie_24).
    pose proof (Rmin_l r (bpow 128)). lra.
Qed.

Lemma weights_inv_step sw w :
  weights_inv sw -> weight_in_range w ->
  weights_inv (fadd sw w) /\ (val sw <= val (fadd sw w))%R.
Proof.
  intros [Fs Vs] [Fw Vw].
  pose proof (fadd_rounded sw w Fs Fw) as R.
  assert (V : (val (fadd sw w) <= bpow 24)%R) by (apply (rounded_le_pow24 _ _ R); lra).
  split; [split; auto|].
  - apply nonneg_below_top_finite; [apply (rounded_nonneg _ _ R)|].
    pose proof (bpow_lt 24 128 ltac:(lia)). lra.
  - apply (rounded_lower _ _ _ R (proj1 Fs)). pose proof (val_nonneg w). lra.
Qed.

Lemma weight_sum_inv g C x y l sw :
  cache_ok g -> weights_inv sw ->
  weights_inv (weight_sum g C x y l sw) /\ (val sw <= val (weight_sum g C x y l sw))%R.
Proof.
  intro Hg. revert sw. induction l as [|mn l IH]; intros sw Hs; cbn [weight_sum fold_left].
  - split; auto. lra.
  - destruct (weights_inv_step sw _ Hs (floored_weight_ok g C x y mn Hg)) as [H1 H2].
    destruct (IH _ H1) as [H3 H4]. split; auto.
    unfold weight_sum in *. lra.
Qed.

Lemma weights_inv_fzero : weights_inv fzero.
Proof.
  split; [split; [apply nonneg_fzero|reflexivity]|].
  cbn [val fzero]. pose proof (bpow_gt_0 24). lra.
Qed.

Lemma floor_step_lower c sw w :
  finite_nonneg c -> weights_inv sw -> weight_in_range w -> (val c <= val sw)%R ->
  (val (fadd c float_1em6) <= val (fadd sw w))%R.
Proof.
  intros Fc [Fs _] [Fw Vw] H.
  apply (rounded_mono _ _ _ _ (fadd_rounded c _ Fc (proj1 float_1em6_ok))
                      (fadd_rounded sw w Fs Fw)). lra.
Qed.

Lemma weight_sum_four g C x y l :
  cache_ok g -> (4 <= List.length l)%nat ->
  (val four_weight_floors <= val (weight_sum g C x y l fzero))%R.
Proof.
  intros Hg Hl.
  destruct l as [|m1 [|m2 [|m3 [|m4 l]]]]; cbn [List.length] in Hl; try lia.
  cbn [weight_sum fold_left].
  pose proof (floored_weight_ok g C x y m1 Hg) as W1.
  pose proof (floored_weight_ok g C x y m2 Hg) as W2.
  pose proof (floored_weight_ok g C x y m3 Hg) as W3.
  pose proof (floored_weight_ok g C x y m4 Hg) as W4.
  set (w1 := floored_weight g C x y m1) in *. set (w2 := floored_weight g C x y m2) in *.
  set (w3 := floored_weight g C x y m3) in *. set (w4 := floored_weight g C x y m4) in *.
  destruct (weights_inv_step _ _ weights_inv_fzero W1) as [I1 _].
  destruct (weights_inv_step _ _ I1 W2) as [I2 _].
  destruct (weights_inv_step _ _ I2 W3) as [I3 _].
  destruct (weights_inv_step _ _ I3 W4) as [I4 _].
  assert (FN : forall f, valid f = true -> is_finite f = true ->
                         match f with S754_zero false | S754_finite false _ _ => True | _ => False end ->
                         finite_nonneg f).
  { intros f V Fi S. split; [split; auto|auto]. destruct f as [[]|[]| |[] ? ?]; tauto. }
  assert (L1 : (val (fadd fzero float_1em6) <= val (fadd fzero w1))%R).
  { apply floor_step_lower; auto using weights_inv_fzero.
    - split; [apply nonneg_fzero|reflexivity].
    - lra. }
  assert (L2 : (val (fadd (fadd fzero float_1em6) float_1em6) <= val (fadd (fadd fzero w1) w2))%R).
  { apply floor_step_lower; auto. apply FN; vm_compute; auto. }
  assert (L3 : (val (fadd (fadd (fadd fzero float_1em6) float_1em6) float_1em6)
                <= val (fadd (fadd (fadd fzero w1) w2) w3))%R).
  { apply floor_step_lower; auto. apply FN; vm_compute; auto. }
  assert (L4 : (val (fadd (fadd (fadd (fadd fzero float_1em6) float_1em6) float_1em6) float_1em6)
                <= val (fadd (fadd (fadd (fadd fzero w1) w2) w3) w4))%R).
  { apply floor_step_lower; auto. apply FN; vm_compute; auto. }
  replace (fadd (fadd (fadd (fadd fzero float_1em6) float_1em6) float_1em6) float_1em6)
    with four_weight_floors in L4 by (vm_compute; reflexivity).
  destruct (weight_sum_inv g C x y l _ Hg I4) as [_ G]. unfold weight_sum in G. lra.
Qed.

Lemma sums_inv_finite a b sw sv :
  b <= 100 -> sums_inv a b sw sv -> finite_nonneg sv.
Proof.
  intros Hb ([Fs Vs] & N & H). apply nonneg_below_top_finite; auto.
  pose proof (bpow_le b 100 Hb). pose proof (bpow_lt 124 128 ltac:(lia)).
  pose proof (bpow_plus 24 100) as P. change (24 + 100) with 124 in P.
  pose proof (bpow_gt_0 b). pose proof (bpow_gt_0 24). pose proof (val_nonneg sw).
  assert ((val sw * bpow b <= bpow 24 * bpow 100)%R) by (apply Rmult_le_compat; lra).
  lra.
Qed.

Lemma sums_inv_step a b sw sv w d :
  -100 <= a -> a <= b -> b <= 100 ->
  sums_inv a b sw sv -> weight_in_range w ->
  finite_nonneg d -> (bpow a <= val d <= bpow b)%R ->
  sums_inv a b (fadd sw w) (fadd sv (fmul w d)).
Proof.
  intros Ha Hab Hb I W Fd Vd.
  pose proof (sums_inv_finite a b sw sv Hb I) as Fv.
  destruct I as (Is & Nv & Hv). destruct (weights_inv_step sw w Is W) as [Is' _].
  destruct Is as [Fs Vs]. destruct W as [Fw Vw].
  destruct float_1em6_ok as [_ V6].
  pose proof (bpow_gt_0 a) as A0. pose proof (bpow_gt_0 b) as B0.
  pose proof (bpow_gt_0 (-126)) as L0.
  pose proof (bpow_le (-126) (-20) ltac:(lia)) as E0.
  assert (Ea : (bpow (-126) <= bpow (-20) * bpow a)%R).
  { rewrite <- bpow_plus. apply bpow_le. lia. }
  assert (Eb : (bpow (-126) <= bpow (-20) * bpow b)%R).
  { rewrite <- bpow_plus. apply bpow_le. lia. }
  assert (Ta : (bpow 24 * bpow a <= bpow 128)%R).
  { rewrite <- bpow_plus. apply bpow_le. lia. }
  assert (T1 : (1 < bpow 128)%R).
  { rewrite <- bpow_0. apply bpow_lt. lia. }
  pose proof (val_nonneg sw) as S0. pose proof (val_nonneg sv) as V0.
  assert (Wu : (bpow (-20) <= val w)%R) by lra.
  assert (WA : (bpow (-126) <= val w * bpow a)%R).
  { apply Rle_trans with (bpow (-20) * bpow a)%R; auto. apply Rmult_le_compat_r; lra. }
  assert (WB : (bpow (-126) <= val w * bpow b)%R).
  { apply Rle_trans with (bpow (-20) * bpow b)%R; auto. apply Rmult_le_compat_r; lra. }
  pose proof (fmul_rounded w d Fw Fd) as Rp.
  assert (Fp : finite_nonneg (fmul w d)).
  { destruct (pow2_ok b ltac:(lia)) as [Pb Vb].
    apply (rounded_finite _ _ _ Rp Pb). rewrite Vb.
    pose proof (val_nonneg d). pose proof (val_nonneg w).
    apply Rle_trans with (1 * bpow b)%R; [|lra]. apply Rmult_le_compat; lra. }
  assert (PA : (val w * bpow a <= val (fmul w d))%R).
  { apply (rounded_scale_lower w (val w) (fmul w d) (val w * val d) a
             (rounded_self w (proj1 Fw)) Rp); try lra.
    - apply Rmult_le_compat_l; lra.
    - apply Rle_trans with (1 * bpow a)%R; [apply Rmult_le_compat_r; lra|].
      pose proof (bpow_le 0 24 ltac:(lia)) as Q. rewrite bpow_0 in Q.
      apply Rle_trans with (bpow 24 * bpow a)%R; [apply Rmult_le_compat_r; lra|lra]. }
  assert (PB : (val (fmul w d) <= val w * bpow b)%R).
  { apply (rounded_scale_upper w (val w) (fmul w d) (val w * val d) b
             (rounded_self w (proj1 Fw)) Rp); try lra.
    apply Rmult_le_compat_l; lra. }
  pose proof (fadd_rounded sw w Fs Fw) as Rw.
  pose proof (fadd_rounded sv _ Fv Fp) as Rv.
  destruct Is' as [Fs' Vs'].
  assert (XA : (bpow (-126) <= (val sw + val w) * bpow a)%R).
  { apply Rle_trans with (val w * bpow a)%R; auto. apply Rmult_le_compat_r; lra. }
  assert (XB : (bpow (-126) <= (val sw + val w) * bpow b)%R).
  { apply Rle_trans with (val w * bpow b)%R; auto. apply Rmult_le_compat_r; lra. }
  split; [split; auto|]. split; [apply (rounded_nonneg _ _ Rv)|]. split.
  - apply (rounded_scale_lower _ _ _ _ a Rw Rv); try lra.
    apply Rle_trans with (bpow 24 * bpow a)%R; auto. apply Rmult_le_compat_r; lra.
  - apply (rounded_scale_upper _ _ _ _ b Rw Rv); try lra.
    pose proof (bpow_lt 24 128 ltac:(lia)). lra.
Qed.

Lemma sums_inv_fold g D C x y a b l sw sv :
  cache_ok g -> -100 <= a -> a <= b -> b <= 100 ->
  depths_in_range a b D = true ->
  (forall mn, In mn l -> feq (depth_at D (snd mn) (fst mn)) fzero = false) ->
  sums_inv a b sw sv ->
  sums_inv a b (weight_sum g C x y l sw) (value_sum g D C x y l sv).
Proof.
  intros Hg Ha Hab Hb HD. revert sw sv.
  induction l as [|mn l IH]; intros sw sv Hk I; cbn [weight_sum value_sum fold_left]; auto.
  apply IH; [intros; apply Hk; right; auto|].
  destruct (depth_known_in_range a b D (snd mn) (fst mn) ltac:(lia) ltac:(lia) Hab HD
              (Hk mn (or_introl eq_refl))) as [Fd Vd].
  apply sums_inv_step; auto. apply floored_weight_ok; auto.
Qed.

Lemma known_window_known g D x y mn :
  In mn (known_window g D x y) -> feq (depth_at D (snd mn) (fst mn)) fzero = false.
Proof.
  unfold known_window. intro H.
  apply in_flat_map in H. destruct H as (n & _ & H).
  apply in_flat_map in H. destruct H as (m & _ & H).
  destruct (feq (depth_at D n m) fzero) eqn:E; [destruct H|].
  destruct H as [<-|[]]. exact E.
Qed.

Lemma PredictDepth_Ok g D C x y :
  cols D = cols C -> rows D = rows C -> channels C = 3 ->
  PredictDepth g D C x y =
  Ok (if count (bilateral_sums g D C x y) <=? 3 then fzero
      else fdiv (sumValues (bilateral_sums g D C x y))
                (sumWeights (bilateral_sums g D C x y))).
Proof.
  intros Hc Hr Hch. unfold PredictDepth. rewrite Hc, Hr, !Z.eqb_refl. cbn [assert bind].
  rewrite (PredictDepth_loops_known g D C x y Hch). cbn [bind].
  destruct (count (bilateral_sums g D C x y) <=? 3); reflexivity.
Qed.

Lemma bilateral_sums_bounds g D C x y a b :
  cache_ok g -> -100 <= a -> a <= b -> b <= 100 ->
  depths_in_range a b D = true ->
  3 < count (bilateral_sums g D C x y) ->
  finite_nonneg (sumWeights (bilateral_sums g D C x y)) /\
  (val four_weight_floors <= val (sumWeights (bilateral_sums g D C x y)))%R /\
  finite_nonneg (fdiv (sumValues (bilateral_sums g D C x y))
                      (sumWeights (bilateral_sums g D C x y))) /\
  (bpow a <= val (fdiv (sumValues (bilateral_sums g D C x y))
                       (sumWeights (bilateral_sums g D C x y))) <= bpow b)%R.
Proof.
  intros Hg Ha Hab Hb HD Hn.
  unfold bilateral_sums in *. rewrite fold_add_known in *.
  cbn [sumWeights sumValues count Sums_init] in *.
  set (l := known_window g D x y) in *.
  assert (I0 : sums_inv a b fzero fzero).
  { split; [apply weights_inv_fzero|]. split; [apply nonneg_fzero|]. cbn [val fzero]. lra. }
  pose proof (sums_inv_fold g D C x y a b l fzero fzero Hg Ha Hab Hb HD
                (fun mn H => known_window_known g D x y mn H) I0) as I.
  pose proof (sums_inv_finite _ _ _ _ Hb I) as Fv.
  destruct I as ([Fs Vs] & Nv & Hv).
  pose proof (weight_sum_four g C x y l Hg ltac:(lia)) as H4.
  set (sw := weight_sum g C x y l fzero) in *.
  set (sv := value_sum g D C x y l fzero) in *.
  assert (P4 : (0 < val four_weight_floors)%R).
  { cbn [val four_weight_floors]. pose proof (bpow_gt_0 (-41)). lra. }
  assert (Hpos : (0 < val sw)%R) by lra.
  pose proof (fdiv_rounded sv sw Fv Fs Hpos) as Rq.
  destruct (pow2_ok a ltac:(lia)) as [[Pa _] Va].
  destruct (pow2_ok b ltac:(lia)) as [Pb Vb].
  pose proof (bpow_gt_0 a). pose proof (bpow_gt_0 b).
  assert (Q : (bpow a <= val sv / val sw <= bpow b)%R).
  { split.
    - apply (Rmult_le_reg_r (val sw)); auto. unfold Rdiv.
      rewrite Rmult_assoc, Rinv_l by lra. lra.
    - apply (Rmult_le_reg_r (val sw)); auto. unfold Rdiv.
      rewrite Rmult_assoc, Rinv_l by lra. lra. }
  split; [exact Fs|]. split; [exact H4|]. split; [|split].
  - apply (rounded_finite _ _ _ Rq Pb). lra.
  - rewrite <- Va. apply (rounded_lower _ _ _ Rq Pa). lra.
  - rewrite <- Vb. apply (rounded_upper _ _ _ Rq (proj1 Pb)). lra.
Qed.


(** ** The bilateral mean against the least and the largest known depth *)

Lemma is_rne_half y k : is_rne y k -> (y - / 2 <= IZR k <= y + / 2)%R.
Proof. intros [H|[[H|H] _]]; lra. Qed.

(** Rounding to nearest in the normal range has relative error at most
    [2^-24]. *)
Lemma rounds_to_rel x r :
  rounds_to x r -> (bpow (-126) <= x)%R ->
  (x * (1 - bpow (-24)) <= r <= x * (1 + bpow (-24)))%R.
Proof.
  intros (g & k & Hg & Hk & ->) Hx.
  assert (G : -126 < g) by (apply bpow_lt_inv; lra).
  assert (F : fexp32 g = g - 24) by (unfold fexp32; lia).
  rewrite F in *. apply is_rne_half in Hk.
  pose proof (bpow_opp (g - 24)) as Ho.
  pose proof (bpow_gt_0 (g - 24)) as E0.
  pose proof (bpow_plus (g - 1) (-23)) as P1. replace (g - 1 + -23) with (g - 24) in P1 by lia.
  pose proof (bpow_double (-24)) as P2. change (-24 + 1) with (-23) in P2.
  pose proof (bpow_gt_0 (g - 1)) as G0. pose proof (bpow_gt_0 (-24)) as U0.
  set (E := bpow (g - 24)) in *. set (t := bpow (- (g - 24))) in *.
  set (u := bpow (-24)) in *. set (b := bpow (g - 1)) in *.
  assert (YE : (x * t * E = x)%R) by (rewrite Rmult_assoc, Ho; ring).
  assert (HE : (E = 2 * (b * u))%R) by (rewrite P1, P2; ring).
  assert (BU : (b * u <= x * u)%R) by (apply Rmult_le_compat_r; lra).
  clearbody E t u b.
  assert (L : ((x * t - / 2) * E <= IZR k * E)%R) by (apply Rmult_le_compat_r; lra).
  assert (U : (IZR k * E <= (x * t + / 2) * E)%R) by (apply Rmult_le_compat_r; lra).
  replace ((x * t - / 2) * E)%R with (x * t * E - E / 2)%R in L by field.
  replace ((x * t + / 2) * E)%R with (x * t * E + E / 2)%R in U by field.
  rewrite YE in L, U. lra.
Qed.

Lemma rounded_rel f x :
  rounded f x -> (x = 0 \/ bpow (-126) <= x)%R -> (x <= bpow 128)%R ->
  (x * (1 - bpow (-24)) <= val f <= x * (1 + bpow (-24)))%R.
Proof.
  intros [N [[Hx ->]|[Hx (r & Hr & Hv)]]] H0 HT.
  - subst x. cbn [val fzero]. lra.
  - destruct H0 as [H0|H0]; [lra|].
    destruct (rounds_to_rel x r Hr H0) as [L U].
    pose proof (bpow_gt_0 (-24)) as U0.
    rewrite Hv. split.
    + apply Rmin_glb; [exact L|]. nra.
    + pose proof (Rmin_l r (bpow 128)). lra.
Qed.

Lemma unit_roundoff_bounds : (0 < bpow (-24) < 1)%R.
Proof.
  split; [apply bpow_gt_0|]. rewrite <- bpow_0. apply bpow_lt. lia.
Qed.

Lemma pow_below_one a n : (0 < a <= 1)%R -> (0 < a ^ n <= 1)%R.
Proof.
  intro H. induction n as [|n IH]; cbn [pow]; [lra|]. nra.
Qed.

Lemma pow_above_one b n : (1 <= b)%R -> (1 <= b ^ n)%R.
Proof.
  intro H. induction n as [|n IH]; cbn [pow]; [lra|]. nra.
Qed.

Lemma rel_sums_inv_step lo hi j sw sv w d :
  (bpow (-100) <= lo)%R -> (hi <= bpow 100)%R ->
  sums_inv (-100) 100 sw sv -> weight_in_range w ->
  finite_nonneg d -> (lo <= val d <= hi)%R ->
  rel_sums_inv lo hi j sw sv ->
  rel_sums_inv lo hi (S j) (fadd sw w) (fadd sv (fmul w d)).
Proof.
  intros Hlo Hhi I W Fd Vd [IL IU].
  pose proof (sums_inv_finite (-100) 100 sw sv ltac:(lia) I) as Fv.
  destruct I as ((Fs & Vs) & Nv & Hv). destruct W as [Fw Vw].
  destruct float_1em6_ok as [_ V6]. destruct unit_roundoff_bounds as [U0 U1].
  pose proof (val_nonneg sw) as S0. pose proof (val_nonneg sv) as V0.
  pose proof (bpow_gt_0 (-100)) as L0. pose proof (bpow_gt_0 (-126)) as T0.
  assert (Wu : (bpow (-20) <= val w)%R) by lra.
  pose proof (bpow_gt_0 (-20)) as W0.
  (* the three roundings *)
  assert (Rw : ((val sw + val w) * (1 - bpow (-24)) <= val (fadd sw w)
                <= (val sw + val w) * (1 + bpow (-24)))%R).
  { apply (rounded_rel _ _ (fadd_rounded sw w Fs Fw)).
    - right. pose proof (bpow_le (-126) (-20) ltac:(lia)). lra.
    - pose proof (bpow_double 24) as D1. change (24 + 1) with 25 in D1.
      pose proof (bpow_lt 25 128 ltac:(lia)). pose proof (bpow_ge_1 24 ltac:(lia)). lra. }
  assert (Xp : (bpow (-126) <= val w * val d <= bpow 100)%R).
  { split.
    - apply Rle_trans with (bpow (-20) * bpow (-100))%R.
      + rewrite <- bpow_plus. apply bpow_le. lia.
      + apply Rmult_le_compat; lra.
    - apply Rle_trans with (1 * bpow 100)%R; [|lra].
      apply Rmult_le_compat; lra. }
  assert (Rp : (val w * val d * (1 - bpow (-24)) <= val (fmul w d)
                <= val w * val d * (1 + bpow (-24)))%R).
  { apply (rounded_rel _ _ (fmul_rounded w d Fw Fd)).
    - right. lra.
    - pose proof (bpow_lt 100 128 ltac:(lia)). lra. }
  assert (Fp : finite_nonneg (fmul w d)).
  { destruct (pow2_ok 100 ltac:(lia)) as [Pb Vb].
    apply (rounded_finite _ _ _ (fmul_rounded w d Fw Fd) Pb). rewrite Vb. lra. }
  pose proof (val_nonneg (fmul w d)) as P0.
  assert (Pl : (bpow (-126) <= val (fmul w d))%R).
  { destruct (pow2_ok (-126) ltac:(lia)) as [[Pa _] Va]. rewrite <- Va.
    apply (rounded_lower _ _ _ (fmul_rounded w d Fw Fd) Pa). rewrite Va. lra. }
  assert (Pu : (val (fmul w d) <= bpow 100)%R).
  { destruct (pow2_ok 100 ltac:(lia)) as [[Pb _] Vb]. rewrite <- Vb.
    apply (rounded_upper _ _ _ (fmul_rounded w d Fw Fd) Pb). rewrite Vb. lra. }
  assert (Sv : (val sv <= bpow 124)%R).
  { pose proof (bpow_plus 24 100) as P. change (24 + 100) with 124 in P.
    pose proof (bpow_gt_0 100). pose proof (bpow_gt_0 24).
    apply Rle_trans with (val sw * bpow 100)%R; [lra|].
    rewrite P. apply Rmult_le_compat_r; lra. }
  assert (Rv : ((val sv + val (fmul w d)) * (1 - bpow (-24)) <= val (fadd sv (fmul w d))
                <= (val sv + val (fmul w d)) * (1 + bpow (-24)))%R).
  { apply (rounded_rel _ _ (fadd_rounded sv _ Fv Fp)).
    - right. lra.
    - pose proof (bpow_double 124) as B1. pose proof (bpow_lt 125 128 ltac:(lia)) as B2.
      change (124 + 1) with 125 in B1.
      pose proof (bpow_le 100 124 ltac:(lia)). lra. }
  (* the step *)
  unfold rel_sums_inv in *.
  replace (S j + 1)%nat with (S (j + 1)) by lia.
  replace (j + 1)%nat with (S j) in * by lia. cbn [pow] in *.
  destruct (pow_below_one (1 - bpow (-24)) j ltac:(lra)) as [A0 A1].
  pose proof (pow_above_one (1 + bpow (-24)) j ltac:(lra)) as B1.
  set (a := (1 - bpow (-24))%R) in *. set (b := (1 + bpow (-24))%R) in *.
  set (A := (a ^ j)%R) in *. set (B := (b ^ j)%R) in *.
  set (s := val sw) in *. set (v := val sv) in *. set (ww := val w) in *.
  set (dd := val d) in *. set (p := val (fmul w d)) in *.
  set (s' := val (fadd sw w)) in *. set (v' := val (fadd sv (fmul w d))) in *.
  assert (a0 : (0 < a < 1)%R) by (unfold a; lra).
  assert (b0 : (1 < b)%R) by (unfold b; lra).
  clearbody a b A B s v ww dd p s' v'.
  assert (lo0 : (0 < lo)%R) by lra.
  assert (hi0 : (0 < hi)%R) by lra.
  split.
  - (* lower bound *)
    assert (H1 : (ww * lo * a * A <= p * B)%R).
    { apply Rle_trans with (p * A)%R.
      - apply Rmult_le_compat_r; [lra|].
        apply Rle_trans with (ww * dd * a)%R; [|lra].
        apply Rmult_le_compat_r; [lra|]. apply Rmult_le_compat_l; lra.
      - apply Rmult_le_compat_l; lra. }
    assert (H2 : (lo * (a * A) * (s + ww) <= (v + p) * B)%R) by lra.
    assert (H3 : (lo * (a * A) * s' <= lo * (a * A) * ((s + ww) * b))%R).
    { apply Rmult_le_compat_l; [|lra].
      apply Rmult_le_pos; [lra|]. apply Rmult_le_pos; lra. }
    assert (H4 : ((v + p) * a * (b * B) <= v' * (b * B))%R).
    { apply Rmult_le_compat_r; [|lra]. apply Rmult_le_pos; lra. }
    assert (H5 : (a * b * (lo * (a * A) * (s + ww)) <= a * b * ((v + p) * B))%R).
    { apply Rmult_le_compat_l; [|lra]. apply Rmult_le_pos; lra. }
    replace (lo * (a * (a * A)) * s')%R with (a * (lo * (a * A) * s'))%R by ring.
    assert (H6 : (a * (lo * (a * A) * s') <= a * (lo * (a * A) * ((s + ww) * b)))%R).
    { apply Rmult_le_compat_l; lra. }
    lra.
  - (* upper bound *)
    assert (H1 : (p * A <= ww * hi * b * B)%R).
    { apply Rle_trans with (p * B)%R.
      - apply Rmult_le_compat_l; lra.
      - apply Rmult_le_compat_r; [lra|].
        apply Rle_trans with (ww * dd * b)%R; [lra|].
        apply Rmult_le_compat_r; [lra|]. apply Rmult_le_compat_l; lra. }
    assert (H2 : ((v + p) * A <= hi * (b * B) * (s + ww))%R) by lra.
    assert (H3 : (hi * (b * B) * ((s + ww) * a) <= hi * (b * B) * s')%R).
    { apply Rmult_le_compat_l; [|lra].
      apply Rmult_le_pos; [lra|]. apply Rmult_le_pos; lra. }
    assert (H4 : (v' * (a * A) <= (v + p) * b * (a * A))%R).
    { apply Rmult_le_compat_r; [|lra]. apply Rmult_le_pos; lra. }
    assert (H5 : (a * b * ((v + p) * A) <= a * b * (hi * (b * B) * (s + ww)))%R).
    { apply Rmult_le_compat_l; [|lra]. apply Rmult_le_pos; lra. }
    replace (hi * (b * (b * B)) * s')%R with (b * (hi * (b * B) * s'))%R by ring.
    assert (H6 : (b * (hi * (b * B) * ((s + ww) * a)) <= b * (hi * (b * B) * s'))%R).
    { apply Rmult_le_compat_l; lra. }
    lra.
Qed.

Lemma rel_sums_inv_fold g D C x y lo hi l j sw sv :
  cache_ok g -> (bpow (-100) <= lo)%R -> (hi <= bpow 100)%R ->
  (forall mn, In mn l ->
              finite_nonneg (depth_at D (snd mn) (fst mn)) /\
              (lo <= val (depth_at D (snd mn) (fst mn)) <= hi)%R) ->
  sums_inv (-100) 100 sw sv -> rel_sums_inv lo hi j sw sv ->
  sums_inv (-100) 100 (weight_sum g C x y l sw) (value_sum g D C x y l sv) /\
  rel_sums_inv lo hi (j + List.length l)
               (weight_sum g C x y l sw) (value_sum g D C x y l sv).
Proof.
  intros Hg Hlo Hhi. revert j sw sv.
  induction l as [|mn l IH]; intros j sw sv Hd I R; cbn [weight_sum value_sum fold_left].
  - cbn [List.length]. replace (j + 0)%nat with j by lia. auto.
  - destruct (Hd mn (or_introl eq_refl)) as [Fd Vd].
    pose proof (floored_weight_ok g C x y mn Hg) as W.
    assert (Vd' : (bpow (-100) <= val (depth_at D (snd mn) (fst mn)) <= bpow 100)%R) by lra.
    pose proof (sums_inv_step (-100) 100 sw sv _ _ ltac:(lia) ltac:(lia) ltac:(lia)
                  I W Fd Vd') as I'.
    pose proof (rel_sums_inv_step lo hi j sw sv _ _ Hlo Hhi I W Fd Vd R) as R'.
    cbn [List.length]. replace (j + S (List.length l))%nat with (S j + List.length l)%nat by lia.
    apply (IH (S j)); auto. intros; apply Hd; right; auto.
Qed.

(** C10 (as the code computes it): with cache values between 0 and 1 and a colour image of
    three channels of the depth image's size, once four known pixels are
    in the window the divisor [sumWeights] is at least four times the floor
    [(float)1e-6], hence positive, the quotient returned is finite, and it
    lies between the least and the largest known depth of the window up to
    the roundings, each of relative error at most [u = 2^-24]: for [lo <=
    depth <= hi] at the [n] known pixels of the window,
    [lo (1-u)^(n+2) / (1+u)^n <= mean <= hi (1+u)^(n+2) / (1-u)^n],
    stated without the divisions. *)
Theorem C10_divisor_and_mean_bounds g D C x y lo hi s :
  cache_ok g ->
  cols D = cols C -> rows D = rows C -> channels C = 3 ->
  (bpow (-100) <= lo)%R -> (hi <= bpow 100)%R ->
  (forall m n, In (m, n) (known_window g D x y) ->
               finite_nonneg (depth_at D n m) /\ (lo <= val (depth_at D n m) <= hi)%R) ->
  PredictDepth_loops g D C x y = Ok s ->
  3 < count s ->
  fle four_weight_floors (sumWeights s) = true /\
  flt fzero (sumWeights s) = true /\
  PredictDepth g D C x y = Ok (fdiv (sumValues s) (sumWeights s)) /\
  finite_nonneg (fdiv (sumValues s) (sumWeights s)) /\
  (lo * (1 - bpow (-24)) ^ (Z.to_nat (count s) + 2)
   <= val (fdiv (sumValues s) (sumWeights s)) * (1 + bpow (-24)) ^ Z.to_nat (count s))%R /\
  (val (fdiv (sumValues s) (sumWeights s)) * (1 - bpow (-24)) ^ Z.to_nat (count s)
   <= hi * (1 + bpow (-24)) ^ (Z.to_nat (count s) + 2))%R.
Proof.
  intros Hg Hc Hr Hch Hlo Hhi Hd Hs Hn.
  rewrite (PredictDepth_loops_known g D C x y Hch) in Hs. injection Hs as <-.
  assert (HP : PredictDepth g D C x y =
               Ok (fdiv (sumValues (bilateral_sums g D C x y))
                        (sumWeights (bilateral_sums g D C x y)))).
  { rewrite (PredictDepth_Ok g D C x y Hc Hr Hch).
    destruct (Z.leb_spec (count (bilateral_sums g D C x y)) 3) as [Hl|Hl];
      [lia|reflexivity]. }
  unfold bilateral_sums in *. rewrite fold_add_known in *.
  cbn [sumWeights sumValues count Sums_init] in *.
  set (l := known_window g D x y) in *.
  replace (Z.to_nat (0 + Z.of_nat (List.length l))) with (List.length l) by lia.
  assert (I0 : sums_inv (-100) 100 fzero fzero).
  { split; [apply weights_inv_fzero|]. split; [apply nonneg_fzero|]. cbn [val fzero]. lra. }
  assert (R0 : rel_sums_inv lo hi 0 fzero fzero).
  { unfold rel_sums_inv. cbn [val fzero]. split; lra. }
  destruct (rel_sums_inv_fold g D C x y lo hi l 0 fzero fzero Hg Hlo Hhi
              (fun mn => match mn with (m, n) => Hd m n end) I0 R0) as [I [RL RU]].
  cbn [Nat.add] in RL, RU.
  pose proof (sums_inv_finite (-100) 100 _ _ ltac:(lia) I) as Fv.
  destruct I as ([Fs Vs] & Nv & Hv).
  pose proof (weight_sum_four g C x y l Hg ltac:(lia)) as H4.
  set (sw := weight_sum g C x y l fzero) in *.
  set (sv := value_sum g D C x y l fzero) in *.
  assert (N4 : nonneg four_weight_floors) by (split; [reflexivity|exact I]).
  assert (P4 : (0 < val four_weight_floors)%R).
  { cbn [val four_weight_floors]. pose proof (bpow_gt_0 (-41)). lra. }
  assert (Hpos : (0 < val sw)%R) by lra.
  pose proof (fdiv_rounded sv sw Fv Fs Hpos) as Rq.
  pose proof (bpow_gt_0 (-100)) as L0. pose proof (bpow_gt_0 100) as L1.
  assert (Q : (bpow (-100) <= val sv / val sw <= bpow 100)%R).
  { split.
    - apply (Rmult_le_reg_r (val sw)); auto. unfold Rdiv.
      rewrite Rmult_assoc, Rinv_l by lra. lra.
    - apply (Rmult_le_reg_r (val sw)); auto. unfold Rdiv.
      rewrite Rmult_assoc, Rinv_l by lra. lra. }
  assert (Rr : (val sv / val sw * (1 - bpow (-24)) <= val (fdiv sv sw)
                <= val sv / val sw * (1 + bpow (-24)))%R).
  { apply (rounded_rel _ _ Rq).
    - right. pose proof (bpow_le (-126) (-100) ltac:(lia)). lra.
    - pose proof (bpow_lt 100 128 ltac:(lia)). lra. }
  assert (Fq : finite_nonneg (fdiv sv sw)).
  { destruct (pow2_ok 100 ltac:(lia)) as [Pb Vb].
    apply (rounded_finite _ _ _ Rq Pb). rewrite Vb. lra. }
  split; [apply (fle_nonneg _ _ N4 (proj1 Fs)); exact H4|].
  split; [apply (flt_nonneg _ _ nonneg_fzero (proj1 Fs)); cbn [val fzero]; lra|].
  split; [exact HP|]. split; [exact Fq|].
  destruct unit_roundoff_bounds as [U0 U1].
  set (n := List.length l) in *.
  replace (n + 2)%nat with (S (n + 1)) by lia. cbn [pow].
  destruct (pow_below_one (1 - bpow (-24)) n ltac:(lra)) as [A0 A1].
  destruct (pow_below_one (1 - bpow (-24)) (n + 1) ltac:(lra)) as [A2 A3].
  pose proof (pow_above_one (1 + bpow (-24)) n ltac:(lra)) as B1.
  pose proof (pow_above_one (1 + bpow (-24)) (n + 1) ltac:(lra)) as B2.
  set (a := (1 - bpow (-24))%R) in *. set (b := (1 + bpow (-24))%R) in *.
  set (q := val (fdiv sv sw)) in *. set (r := (val sv / val sw)%R) in *.
  assert (Er : (r * val sw = val sv)%R).
  { unfold r, Rdiv. rewrite Rmult_assoc, Rinv_l by lra. ring. }
  assert (a0 : (0 < a < 1)%R) by (unfold a; lra).
  assert (b0 : (1 < b)%R) by (unfold b; lra).
  rewrite <- Er in RL, RU.
  assert (RL' : (lo * a ^ (n + 1) <= r * b ^ n)%R).
  { apply (Rmult_le_reg_r (val sw)); [exact Hpos|]. lra. }
  assert (RU' : (r * a ^ n <= hi * b ^ (n + 1))%R).
  { apply (Rmult_le_reg_r (val sw)); [exact Hpos|]. lra. }
  set (An := (a ^ n)%R) in *. set (Bn := (b ^ n)%R) in *.
  set (An1 := (a ^ (n + 1))%R) in *. set (Bn1 := (b ^ (n + 1))%R) in *.
  clearbody a b q r An Bn An1 Bn1.
  split.
  - assert (H1 : (a * (lo * An1) <= a * (r * Bn))%R) by (apply Rmult_le_compat_l; lra).
    assert (H2 : (r * a * Bn <= q * Bn)%R) by (apply Rmult_le_compat_r; lra).
    lra.
  - assert (H1 : (b * (r * An) <= b * (hi * Bn1))%R) by (apply Rmult_le_compat_l; lra).
    assert (H2 : (q * An <= r * b * An)%R) by (apply Rmult_le_compat_r; lra).
    lra.
Qed.

(** ** Termination of the propagation loop *)

Lemma level_upto_bounds n s : 0 <= level_upto n s <= Z.of_nat n.
Proof.
  induction n as [|n IH]; [cbn; lia|].
  cbn [level_upto]. destruct (fle s _); lia.
Qed.

Lemma level_upto_ge n s j :
  fle s (float_of_int (- j)) = true -> 1 <= j <= Z.of_nat n -> j <= level_upto n s.
Proof.
  induction n as [|n IH]; intros H Hj; [lia|].
  cbn [level_upto]. destruct (fle s (float_of_int (- Z.of_nat (S n)))) eqn:E; [lia|].
  destruct (Z.eq_dec j (Z.of_nat (S n))) as [->|Hne]; [congruence|].
  apply IH; auto. lia.
Qed.

Lemma level_upto_hit n s :
  1 <= level_upto n s -> fle s (float_of_int (- level_upto n s)) = true.
Proof.
  induction n as [|n IH]; [cbn; lia|].
  cbn [level_upto]. destruct (fle s (float_of_int (- Z.of_nat (S n)))) eqn:E; auto.
Qed.

Lemma level_bounds s : 0 <= level s <= 21.
Proof. apply (level_upto_bounds 21 s). Qed.

Lemma level_defer s :
  nonpos s -> flt s (float_of_int (-20)) = false ->
  level s + 1 <= level (fsub s (float_of_int 1)).
Proof.
  intros N H20. destruct (fsub_one_spec s N) as [N' Hc].
  destruct (Z.eq_dec (level s) 0) as [H0|H0].
  - rewrite H0. apply (level_upto_ge 21); [|lia].
    apply fsub_one_le_minus_one; auto.
  - pose proof (level_bounds s) as B.
    assert (Hk : 1 <= level s) by lia.
    pose proof (level_upto_hit 21 s Hk) as Hit. fold (level s) in Hit.
    apply (fle_minus_int s (level s) N ltac:(lia)) in Hit.
    assert (H20' : (absval s <= 20)%R).
    { destruct (Rle_dec (absval s) 20) as [|Hgt]; auto.
      assert (Hlt : (IZR 20 < absval s)%R) by lra.
      apply (flt_minus_int s 20 N ltac:(lia)) in Hlt. cbn [Z.opp] in Hlt. congruence. }
    assert (K20 : level s <= 20).
    { apply le_IZR. lra. }
    apply (level_upto_ge 21); [|lia].
    apply (fle_minus_int _ (level s + 1) N' ltac:(lia)).
    destruct (float_of_int_nonneg (level s + 1) ltac:(lia)) as [[Nc _] Vc].
    rewrite <- Vc. apply Hc; auto. rewrite Vc, plus_IZR. lra.
Qed.

Lemma item_weight_pos it : 1 <= item_weight it <= 5 ^ 21.
Proof.
  unfold item_weight. pose proof (level_bounds (fst it)).
  split.
  - assert (0 < 5 ^ (21 - level (fst it))) by (apply Z.pow_pos_nonneg; lia). lia.
  - apply Z.pow_le_mono_r; lia.
Qed.

Lemma item_weight_defer s p :
  nonpos s -> flt s (float_of_int (-20)) = false ->
  5 * item_weight (fsub s (float_of_int 1), p) <= item_weight (s, p).
Proof.
  intros N H. unfold item_weight; cbn [fst].
  pose proof (level_defer s N H). pose proof (level_bounds s).
  pose proof (level_bounds (fsub s (float_of_int 1))).
  replace (21 - level s) with (Z.succ (20 - level s)) by lia.
  rewrite Z.pow_succ_r by lia.
  assert (5 ^ (21 - level (fsub s (float_of_int 1))) <= 5 ^ (20 - level s))
    by (apply Z.pow_le_mono_r; lia).
  lia.
Qed.

Lemma band_weight_perm h h' : Permutation h h' -> band_weight h = band_weight h'.
Proof.
  unfold band_weight. induction 1; cbn [fold_right] in *; try lia.
Qed.

Lemma band_weight_nonneg h : 0 <= band_weight h.
Proof.
  unfold band_weight. induction h as [|it h IH]; cbn [fold_right] in *; [lia|].
  pose proof (item_weight_pos it). lia.
Qed.

Lemma band_weight_cons it h : band_weight (it :: h) = item_weight it + band_weight h.
Proof. reflexivity. Qed.

Lemma band_measure_mk D h :
  band_measure (mkBand D h) = (5 ^ 21 + 1) * unknown_count D + band_weight h.
Proof. reflexivity. Qed.

Lemma filter_set_nth_count (A : Type) (f : A -> bool) (l : list A) (i : nat) (v d : A) :
  (i < List.length l)%nat -> f (nth i l d) = true ->
  Z.of_nat (List.length (filter f (set_nth l i v))) =
  Z.of_nat (List.length (filter f l)) - (if f v then 0 else 1).
Proof.
  revert i. induction l as [|h t IH]; intros [|i] Hi Hf; cbn [List.length] in Hi; try lia.
  - cbn [nth] in Hf. cbn [set_nth filter]. rewrite Hf.
    destruct (f v); cbn [List.length]; lia.
  - cbn [nth] in Hf. cbn [set_nth filter].
    specialize (IH i ltac:(lia) Hf).
    destruct (f h); cbn [List.length]; lia.
Qed.

Lemma mat_index_in_bounds (A : Type) (m : Mat A) (y x : Z) :
  mat_wf m -> in_bounds m y x = true -> (mat_index m y x < List.length (elems m))%nat.
Proof.
  intros (Hr & Hc & Hl) Hb. unfold in_bounds in Hb.
  apply andb_prop in Hb. destruct Hb as [Hb H4].
  apply andb_prop in Hb. destruct Hb as [Hb H3].
  apply andb_prop in Hb. destruct Hb as [H1 H2].
  apply Z.leb_le in H1, H2. apply Z.ltb_lt in H3, H4.
  rewrite Hl. unfold mat_index. apply Z2Nat.inj_lt; nia.
Qed.

Lemma mat_wf_mat_set (A : Type) (m : Mat A) (y x : Z) (v : A) :
  mat_wf m -> mat_wf (mat_set m y x v).
Proof.
  intros (Hr & Hc & Hl). unfold mat_wf, mat_set; cbn [rows cols elems].
  rewrite length_set_nth. auto.
Qed.

Lemma unknown_count_mat_set D y x v :
  mat_wf D -> in_bounds D y x = true -> feq (depth_at D y x) fzero = true ->
  unknown_count (mat_set D y x v) =
  unknown_count D - (if feq v fzero then 0 else 1).
Proof.
  intros W B U. unfold unknown_count, mat_set; cbn [elems].
  apply (filter_set_nth_count float (fun v => feq v fzero) (elems D) (mat_index D y x) v fzero).
  - apply mat_index_in_bounds; auto.
  - exact U.
Qed.

Section Termination.

Variable top_pop : BandItem -> list BandItem -> BandItem * list BandItem.
Variable predict : Mat float -> Mat RGB -> Z -> Z -> result float.
Variable rgbImage : Mat RGB.
Variable strength : Mat (Vec3 float).

Lemma visit_neighbour_measure speed position st d st' :
  nonpos speed -> mat_wf (depthImage st) ->
  visit_neighbour predict rgbImage strength speed position st d = Ok st' ->
  mat_wf (depthImage st') /\
  5 * (band_measure st' - band_measure st) <= item_weight (speed, position).
Proof.
  destruct st as [D h]. cbn [depthImage]. intros N W H.
  unfold visit_neighbour in H. cbn [p_x p_y depthImage narrowBand] in H.
  pose proof (item_weight_pos (speed, position)) as HW.
  destruct (in_bounds D (p_y position + p_y d) (p_x position + p_x d)) eqn:B;
    cbn [negb] in H; [|injection H as <-; split; auto; lia].
  destruct (feq (depth_at D (p_y position + p_y d) (p_x position + p_x d)) fzero)
    eqn:U; [|injection H as <-; split; auto; lia].
  destruct (predict _ _ _ _) as [v|e]; cbn [bind] in H; [|discriminate].
  pose proof (unknown_count_mat_set D _ _ v W B U) as HU.
  unfold fne in H. fold (feq v fzero) in H.
  destruct (feq v fzero) eqn:V; cbn [negb] in H.
  - destruct (flt speed (float_of_int (-20))) eqn:F; [discriminate|].
    injection H as <-. split; [apply mat_wf_mat_set; auto|].
    unfold emplace. rewrite !band_measure_mk, band_weight_cons, HU.
    change (binary_round prec emax false 1 0) with (float_of_int 1).
    pose proof (item_weight_defer speed position N F). lia.
  - injection H as <-. split; [apply mat_wf_mat_set; auto|].
    unfold emplace. rewrite !band_measure_mk, band_weight_cons, HU.
    match goal with |- context [item_weight ?it + _] => pose proof (item_weight_pos it) end.
    lia.
Qed.

Lemma visits_measure speed position l st st' :
  nonpos speed -> mat_wf (depthImage st) ->
  fold_result (visit_neighbour predict rgbImage strength speed position) l st = Ok st' ->
  mat_wf (depthImage st') /\
  5 * (band_measure st' - band_measure st) <=
  Z.of_nat (List.length l) * item_weight (speed, position).
Proof.
  intros N. revert st. induction l as [|d l IH]; intros st W H.
  - rewrite fold_result_nil in H. injection H as <-. split; auto. cbn [List.length]. lia.
  - rewrite fold_result_cons in H.
    destruct (visit_neighbour predict rgbImage strength speed position st d) as [st1|e] eqn:E;
      [|discriminate].
    destruct (visit_neighbour_measure _ _ _ _ _ N W E) as [W1 M1].
    destruct (IH _ W1 H) as [W2 M2]. split; auto.
    cbn [List.length]. rewrite Nat2Z.inj_succ. lia.
Qed.

Lemma propagate_step_measure depth it rest st' :
  priority_queue_contract top_pop ->
  mat_wf depth -> band_nonpos (it :: rest) ->
  propagate_step top_pop predict rgbImage strength depth it rest = Ok st' ->
  mat_wf (depthImage st') /\
  band_measure st' < band_measure (mkBand depth (it :: rest)).
Proof.
  intros HQ W HB H. unfold propagate_step in H.
  destruct (HQ it rest) as [HP _].
  destruct (top_pop it rest) as [[speed position] rest'] eqn:E. cbn [fst snd] in HP.
  assert (N : nonpos speed).
  { unfold band_nonpos in HB. rewrite Forall_forall in HB.
    apply (HB (speed, position)). apply (Permutation_in _ (Permutation_sym HP)). left; auto. }
  destruct (visits_measure speed position neighbours (mkBand depth rest') st' N W H) as [W' M].
  split; auto.
  rewrite band_measure_mk in *.
  rewrite (band_weight_perm _ _ HP), band_weight_cons.
  cbn [neighbours List.length] in M.
  pose proof (item_weight_pos (speed, position)). lia.
Qed.

(** An invariant of the loop that implies a well-formed image and
    non-positive priorities, and a property of the errors a step raises
    under it. *)
Variable Inv : Band -> Prop.
Variable Raised : error -> Prop.

Hypothesis queue_fine : priority_queue_contract top_pop.
Hypothesis Inv_wf : forall st, Inv st -> mat_wf (depthImage st) /\ band_nonpos (narrowBand st).
Hypothesis Inv_step :
  forall depth it rest st',
    Inv (mkBand depth (it :: rest)) ->
    propagate_step top_pop predict rgbImage strength depth it rest = Ok st' -> Inv st'.
Hypothesis Raised_step :
  forall depth it rest e,
    Inv (mkBand depth (it :: rest)) ->
    propagate_step top_pop predict rgbImage strength depth it rest = Err e -> Raised e.

Lemma band_measure_nonneg st : 0 <= band_measure st.
Proof.
  unfold band_measure, unknown_count. pose proof (band_weight_nonneg (narrowBand st)). lia.
Qed.

Lemma propagate_terminates_below M :
  0 <= M -> forall st, band_measure st < M -> Inv st ->
  exists fuel,
    (exists e, propagate top_pop predict fuel rgbImage strength st = Some (Err e) /\ Raised e) \/
    (exists img, propagate top_pop predict fuel rgbImage strength st = Some (Ok img) /\
                 Inv (mkBand img [])).
Proof.
  intro HM. pattern M. apply natlike_ind; auto.
  - intros st H. pose proof (band_measure_nonneg st). lia.
  - intros m Hm IH [depth [|it rest]] Hlt HI.
    + exists 1%nat. right. exists depth. split; auto.
    + destruct (propagate_step top_pop predict rgbImage strength depth it rest) as [st'|e] eqn:E.
      * destruct (Inv_wf _ HI) as [W HB]. cbn [depthImage narrowBand] in W, HB.
        destruct (propagate_step_measure depth it rest st' queue_fine W HB E) as [_ Hd].
        destruct (IH st' ltac:(lia) (Inv_step _ _ _ _ HI E)) as [fuel Hf].
        exists (S fuel). cbn [propagate narrowBand depthImage]. rewrite E. exact Hf.
      * exists 1%nat. left. exists e. cbn [propagate narrowBand depthImage]. rewrite E.
        split; auto. apply (Raised_step _ _ _ _ HI E).
Qed.

Lemma propagate_terminates st :
  Inv st ->
  exists fuel,
    (exists e, propagate top_pop predict fuel rgbImage strength st = Some (Err e) /\ Raised e) \/
    (exists img, propagate top_pop predict fuel rgbImage strength st = Some (Ok img) /\
                 Inv (mkBand img [])).
Proof.
  intro HI. pose proof (band_measure_nonneg st).
  apply (propagate_terminates_below (band_measure st + 1)); auto; lia.
Qed.

End Termination.

(** ** The queue covers the frontier of the known region *)

Lemma in_bounds_spec (A : Type) (m : Mat A) (y x : Z) :
  in_bounds m y x = true <-> 0 <= x < cols m /\ 0 <= y < rows m.
Proof.
  unfold in_bounds. rewrite !andb_true_iff, !Z.leb_le, !Z.ltb_lt. lia.
Qed.

Lemma mat_index_inj (A : Type) (m : Mat A) (y x y' x' : Z) :
  in_bounds m y x = true -> in_bounds m y' x' = true ->
  mat_index m y x = mat_index m y' x' -> y = y' /\ x = x'.
Proof.
  intros H H' E. apply in_bounds_spec in H, H'. unfold mat_index in E.
  apply Z2Nat.inj in E; try nia.
  assert (y = y') by nia. subst. lia.
Qed.

Lemma depth_at_mat_set_same D y x v :
  mat_wf D -> in_bounds D y x = true -> depth_at (mat_set D y x v) y x = v.
Proof.
  intros W B. unfold depth_at, mat_at, mat_set, mat_index; cbn [elems cols].
  apply nth_set_nth_same. apply (mat_index_in_bounds float D y x W B).
Qed.

Lemma depth_at_mat_set_other D y x v y' x' :
  in_bounds D y x = true -> in_bounds D y' x' = true -> (y', x') <> (y, x) ->
  depth_at (mat_set D y x v) y' x' = depth_at D y' x'.
Proof.
  intros B B' Hne. unfold depth_at, mat_at, mat_set; cbn [elems].
  change (mat_index (mkMat (rows D) (cols D) (channels D) _) y' x') with (mat_index D y' x').
  apply nth_set_nth_other. intro E.
  destruct (mat_index_inj float D y x y' x' B B' E). congruence.
Qed.

Lemma in_bounds_mat_set (A : Type) (m : Mat A) (y x : Z) (v : A) (y' x' : Z) :
  in_bounds (mat_set m y x v) y' x' = in_bounds m y' x'.
Proof. reflexivity. Qed.

(** Writing a value that is [== 0] into an unknown pixel changes no
    pixel's being known. *)
Lemma known_mat_set_unknown D y x v y' x' :
  mat_wf D -> in_bounds D y x = true -> in_bounds D y' x' = true ->
  feq (depth_at D y x) fzero = true -> feq v fzero = true ->
  feq (depth_at (mat_set D y x v) y' x') fzero = feq (depth_at D y' x') fzero.
Proof.
  intros W B B' U V.
  destruct (Z.eq_dec y' y) as [->|Hy]; [destruct (Z.eq_dec x' x) as [->|Hx]|].
  - rewrite depth_at_mat_set_same; auto. congruence.
  - rewrite depth_at_mat_set_other; auto. congruence.
  - rewrite depth_at_mat_set_other; auto. congruence.
Qed.

Section Cover.

Variable predict : Mat float -> Mat RGB -> Z -> Z -> result float.
Variable rgbImage : Mat RGB.
Variable strength : Mat (Vec3 float).

Lemma visit_neighbour_covers speed position st d0 todo st' :
  mat_wf (depthImage st) ->
  covers_but (depthImage st) (narrowBand st) position (d0 :: todo) ->
  visit_neighbour predict rgbImage strength speed position st d0 = Ok st' ->
  covers_but (depthImage st') (narrowBand st') position todo.
Proof.
  destruct st as [D h]. cbn [depthImage narrowBand]. intros W HC H.
  unfold visit_neighbour in H. cbn [p_x p_y depthImage narrowBand] in H.
  destruct (in_bounds D (p_y position + p_y d0) (p_x position + p_x d0)) eqn:B;
    cbn [negb] in H.
  2:{ injection H as <-. cbn [depthImage narrowBand].
      intros x y d Hd B1 K1 B2 U2.
      destruct (HC x y d Hd B1 K1 B2 U2) as [Hin|[Hp [He|Hin]]];
        [left; exact Hin| |right; split; assumption].
      exfalso. subst d0. rewrite <- Hp in B. cbn [p_x p_y] in B. congruence. }
  destruct (feq (depth_at D (p_y position + p_y d0) (p_x position + p_x d0)) fzero) eqn:U.
  2:{ injection H as <-. cbn [depthImage narrowBand].
      intros x y d Hd B1 K1 B2 U2.
      destruct (HC x y d Hd B1 K1 B2 U2) as [Hin|[Hp [He|Hin]]];
        [left; exact Hin| |right; split; assumption].
      exfalso. subst d0. rewrite <- Hp in U. cbn [p_x p_y] in U. congruence. }
  destruct (predict _ _ _ _) as [v|e]; cbn [bind] in H; [|discriminate].
  unfold fne in H. fold (feq v fzero) in H.
  destruct (feq v fzero) eqn:V; cbn [negb] in H.
  - destruct (flt speed (float_of_int (-20))) eqn:F; [discriminate|].
    injection H as <-. cbn [depthImage narrowBand]. unfold emplace.
    intros x y d Hd B1 K1 B2 U2. rewrite in_bounds_mat_set in B1, B2.
    rewrite known_mat_set_unknown in K1, U2 by auto.
    destruct (HC x y d Hd B1 K1 B2 U2) as [[s Hin]|[Hp _]].
    + left. exists s. right. exact Hin.
    + left. exists (fsub speed (float_of_int 1)). left. rewrite <- Hp. reflexivity.
  - injection H as <-. cbn [depthImage narrowBand]. unfold emplace.
    intros x y d Hd B1 K1 B2 U2. rewrite in_bounds_mat_set in B1, B2.
    set (ny := p_y position + p_y d0) in *. set (nx := p_x position + p_x d0) in *.
    destruct (Z.eq_dec y ny) as [Ey|Ey]; [destruct (Z.eq_dec x nx) as [Ex|Ex]|].
    + left. exists (ComputeSpeed strength (mkPoint nx ny)). left. subst. reflexivity.
    + assert (Hne : (y, x) <> (ny, nx)) by congruence.
      rewrite depth_at_mat_set_other in K1 by auto.
      assert (U2' : feq (depth_at D (y + p_y d) (x + p_x d)) fzero = true /\
                    (y + p_y d, x + p_x d) <> (ny, nx)).
      { destruct (Z.eq_dec (y + p_y d) ny) as [E1|E1];
          [destruct (Z.eq_dec (x + p_x d) nx) as [E2|E2]|].
        - rewrite E1, E2, depth_at_mat_set_same in U2 by auto. congruence.
        - rewrite depth_at_mat_set_other in U2 by (auto; congruence). split; auto. congruence.
        - rewrite depth_at_mat_set_other in U2 by (auto; congruence). split; auto. congruence. }
      destruct U2' as [U2' Hn2].
      destruct (HC x y d Hd B1 K1 B2 U2') as [[s Hin]|[Hp [He|Hin]]].
      * left. exists s. right. exact Hin.
      * exfalso. apply Hn2. subst d0. subst ny nx. rewrite <- Hp. reflexivity.
      * right. auto.
    + assert (Hne : (y, x) <> (ny, nx)) by congruence.
      rewrite depth_at_mat_set_other in K1 by auto.
      assert (U2' : feq (depth_at D (y + p_y d) (x + p_x d)) fzero = true /\
                    (y + p_y d, x + p_x d) <> (ny, nx)).
      { destruct (Z.eq_dec (y + p_y d) ny) as [E1|E1];
          [destruct (Z.eq_dec (x + p_x d) nx) as [E2|E2]|].
        - rewrite E1, E2, depth_at_mat_set_same in U2 by auto. congruence.
        - rewrite depth_at_mat_set_other in U2 by (auto; congruence). split; auto. congruence.
        - rewrite depth_at_mat_set_other in U2 by (auto; congruence). split; auto. congruence. }
      destruct U2' as [U2' Hn2].
      destruct (HC x y d Hd B1 K1 B2 U2') as [[s Hin]|[Hp [He|Hin]]].
      * left. exists s. right. exact Hin.
      * exfalso. apply Hn2. subst d0. subst ny nx. rewrite <- Hp. reflexivity.
      * right. auto.
Qed.

Lemma visits_cover speed position l st st' :
  mat_wf (depthImage st) ->
  covers_but (depthImage st) (narrowBand st) position l ->
  fold_result (visit_neighbour predict rgbImage strength speed position) l st = Ok st' ->
  covers_but (depthImage st') (narrowBand st') position [].
Proof.
  revert st. induction l as [|d l IH]; intros st W HC H.
  - rewrite fold_result_nil in H. injection H as <-. exact HC.
  - rewrite fold_result_cons in H.
    destruct (visit_neighbour predict rgbImage strength speed position st d) as [st1|e] eqn:E;
      [|discriminate].
    apply (IH st1); auto.
    + destruct st as [D h].
      unfold visit_neighbour in E. cbn [depthImage narrowBand] in *.
      destruct (negb _); [injection E as <-; auto|].
      destruct (feq _ fzero); [|injection E as <-; auto].
      destruct (predict _ _ _ _) as [v|]; cbn [bind] in E; [|discriminate].
      destruct (fne v fzero); [injection E as <-; apply mat_wf_mat_set; auto|].
      destruct (flt _ _); [discriminate|injection E as <-; apply mat_wf_mat_set; auto].
    + apply (visit_neighbour_covers speed position st d l st1); auto.
Qed.

Lemma propagate_step_covers top_pop depth it rest st' :
  priority_queue_contract top_pop ->
  mat_wf depth -> band_covers depth (it :: rest) ->
  propagate_step top_pop predict rgbImage strength depth it rest = Ok st' ->
  band_covers (depthImage st') (narrowBand st').
Proof.
  intros HQ W HC H. unfold propagate_step in H.
  destruct (HQ it rest) as [HP _].
  destruct (top_pop it rest) as [[speed position] rest'] eqn:E. cbn [fst snd] in HP.
  assert (H0 : covers_but depth rest' position neighbours).
  { intros x y d Hd B1 K1 B2 U2.
    destruct (HC x y d Hd B1 K1 B2 U2) as [s Hin].
    apply (Permutation_in _ HP) in Hin. destruct Hin as [Heq|Hin].
    - right. injection Heq as _ <-. auto.
    - left. exists s. exact Hin. }
  pose proof (visits_cover speed position neighbours (mkBand depth rest') st' W H0 H) as H1.
  intros x y d Hd B1 K1 B2 U2.
  destruct (H1 x y d Hd B1 K1 B2 U2) as [Hin|[_ []]]. exact Hin.
Qed.

End Cover.

(** With an empty queue, being known spreads from a pixel to the whole
    image. *)
Lemma covered_neighbour D y x d :
  band_covers D [] -> In d neighbours ->
  in_bounds D y x = true -> feq (depth_at D y x) fzero = false ->
  in_bounds D (y + p_y d) (x + p_x d) = true ->
  feq (depth_at D (y + p_y d) (x + p_x d)) fzero = false.
Proof.
  intros HC Hd B K B2.
  destruct (feq (depth_at D (y + p_y d) (x + p_x d)) fzero) eqn:U; auto.
  destruct (HC x y d Hd B K B2 U) as [s []].
Qed.

Lemma covered_row_up D y x (n : nat) :
  band_covers D [] ->
  in_bounds D y x = true -> feq (depth_at D y x) fzero = false ->
  in_bounds D y (x + Z.of_nat n) = true ->
  feq (depth_at D y (x + Z.of_nat n)) fzero = false.
Proof.
  intros HC B K. induction n as [|n IH]; intro Bn.
  - replace (x + Z.of_nat 0) with x by lia. exact K.
  - apply in_bounds_spec in B. pose proof Bn as Bn'. apply in_bounds_spec in Bn'.
    assert (B1 : in_bounds D y (x + Z.of_nat n) = true) by (apply in_bounds_spec; lia).
    pose proof (covered_neighbour D y (x + Z.of_nat n) (mkPoint 1 0) HC
                  ltac:(cbn; auto) B1 (IH B1)) as G. cbn [p_x p_y] in G.
    replace (y + 0) with y in G by lia.
    replace (x + Z.of_nat n + 1) with (x + Z.of_nat (S n)) in G by lia. auto.
Qed.

Lemma covered_row_down D y x (n : nat) :
  band_covers D [] ->
  in_bounds D y x = true -> feq (depth_at D y x) fzero = false ->
  in_bounds D y (x - Z.of_nat n) = true ->
  feq (depth_at D y (x - Z.of_nat n)) fzero = false.
Proof.
  intros HC B K. induction n as [|n IH]; intro Bn.
  - replace (x - Z.of_nat 0) with x by lia. exact K.
  - apply in_bounds_spec in B. pose proof Bn as Bn'. apply in_bounds_spec in Bn'.
    assert (B1 : in_bounds D y (x - Z.of_nat n) = true) by (apply in_bounds_spec; lia).
    pose proof (covered_neighbour D y (x - Z.of_nat n) (mkPoint (-1) 0) HC
                  ltac:(cbn; auto) B1 (IH B1)) as G. cbn [p_x p_y] in G.
    replace (y + 0) with y in G by lia.
    replace (x - Z.of_nat n + -1) with (x - Z.of_nat (S n)) in G by lia. auto.
Qed.

Lemma covered_column_up D y x (n : nat) :
  band_covers D [] ->
  in_bounds D y x = true -> feq (depth_at D y x) fzero = false ->
  in_bounds D (y + Z.of_nat n) x = true ->
  feq (depth_at D (y + Z.of_nat n) x) fzero = false.
Proof.
  intros HC B K. induction n as [|n IH]; intro Bn.
  - replace (y + Z.of_nat 0) with y by lia. exact K.
  - apply in_bounds_spec in B. pose proof Bn as Bn'. apply in_bounds_spec in Bn'.
    assert (B1 : in_bounds D (y + Z.of_nat n) x = true) by (apply in_bounds_spec; lia).
    pose proof (covered_neighbour D (y + Z.of_nat n) x (mkPoint 0 1) HC
                  ltac:(cbn; auto) B1 (IH B1)) as G. cbn [p_x p_y] in G.
    replace (x + 0) with x in G by lia.
    replace (y + Z.of_nat n + 1) with (y + Z.of_nat (S n)) in G by lia. auto.
Qed.

Lemma covered_column_down D y x (n : nat) :
  band_covers D [] ->
  in_bounds D y x = true -> feq (depth_at D y x) fzero = false ->
  in_bounds D (y - Z.of_nat n) x = true ->
  feq (depth_at D (y - Z.of_nat n) x) fzero = false.
Proof.
  intros HC B K. induction n as [|n IH]; intro Bn.
  - replace (y - Z.of_nat 0) with y by lia. exact K.
  - apply in_bounds_spec in B. pose proof Bn as Bn'. apply in_bounds_spec in Bn'.
    assert (B1 : in_bounds D (y - Z.of_nat n) x = true) by (apply in_bounds_spec; lia).
    pose proof (covered_neighbour D (y - Z.of_nat n) x (mkPoint 0 (-1)) HC
                  ltac:(cbn; auto) B1 (IH B1)) as G. cbn [p_x p_y] in G.
    replace (x + 0) with x in G by lia.
    replace (y - Z.of_nat n + -1) with (y - Z.of_nat (S n)) in G by lia. auto.
Qed.

Lemma covered_row D y x x' :
  band_covers D [] ->
  in_bounds D y x = true -> feq (depth_at D y x) fzero = false ->
  in_bounds D y x' = true -> feq (depth_at D y x') fzero = false.
Proof.
  intros HC B K B'. destruct (Z_le_gt_dec x x').
  - replace x' with (x + Z.of_nat (Z.to_nat (x' - x))) in * by lia.
    apply covered_row_up; auto.
  - replace x' with (x - Z.of_nat (Z.to_nat (x - x'))) in * by lia.
    apply covered_row_down; auto.
Qed.

Lemma covered_column D y x y' :
  band_covers D [] ->
  in_bounds D y x = true -> feq (depth_at D y x) fzero = false ->
  in_bounds D y' x = true -> feq (depth_at D y' x) fzero = false.
Proof.
  intros HC B K B'. destruct (Z_le_gt_dec y y').
  - replace y' with (y + Z.of_nat (Z.to_nat (y' - y))) in * by lia.
    apply covered_column_up; auto.
  - replace y' with (y - Z.of_nat (Z.to_nat (y - y'))) in * by lia.
    apply covered_column_down; auto.
Qed.

Lemma covered_all D y0 x0 y x :
  band_covers D [] ->
  in_bounds D y0 x0 = true -> feq (depth_at D y0 x0) fzero = false ->
  in_bounds D y x = true -> feq (depth_at D y x) fzero = false.
Proof.
  intros HC B0 K0 B.
  assert (B1 : in_bounds D y0 x = true).
  { apply in_bounds_spec in B0, B. apply in_bounds_spec. lia. }
  apply (covered_column D y0 x y HC B1); auto.
  apply (covered_row D y0 x0 x HC B0 K0 B1).
Qed.

(** ** The depths [InPaint] writes *)

Lemma nonneg_upto_intro bound f :
  nonneg bound -> finite_nonneg f -> (val f <= val bound)%R -> nonneg_upto bound f = true.
Proof.
  intros Nb [[V S] Fi] H. unfold nonneg_upto. rewrite V. cbn [andb].
  assert (L : fle f bound = true) by (apply (fle_nonneg f bound); [split; auto|auto|auto]).
  destruct f as [[]|[]| |[] m e]; try tauto; try discriminate; auto.
Qed.

Lemma depth_in_range_intro a b f :
  -126 <= a -> b <= 127 -> a <= b ->
  finite_nonneg f -> (bpow a <= val f <= bpow b)%R -> depth_in_range a b f = true.
Proof.
  intros Ha Hb Hab F H. unfold depth_in_range.
  destruct (pow2_ok a ltac:(lia)) as [[Pa _] Va].
  destruct (pow2_ok b ltac:(lia)) as [[Pb _] Vb].
  rewrite (nonneg_upto_intro (pow2 b) f Pb F) by lra.
  assert (L : fle (pow2 a) f = true) by (apply (fle_nonneg _ _ Pa (proj1 F)); lra).
  rewrite L. apply orb_true_r.
Qed.

Lemma PredictDepth_in_range g D C x y a b :
  cache_ok g -> -100 <= a -> a <= b -> b <= 100 ->
  depths_in_range a b D = true -> cols D = cols C -> rows D = rows C -> channels C = 3 ->
  exists v, PredictDepth g D C x y = Ok v /\ depth_in_range a b v = true.
Proof.
  intros Hg Ha Hab Hb HD Hc Hr Hch.
  eexists. split; [apply (PredictDepth_Ok g D C x y Hc Hr Hch)|].
  destruct (Z.leb_spec (count (bilateral_sums g D C x y)) 3) as [Hl|Hl]; [reflexivity|].
  destruct (bilateral_sums_bounds g D C x y a b Hg Ha Hab Hb HD Hl) as (_ & _ & Fq & Hq).
  apply depth_in_range_intro; auto; lia.
Qed.




(** ** The initial queue and image *)

Lemma In_Zrange lo hi i : lo <= i <= hi -> In i (Zrange lo hi).
Proof.
  intro H. unfold Zrange. apply in_map_iff. exists (Z.to_nat (i - lo)).
  split; [lia|]. apply in_seq. lia.
Qed.

Lemma In_all_pixels (A : Type) (m : Mat A) (y x : Z) :
  in_bounds m y x = true -> In (y, x) (all_pixels m).
Proof.
  intro H. apply in_bounds_spec in H. unfold all_pixels.
  apply in_flat_map. exists y. split; [apply In_Zrange; lia|].
  apply in_map_iff. exists x. split; auto. apply In_Zrange; lia.
Qed.

Lemma fold_left_emplace_In (A : Type) (test : A -> bool) (item : A -> BandItem)
    (l : list A) (h : list BandItem) (it : BandItem) :
  In it h \/ (exists a, In a l /\ test a = true /\ item a = it) ->
  In it (fold_left (fun h a => if test a then item a :: h else h) l h).
Proof.
  revert h. induction l as [|a l IH]; intros h H; cbn [fold_left].
  - destruct H as [H|(a & [] & _)]. exact H.
  - apply IH. destruct H as [H|(a' & [Ha|Ha] & Ht & Hi)].
    + left. destruct (test a); [right|]; exact H.
    + subst a'. left. rewrite Ht. left. exact Hi.
    + right. exists a'. auto.
Qed.

Lemma initial_band_In depth y x :
  in_bounds depth y x = true -> feq (depth_at depth y x) fzero = false ->
  In (float_of_int 0, mkPoint x y) (initial_band depth).
Proof.
  intros B K. unfold initial_band, emplace.
  apply (fold_left_emplace_In (Z * Z)
           (fun yx => fne (depth_at depth (fst yx) (snd yx)) fzero)
           (fun yx => (float_of_int 0, mkPoint (snd yx) (fst yx)))).
  right. exists (y, x). cbn [fst snd]. split; [apply In_all_pixels; auto|].
  split; auto. unfold fne. fold (feq (depth_at depth y x) fzero). rewrite K. reflexivity.
Qed.

Lemma band_covers_initial depth : band_covers depth (initial_band depth).
Proof.
  intros x y d _ B K _ _. exists (float_of_int 0). apply initial_band_In; auto.
Qed.



Lemma mat_wf_mat_map (A B : Type) (f : A -> B) (m : Mat A) : mat_wf m -> mat_wf (mat_map f m).
Proof.
  intros (Hr & Hc & Hl). unfold mat_wf, mat_map; cbn [rows cols elems].
  rewrite length_map. auto.
Qed.

(** ** The converted result *)




Lemma feq_positive_false v : finite_nonneg v -> (0 < val v)%R -> feq v fzero = false.
Proof.
  intros F H. destruct (finite_nonneg_cases v F) as [->|(m & e & -> & _)].
  - cbn [val fzero] in H. lra.
  - reflexivity.
Qed.

Lemma Zrange_In lo hi i : In i (Zrange lo hi) -> lo <= i <= hi.
Proof.
  unfold Zrange. intro H. apply in_map_iff in H. destruct H as (k & <- & Hk).
  apply in_seq in Hk. lia.
Qed.

Lemma count_bilateral_sums g D C x y :
  count (bilateral_sums g D C x y) = Z.of_nat (List.length (known_window g D x y)).
Proof.
  unfold bilateral_sums. rewrite fold_add_known. cbn [count Sums_init]. lia.
Qed.


(** ** [InPaint] on images whose unknown pixels have known pixels around *)




Section Dense.

Variable top_pop : BandItem -> list BandItem -> BandItem * list BandItem.
Variable g : GDFMM.
Variable C : Mat RGB.
Variable strength : Mat (Vec3 float).
Hypothesis queue_fine : priority_queue_contract top_pop.
Hypothesis caches_fine : cache_ok g.
Hypothesis channels_fine : channels C = 3.







End Dense.



(** * Further properties of the code *)

(** ** The loop ends, for every predictor *)

Section AnyPredictor.

Variable top_pop : BandItem -> list BandItem -> BandItem * list BandItem.
Variable predict : Mat float -> Mat RGB -> Z -> Z -> result float.
Variable C : Mat RGB.
Variable strength : Mat (Vec3 float).
Hypothesis queue_fine : priority_queue_contract top_pop.
Hypothesis strength_fine : strength_ok strength = true.

Lemma propagate_ends st :
  mat_wf (depthImage st) -> band_nonpos (narrowBand st) ->
  exists fuel r, propagate top_pop predict fuel C strength st = Some r.
Proof.
  intros W HB.
  destruct (propagate_terminates top_pop predict C strength
              (fun st => mat_wf (depthImage st) /\ band_nonpos (narrowBand st))
              (fun _ => True) queue_fine (fun st H => H)
              (fun depth it rest st' H E =>
                 conj (proj1 (propagate_step_measure top_pop predict C strength depth it rest st'
                                queue_fine (proj1 H) (proj2 H) E))
                      (propagate_step_band_nonpos top_pop predict C strength strength_fine
                         depth it rest st' queue_fine (proj2 H) E))
              (fun _ _ _ _ _ _ => I) st (conj W HB)) as (fuel & [(e & H & _)|(img & H & _)]);
    exists fuel; eexists; exact H.
Qed.

Lemma propagate_fills d0 :
  mat_wf d0 ->
  exists fuel,
    (exists e, propagate top_pop predict fuel C strength (mkBand d0 (initial_band d0))
               = Some (Err e)) \/
    (exists img, propagate top_pop predict fuel C strength (mkBand d0 (initial_band d0))
                 = Some (Ok img) /\
                 mat_wf img /\ keeps_known d0 img /\ band_covers img []).
Proof.
  intro W.
  destruct (propagate_terminates top_pop predict C strength
              (fun st => mat_wf (depthImage st) /\ band_nonpos (narrowBand st) /\
                         band_covers (depthImage st) (narrowBand st) /\
                         keeps_known d0 (depthImage st))
              (fun _ => True) queue_fine
              (fun st H => conj (proj1 H) (proj1 (proj2 H)))
              (fun depth it rest st' H E =>
                 match H with
                 | conj W1 (conj B1 (conj C1 K1)) =>
                     conj (proj1 (propagate_step_measure top_pop predict C strength
                                    depth it rest st' queue_fine W1 B1 E))
                       (conj (propagate_step_band_nonpos top_pop predict C strength
                                strength_fine depth it rest st' queue_fine B1 E)
                          (conj (propagate_step_covers predict C strength top_pop
                                   depth it rest st' queue_fine W1 C1 E)
                                (propagate_step_keeps_known top_pop predict C strength d0
                                   depth it rest st' K1 E)))
                 end)
              (fun _ _ _ _ _ _ => I)
              (mkBand d0 (initial_band d0))
              (conj W (conj (band_nonpos_initial d0)
                            (conj (band_covers_initial d0) (keeps_known_refl d0)))))
    as (fuel & [(e & H & _)|(img & H & (W' & _ & HC & HK))]); exists fuel.
  - left. exists e. exact H.
  - right. exists img. cbn [depthImage narrowBand] in *. auto.
Qed.

End AnyPredictor.

(** X1: whatever the predictor ([PredictDepth], [PredictDepth2] with any
    solver), the loop of [InPaintBase] comes to an end: on a well-formed
    depth image, with squared gradients that are finite and a queue that
    honours the priority-queue contract, some number of iterations makes the
    call return or throw. *)
Theorem X1_InPaintBase_ends top_pop predict blur sobel sigma D C :
  priority_queue_contract top_pop ->
  strength_ok (gradient_strength C (sobel (blur C sigma) 1 0) (sobel (blur C sigma) 0 1))
  = true ->
  mat_wf D ->
  exists fuel r, InPaintBase_body top_pop predict blur sobel sigma D C fuel = Some r.
Proof.
  intros HQ HS W. unfold InPaintBase_body.
  destruct (_ || _); [exists 0%nat; eexists; reflexivity|].
  destruct (bind _ _); [|exists 0%nat; eexists; reflexivity].
  destruct (propagate_ends top_pop predict C _ HQ HS
              (mkBand (convertTo_32F D) (initial_band (convertTo_32F D)))
              (mat_wf_mat_map Z float float_of_int D W)
              (band_nonpos_initial (convertTo_32F D))) as (fuel & r & H).
  exists fuel. rewrite H. destruct r; eexists; reflexivity.
Qed.

Lemma X1_witness :
  exists fuel r,
    InPaintBase_body heap_top_pop
      (fun dI rgbI x y => PredictDepth2 solve_diagonal gdfmm_flat dI rgbI x y fone fzero fzero)
      blur_uniform sobel_uniform fone depth_hole (uniform_image 3 3 gray) fuel = Some r.
Proof.
  apply (X1_InPaintBase_ends heap_top_pop
           (fun dI rgbI x y => PredictDepth2 solve_diagonal gdfmm_flat dI rgbI x y fone fzero fzero)
           blur_uniform sobel_uniform fone depth_hole (uniform_image 3 3 gray)
           heap_top_pop_contract).
  - vm_compute. reflexivity.
  - unfold mat_wf. cbn. repeat split; lia.
Defined.

(** X2: whatever the predictor, a run of the loop that starts from an image
    with a known pixel and ends without an error leaves no pixel unknown:
    every pixel of the working image then compares unequal to 0, and the
    pixels known at the start hold their values. *)
Theorem X2_loop_leaves_no_unknown top_pop predict C strength d0 y0 x0 :
  priority_queue_contract top_pop -> strength_ok strength = true -> mat_wf d0 ->
  in_bounds d0 y0 x0 = true -> feq (depth_at d0 y0 x0) fzero = false ->
  exists fuel,
    (exists e, propagate top_pop predict fuel C strength (mkBand d0 (initial_band d0))
               = Some (Err e)) \/
    (exists img, propagate top_pop predict fuel C strength (mkBand d0 (initial_band d0))
                 = Some (Ok img) /\
                 keeps_known d0 img /\
                 forall y x, in_bounds img y x = true ->
                             feq (depth_at img y x) fzero = false).
Proof.
  intros HQ HS W B0 K0.
  destruct (propagate_fills top_pop predict C strength HQ HS d0 W)
    as (fuel & [He|(img & H & W' & HK & HC)]); exists fuel; [left; exact He|].
  right. exists img. split; [exact H|]. split; [exact HK|].
  intros y x B. destruct HK as (Kc & Kr & HK).
  apply (covered_all img y0 x0 y x HC); auto.
  - unfold in_bounds in *. rewrite Kc, Kr. exact B0.
  - unfold depth_at, mat_at, mat_index in *. rewrite Kc. rewrite HK; auto.
Qed.

Lemma X2_witness :
  exists fuel,
    (exists e,
        propagate heap_top_pop (PredictDepth gdfmm_flat) fuel (uniform_image 3 3 gray)
                  strength_1x1
                  (mkBand (convertTo_32F depth_hole) (initial_band (convertTo_32F depth_hole)))
        = Some (Err e)) \/
    (exists img,
        propagate heap_top_pop (PredictDepth gdfmm_flat) fuel (uniform_image 3 3 gray)
                  strength_1x1
                  (mkBand (convertTo_32F depth_hole) (initial_band (convertTo_32F depth_hole)))
        = Some (Ok img) /\
        keeps_known (convertTo_32F depth_hole) img /\
        forall y x, in_bounds img y x = true -> feq (depth_at img y x) fzero = false).
Proof.
  apply (X2_loop_leaves_no_unknown heap_top_pop (PredictDepth gdfmm_flat)
           (uniform_image 3 3 gray) strength_1x1 (convertTo_32F depth_hole) 0 0
           heap_top_pop_contract).
  - vm_compute. reflexivity.
  - unfold mat_wf. cbn. repeat split; lia.
  - reflexivity.
  - vm_compute. reflexivity.
Defined.

(** ** A complete image comes back unchanged *)

Lemma float_of_int_known v : 1 <= v <= 65535 -> feq (float_of_int v) fzero = false.
Proof.
  intro H. destruct (float_of_int_nonneg v ltac:(lia)) as [F V].
  apply feq_positive_false; auto. rewrite V. apply (IZR_lt 0). lia.
Qed.

Lemma fold_left_const (A B : Type) (l : list B) (a : A) : fold_left (fun a _ => a) l a = a.
Proof. induction l; cbn [fold_left]; auto. Qed.

Lemma convert_round_trip D :
  (forall v, In v (elems D) -> 1 <= v <= 65535) -> convertTo_16U (convertTo_32F D) = D.
Proof.
  intro H. destruct D as [r c ch l]. unfold convertTo_16U, convertTo_32F, mat_map.
  cbn [rows cols channels elems] in *. f_equal.
  rewrite map_map. rewrite <- (map_id l) at 2. apply map_ext_in.
  intros v Hv. pose proof (ushort_round_trip_all v (H v Hv)) as R.
  unfold ushort_round_trip in R. apply andb_prop in R. destruct R as [R _].
  apply Z.eqb_eq in R. exact R.
Qed.

Section Complete.

Variable top_pop : BandItem -> list BandItem -> BandItem * list BandItem.
Variable predict : Mat float -> Mat RGB -> Z -> Z -> result float.
Variable C : Mat RGB.
Variable strength : Mat (Vec3 float).
Variable d0 : Mat float.
Hypothesis queue_fine : priority_queue_contract top_pop.
Hypothesis strength_fine : strength_ok strength = true.
Hypothesis d0_wf : mat_wf d0.
Hypothesis d0_complete : forall v, In v (elems d0) -> feq v fzero = false.

Lemma visit_neighbour_complete speed position h d :
  visit_neighbour predict C strength speed position (mkBand d0 h) d = Ok (mkBand d0 h).
Proof.
  unfold visit_neighbour. cbn [depthImage narrowBand p_x p_y].
  destruct (in_bounds d0 (p_y position + p_y d) (p_x position + p_x d)) eqn:B;
    cbn [negb]; [|reflexivity].
  assert (K : feq (depth_at d0 (p_y position + p_y d) (p_x position + p_x d)) fzero = false).
  { apply d0_complete. unfold depth_at, mat_at. apply nth_In.
    apply mat_index_in_bounds; auto. }
  rewrite K. reflexivity.
Qed.

Lemma visits_complete speed position h l :
  fold_result (visit_neighbour predict C strength speed position) l (mkBand d0 h) =
  Ok (mkBand d0 h).
Proof.
  induction l as [|d l IH].
  - apply fold_result_nil.
  - rewrite fold_result_cons, visit_neighbour_complete. exact IH.
Qed.

Lemma propagate_step_complete it rest :
  propagate_step top_pop predict C strength d0 it rest =
  Ok (mkBand d0 (snd (top_pop it rest))).
Proof.
  unfold propagate_step. destruct (top_pop it rest) as [[speed position] rest']. cbn [snd].
  apply visits_complete.
Qed.

Lemma propagate_complete h :
  band_nonpos h ->
  exists fuel, propagate top_pop predict fuel C strength (mkBand d0 h) = Some (Ok d0).
Proof.
  intro HB.
  destruct (propagate_terminates top_pop predict C strength
              (fun st => depthImage st = d0 /\ band_nonpos (narrowBand st))
              (fun _ => False) queue_fine) with (st := mkBand d0 h)
    as (fuel & [(e & _ & [])|(img & H & E & _)]).
  - intros st [E B]. rewrite E. auto.
  - intros depth it rest st' [E B] H. cbn [depthImage narrowBand] in E, B. subst depth.
    split.
    + rewrite propagate_step_complete in H. injection H as <-. reflexivity.
    + apply (propagate_step_band_nonpos top_pop predict C strength strength_fine
               d0 it rest st' queue_fine B H).
  - intros depth it rest e [E B] H. cbn [depthImage] in E. subst depth.
    rewrite propagate_step_complete in H. discriminate.
  - split; auto.
  - exists fuel. cbn [depthImage] in E. subst img. exact H.
Qed.

End Complete.

(** X3: a single-channel 16-bit depth image without unknown pixels comes
    back unchanged, whatever the predictor and the colour image of its
    size: the loop visits every pixel, predicts nothing, and the
    conversions to [float] and back are exact. *)
Theorem X3_complete_image_unchanged top_pop predict blur sobel sigma D C output :
  priority_queue_contract top_pop ->
  strength_ok (gradient_strength C (sobel (blur C sigma) 1 0) (sobel (blur C sigma) 0 1))
  = true ->
  mat_wf D -> channels D = 1 -> channels C = 3 -> cols C = cols D -> rows C = rows D ->
  (forall v, In v (elems D) -> 1 <= v <= 65535) ->
  exists fuel,
    InPaintBase top_pop predict blur sobel sigma D C output fuel =
    (Some (Ok D), match output with Some _ => Some D | None => None end).
Proof.
  intros HQ HS W HcD HcC Hc Hr HD.
  destruct (propagate_complete top_pop predict C _ (convertTo_32F D) HQ HS
              (mat_wf_mat_map Z float float_of_int D W)) with (h := initial_band (convertTo_32F D))
    as (fuel & H).
  - intros f Hf. unfold convertTo_32F, mat_map in Hf; cbn [elems] in Hf.
    apply in_map_iff in Hf. destruct Hf as (v & <- & Hv).
    apply float_of_int_known; auto.
  - apply band_nonpos_initial.
  - exists fuel. unfold InPaintBase, InPaintBase_body.
    rewrite Hc, Hr, !Z.eqb_refl, HcD, HcC.
    change (1 =? 1) with true. change (3 =? 3) with true.
    cbv beta iota delta [negb orb CHECK bind].
    rewrite H. rewrite (convert_round_trip D HD). reflexivity.
Qed.

Lemma X3_witness :
  exists fuel,
    InPaintBase heap_top_pop (PredictDepth gdfmm_flat) blur_uniform sobel_uniform fone
                (mkMat 1 2 1 [7; 9]) (uniform_image 1 2 gray) None fuel =
    (Some (Ok (mkMat 1 2 1 [7; 9])), None).
Proof.
  apply (X3_complete_image_unchanged heap_top_pop (PredictDepth gdfmm_flat) blur_uniform
           sobel_uniform fone (mkMat 1 2 1 [7; 9]) (uniform_image 1 2 gray) None
           heap_top_pop_contract).
  - vm_compute. reflexivity.
  - unfold mat_wf. cbn. repeat split; lia.
  - reflexivity.
  - reflexivity.
  - reflexivity.
  - reflexivity.
  - intros v Hv. cbn in Hv. intuition lia.
Defined.

(** ** The comparator of the queue *)

(** X4: the comparator handed to [std::priority_queue] is a strict partial
    order on the entries, as the container requires: no entry is below
    itself, below is transitive, and two entries are never below each
    other.  An entry whose priority is NaN is below and above nothing. *)
Theorem X4_compare_is_strict_order :
  (forall a, compare_items a a = false) /\
  (forall a b c, compare_items a b = true -> compare_items b c = true ->
                 compare_items a c = true) /\
  (forall a b, compare_items a b = true -> compare_items b a = false) /\
  (forall a b, isnan (fst a) = true ->
               compare_items a b = false /\ compare_items b a = false).
Proof.
  unfold compare_items. repeat split.
  - intro a. destruct (flt (fst a) (fst a)) eqn:E; auto.
    rewrite (flt_asym _ _ E) in E. discriminate.
  - intros a b c. apply flt_trans.
  - intros a b. apply flt_asym.
  - destruct (fst a); try discriminate. reflexivity.
  - destruct (fst a); try discriminate. destruct (fst b) as [[]|[]| |[] ? ?]; reflexivity.
Qed.

Lemma X4_witness :
  compare_items (float_of_int (-3), mkPoint 0 0) (float_of_int (-1), mkPoint 1 1) = true.
Proof.
  apply (proj1 (proj2 X4_compare_is_strict_order)
           (float_of_int (-3), mkPoint 0 0) (float_of_int (-2), mkPoint 0 1)
           (float_of_int (-1), mkPoint 1 1)); reflexivity.
Defined.

(** ** The window of the predictors *)

(** X5: every pixel the predictors take into account lies inside the depth
    image and inside the square of radius [windowSize_ / 2] around the
    pixel to predict, and it is known: the clipping of the window keeps
    every read inside the image, wherever the pixel to predict lies. *)
Theorem X5_window_inside_image g D x y m n :
  In (m, n) (known_window g D x y) ->
  in_bounds D n m = true /\
  Z.abs (m - x) <= Z.quot (windowSize_ g) 2 /\ Z.abs (n - y) <= Z.quot (windowSize_ g) 2 /\
  feq (depth_at D n m) fzero = false.
Proof.
  intro H. pose proof (known_window_known g D x y (m, n) H) as K. cbn [fst snd] in K.
  unfold known_window in H.
  apply in_flat_map in H. destruct H as (n' & Hn & H).
  apply in_flat_map in H. destruct H as (m' & Hm & H).
  destruct (feq (depth_at D n' m') fzero); [destruct H|].
  destruct H as [E|[]]. injection E as -> ->.
  apply Zrange_In in Hn, Hm.
  split; [apply in_bounds_spec; lia|]. split; [lia|]. split; [lia|exact K].
Qed.

Lemma X5_witness :
  in_bounds depth_five_threes 0 0 = true /\
  Z.abs (0 - 1) <= Z.quot (windowSize_ gdfmm_sharp) 2 /\
  Z.abs (0 - 1) <= Z.quot (windowSize_ gdfmm_sharp) 2 /\
  feq (depth_at depth_five_threes 0 0) fzero = false.
Proof.
  apply (X5_window_inside_image gdfmm_sharp depth_five_threes 1 1 0 0).
  vm_compute. left. reflexivity.
Defined.

(** ** The bilateral predictor's answers *)

(** X6: the value 0 that tells the loop "prediction failed" is unambiguous
    for the bilateral predictor: with cache values between 0 and 1 and known
    depths between two powers of two, it returns a value that compares equal
    to 0 exactly when the window holds at most three known pixels. *)
Theorem X6_PredictDepth_zero_iff_few g D C x y a b :
  cache_ok g -> -100 <= a -> a <= b -> b <= 100 ->
  depths_in_range a b D = true ->
  cols D = cols C -> rows D = rows C -> channels C = 3 ->
  exists v, PredictDepth g D C x y = Ok v /\
            (feq v fzero = true <-> Z.of_nat (List.length (known_window g D x y)) <= 3).
Proof.
  intros Hg Ha Hab Hb HD Hc Hr Hch.
  eexists. split; [apply (PredictDepth_Ok g D C x y Hc Hr Hch)|].
  rewrite <- (count_bilateral_sums g D C x y).
  destruct (Z.leb_spec (count (bilateral_sums g D C x y)) 3) as [Hl|Hl].
  - split; auto.
  - destruct (bilateral_sums_bounds g D C x y a b Hg Ha Hab Hb HD Hl) as (_ & _ & Fq & Hq).
    pose proof (bpow_gt_0 a).
    rewrite (feq_positive_false _ Fq) by lra. split; [discriminate|lia].
Qed.

Lemma X6_witness :
  exists v, PredictDepth gdfmm_sharp depth_five_threes rgb_black_centre 1 1 = Ok v /\
            (feq v fzero = true <->
             Z.of_nat (List.length (known_window gdfmm_sharp depth_five_threes 1 1)) <= 3).
Proof.
  apply (X6_PredictDepth_zero_iff_few gdfmm_sharp depth_five_threes rgb_black_centre 1 1 1 2).
  - intro k. unfold gdfmm_sharp, ExpCache_sharp; cbn [distExpCache_ colorExpCache_].
    destruct (k =? 0); split; reflexivity.
  - lia.
  - lia.
  - lia.
  - vm_compute. reflexivity.
  - reflexivity.
  - reflexivity.
  - reflexivity.
Defined.

Lemma fold_result_guard (A B : Type) (t : B -> bool) (e : error) (f : A -> B -> result A)
    (l : list B) (a : A) :
  (forall a b, f a b = if t b then Ok a else Err e) ->
  fold_result f l a = if forallb t l then Ok a else Err e.
Proof.
  intro H. induction l as [|b l IH]; cbn [forallb].
  - apply fold_result_nil.
  - rewrite fold_result_cons, H. destruct (t b); cbn [andb]; auto.
Qed.

Lemma flat_map_nil_forallb (A B : Type) (f : A -> list B) (l : list A) :
  match flat_map f l with [] => true | _ :: _ => false end =
  forallb (fun a => match f a with [] => true | _ :: _ => false end) l.
Proof.
  induction l as [|a l IH]; cbn [flat_map forallb]; auto.
  destruct (f a); cbn [app andb]; auto.
Qed.

Lemma forallb_ext_eq (A : Type) (f g : A -> bool) (l : list A) :
  (forall a, f a = g a) -> forallb f l = forallb g l.
Proof.
  intro H. induction l as [|a l IH]; cbn [forallb]; auto. rewrite H, IH. reflexivity.
Qed.

(** X7: the assertions of the bilateral predictor.  Images of different
    widths, then of different heights, fail the two assertions at its head.
    For images of equal size with a colour image that has not three
    channels, the assertion of [BilateralWeight] fails at the first known
    pixel of the window; a window without a known pixel never reaches it
    and the call returns 0. *)
Theorem X7_PredictDepth_assertions g D C x y :
  (cols D <> cols C ->
   PredictDepth g D C x y = Err (assert_failed "depthImage.cols == rgbImage.cols")) /\
  (cols D = cols C -> rows D <> rows C ->
   PredictDepth g D C x y = Err (assert_failed "depthImage.rows == rgbImage.rows")) /\
  (cols D = cols C -> rows D = rows C -> channels C <> 3 ->
   PredictDepth g D C x y =
   match known_window g D x y with
   | [] => Ok fzero
   | _ :: _ => Err (assert_failed "rgbImage.channels() == 3")
   end).
Proof.
  split; [|split].
  - intro H. unfold PredictDepth. apply Z.eqb_neq in H. rewrite H. reflexivity.
  - intros Hc H. unfold PredictDepth. apply Z.eqb_neq in H. rewrite Hc, Z.eqb_refl, H.
    reflexivity.
  - intros Hc Hr H. unfold PredictDepth. rewrite Hc, Hr, !Z.eqb_refl. cbn [assert bind].
    apply Z.eqb_neq in H.
    assert (HP : forall n m s,
               PredictDepth_pixel g D C x y n m s =
               if feq (depth_at D n m) fzero then Ok s
               else Err (assert_failed "rgbImage.channels() == 3")).
    { intros n m s. unfold PredictDepth_pixel, BilateralWeight. rewrite H.
      destruct (feq (depth_at D n m) fzero); reflexivity. }
    unfold PredictDepth_loops.
    rewrite (fold_result_guard Sums Z
               (fun n => forallb (fun m => feq (depth_at D n m) fzero)
                           (Zrange (window_lo x (Z.quot (windowSize_ g) 2))
                                   (window_hi (cols D) x (Z.quot (windowSize_ g) 2))))
               (assert_failed "rgbImage.channels() == 3")).
    2:{ intros s n. apply (fold_result_guard Sums Z (fun m => feq (depth_at D n m) fzero)).
        intros s' m. apply HP. }
    pose proof (flat_map_nil_forallb Z (Z * Z)
                  (fun n => flat_map
                     (fun m => if feq (depth_at D n m) fzero then [] else [(m, n)])
                     (Zrange (window_lo x (Z.quot (windowSize_ g) 2))
                             (window_hi (cols D) x (Z.quot (windowSize_ g) 2))))
                  (Zrange (window_lo y (Z.quot (windowSize_ g) 2))
                          (window_hi (rows D) y (Z.quot (windowSize_ g) 2)))) as E.
    unfold known_window. unfold window_lo, window_hi in *.
    rewrite (forallb_ext_eq Z _
               (fun n => forallb (fun m => feq (depth_at D n m) fzero)
                           (Zrange (Z.max 0 (x - Z.quot (windowSize_ g) 2))
                                   (Z.min (cols D - 1) (x + Z.quot (windowSize_ g) 2))))) in E.
    2:{ intro n. rewrite flat_map_nil_forallb. apply forallb_ext_eq.
        intro m. destruct (feq (depth_at D n m) fzero); reflexivity. }
    rewrite <- E.
    destruct (flat_map _ _); reflexivity.
Qed.

Lemma X7_witness :
  PredictDepth gdfmm_flat (convertTo_32F depth_hole) (uniform_image 1 2 gray) 1 1 =
  Err (assert_failed "depthImage.cols == rgbImage.cols").
Proof.
  apply (proj1 (X7_PredictDepth_assertions gdfmm_flat (convertTo_32F depth_hole)
                  (uniform_image 1 2 gray) 1 1)).
  vm_compute. discriminate.
Defined.

(** ** The normal equations of the least-squares predictor *)

Lemma fmul_comm a b : fmul a b = fmul b a.
Proof.
  unfold fmul, SFmul.
  destruct a as [sa|sa| |sa ma ea], b as [sb|sb| |sb mb eb];
    try reflexivity; rewrite ?(xorb_comm sa sb); try reflexivity.
  rewrite (Pos.mul_comm ma mb), (Z.add_comm ea eb). reflexivity.
Qed.

Lemma fdot_comm a b : fdot a b = fdot b a.
Proof.
  unfold fdot. f_equal. revert b.
  induction a as [|u a IH]; intros [|v b]; cbn [combine map]; auto.
  cbn [fst snd]. rewrite (fmul_comm u v), (IH b). reflexivity.
Qed.

(** X9: the matrix handed to the LDLT factorisation is symmetric, as the
    factorisation requires, whatever the inputs (NaN and infinities
    included): entry (i, j) of [X^T X + epsilon I], each inner product summed
    in row order, is entry (j, i). *)
Theorem X9_normal_matrix_symmetric g D C x y epsilon constant i j :
  (i < 4)%nat -> (j < 4)%nat ->
  nth j (nth i (ls_cov (PredictDepth2_system g D C x y epsilon constant)) []) fzero =
  nth i (nth j (ls_cov (PredictDepth2_system g D C x y epsilon constant)) []) fzero.
Proof.
  intros Hi Hj. unfold PredictDepth2_system. cbn [ls_cov].
  match goal with
  | |- context [fdot (column ?X _) (column ?X _)] => set (XX := X)
  end.
  destruct i as [|[|[|[|i]]]]; try lia;
    (destruct j as [|[|[|[|j]]]]; try lia);
    cbn [map combine nth fst snd Nat.eqb]; try reflexivity;
    f_equal; apply fdot_comm.
Qed.

Lemma X9_witness :
  nth 2 (nth 1 (ls_cov (PredictDepth2_system gdfmm_flat depth_ring (uniform_image 3 3 gray)
                                              1 1 fone fzero)) []) fzero =
  nth 1 (nth 2 (ls_cov (PredictDepth2_system gdfmm_flat depth_ring (uniform_image 3 3 gray)
                                              1 1 fone fzero)) []) fzero.
Proof.
  apply (X9_normal_matrix_symmetric gdfmm_flat depth_ring (uniform_image 3 3 gray)
           1 1 fone fzero 1 2); lia.
Defined.

(** ** The queue *)

Lemma all_pixels_In (A : Type) (m : Mat A) (y x : Z) :
  In (y, x) (all_pixels m) -> in_bounds m y x = true.
Proof.
  unfold all_pixels. intro H. apply in_flat_map in H. destruct H as (y' & Hy & H).
  apply in_map_iff in H. destruct H as (x' & E & Hx). injection E as -> ->.
  apply Zrange_In in Hy, Hx. apply in_bounds_spec. lia.
Qed.

Lemma fold_left_emplace_inv (A : Type) (test : A -> bool) (item : A -> BandItem)
    (l : list A) (h : list BandItem) (it : BandItem) :
  In it (fold_left (fun h a => if test a then item a :: h else h) l h) ->
  In it h \/ (exists a, In a l /\ test a = true /\ item a = it).
Proof.
  revert h. induction l as [|a l IH]; intros h H; cbn [fold_left] in H; auto.
  destruct (IH _ H) as [H1|(a' & Ha & Ht & Hi)].
  - destruct (test a) eqn:T; auto.
    destruct H1 as [H1|H1]; auto. right. exists a. split; [left; auto|auto].
  - right. exists a'. split; [right; auto|auto].
Qed.

Lemma initial_band_inv depth s p :
  In (s, p) (initial_band depth) ->
  s = float_of_int 0 /\ in_bounds depth (p_y p) (p_x p) = true /\
  feq (depth_at depth (p_y p) (p_x p)) fzero = false.
Proof.
  intro H. unfold initial_band, emplace in H.
  apply (fold_left_emplace_inv (Z * Z)
           (fun yx => fne (depth_at depth (fst yx) (snd yx)) fzero)
           (fun yx => (float_of_int 0, mkPoint (snd yx) (fst yx)))) in H.
  destruct H as [[]|([y x] & Hin & Ht & Hi)]. cbn [fst snd] in *.
  injection Hi as <- <-. cbn [p_x p_y].
  split; [reflexivity|]. split; [apply all_pixels_In; auto|].
  unfold fne in Ht. fold (feq (depth_at depth y x) fzero) in Ht.
  destruct (feq (depth_at depth y x) fzero); [discriminate|reflexivity].
Qed.

(** X10: the queue starts with exactly the known pixels of the image, each
    with priority 0. *)
Theorem X10_initial_band_is_known_pixels depth s p :
  In (s, p) (initial_band depth) <->
  s = float_of_int 0 /\ in_bounds depth (p_y p) (p_x p) = true /\
  feq (depth_at depth (p_y p) (p_x p)) fzero = false.
Proof.
  split.
  - apply initial_band_inv.
  - intros (-> & B & K). destruct p as [x y]. cbn [p_x p_y] in *.
    apply initial_band_In; auto.
Qed.

Lemma X10_witness : In (float_of_int 0, mkPoint 0 0) (initial_band (convertTo_32F depth_1x2)).
Proof.
  apply (proj2 (X10_initial_band_is_known_pixels (convertTo_32F depth_1x2)
                  (float_of_int 0) (mkPoint 0 0))).
  repeat split; vm_compute; reflexivity.
Defined.

Section Positions.

Variable top_pop : BandItem -> list BandItem -> BandItem * list BandItem.
Variable predict : Mat float -> Mat RGB -> Z -> Z -> result float.
Variable C : Mat RGB.
Variable strength : Mat (Vec3 float).

Lemma visit_neighbour_in_bounds speed position st d st' :
  in_bounds (depthImage st) (p_y position) (p_x position) = true ->
  band_in_bounds (depthImage st) (narrowBand st) ->
  visit_neighbour predict C strength speed position st d = Ok st' ->
  in_bounds (depthImage st') (p_y position) (p_x position) = true /\
  band_in_bounds (depthImage st') (narrowBand st').
Proof.
  destruct st as [D h]. cbn [depthImage narrowBand]. intros BP HB H.
  unfold visit_neighbour in H. cbn [p_x p_y depthImage narrowBand] in H.
  destruct (in_bounds D (p_y position + p_y d) (p_x position + p_x d)) eqn:B;
    cbn [negb] in H; [|injection H as <-; auto].
  destruct (feq _ fzero); [|injection H as <-; auto].
  destruct (predict _ _ _ _) as [v|e]; cbn [bind] in H; [|discriminate].
  destruct (fne v fzero).
  - injection H as <-. cbn [depthImage narrowBand]. split; [exact BP|].
    unfold band_in_bounds, emplace. constructor; [exact B|exact HB].
  - destruct (flt _ _); [discriminate|]. injection H as <-. cbn [depthImage narrowBand].
    split; [exact BP|]. unfold band_in_bounds, emplace. constructor; [exact BP|exact HB].
Qed.

Lemma visits_in_bounds speed position l st st' :
  in_bounds (depthImage st) (p_y position) (p_x position) = true ->
  band_in_bounds (depthImage st) (narrowBand st) ->
  fold_result (visit_neighbour predict C strength speed position) l st = Ok st' ->
  band_in_bounds (depthImage st') (narrowBand st').
Proof.
  revert st. induction l as [|d l IH]; intros st BP HB H.
  - rewrite fold_result_nil in H. injection H as <-. exact HB.
  - rewrite fold_result_cons in H.
    destruct (visit_neighbour predict C strength speed position st d) as [st1|e] eqn:E;
      [|discriminate].
    destruct (visit_neighbour_in_bounds speed position st d st1 BP HB E) as [BP1 HB1].
    apply (IH st1); auto.
Qed.

End Positions.

(** X11: every position in the queue lies inside the image, at the start
    and after every iteration of the loop, whatever the predictor; so the
    reads of the depth image and of the gradient strengths at queue
    positions and their checked neighbours stay inside the images. *)
Theorem X11_queue_positions_inside top_pop predict C strength :
  priority_queue_contract top_pop ->
  (forall depth, band_in_bounds depth (initial_band depth)) /\
  (forall depth it rest st',
      band_in_bounds depth (it :: rest) ->
      propagate_step top_pop predict C strength depth it rest = Ok st' ->
      band_in_bounds (depthImage st') (narrowBand st')).
Proof.
  intro HQ. split.
  - intro depth. apply Forall_forall. intros [s p] H.
    apply initial_band_inv in H. cbn [snd]. tauto.
  - intros depth it rest st' HB H. unfold propagate_step in H.
    destruct (HQ it rest) as [HP _].
    destruct (top_pop it rest) as [[speed position] rest'] eqn:E. cbn [fst snd] in HP.
    assert (HB' : band_in_bounds depth ((speed, position) :: rest')).
    { unfold band_in_bounds in *. rewrite Forall_forall in *.
      intros it' Hin. apply HB. apply (Permutation_in _ (Permutation_sym HP)). exact Hin. }
    inversion HB' as [|? ? BP HR]; subst. cbn [snd] in BP.
    apply (visits_in_bounds predict C strength speed position neighbours
             (mkBand depth rest') st' BP HR H).
Qed.

Lemma X11_witness :
  band_in_bounds (convertTo_32F depth_1x2) (initial_band (convertTo_32F depth_1x2)).
Proof.
  apply (proj1 (X11_queue_positions_inside heap_top_pop (PredictDepth gdfmm_flat)
                  (uniform_image 1 2 gray) strength_1x1 heap_top_pop_contract)).
Defined.

(** ** The depth gradient *)




(** ** The constructor *)

(** X13: the constructor accepts exactly the odd window sizes from 3 on, and
    stores its arguments; the window of an object it built reaches at least
    one pixel to each side and is centred: [windowSize_ = 2 r + 1] for the
    radius [r = windowSize_ / 2 >= 1] the predictors use. *)
Theorem X13_constructor_window dist colour sigma w :
  (3 <= w /\ Z.odd w = true ->
   GDFMM_new dist colour sigma w = Ok (mkGDFMM dist colour w sigma)) /\
  (w < 3 \/ Z.odd w = false ->
   GDFMM_new dist colour sigma w =
   Err (assert_failed "windowSize_ % 2 == 1 && windowSize >= 3")) /\
  (forall g, GDFMM_new dist colour sigma w = Ok g ->
             1 <= Z.quot (windowSize_ g) 2 /\
             windowSize_ g = 2 * Z.quot (windowSize_ g) 2 + 1).
Proof.
  assert (R : forall v, 0 <= v -> Z.rem v 2 = if Z.odd v then 1 else 0).
  { intros v Hv. rewrite Z.rem_mod_nonneg by lia. rewrite Zmod_odd. reflexivity. }
  unfold GDFMM_new. cbn [windowSize_].
  split; [|split].
  - intros [H3 Ho]. rewrite (R w) by lia. rewrite Ho.
    apply Z.leb_le in H3. rewrite H3. reflexivity.
  - intros [H|H].
    + apply Z.leb_gt in H. rewrite H, andb_false_r. reflexivity.
    + destruct (Z.leb_spec 3 w) as [H3|H3]; [|rewrite andb_false_r; reflexivity].
      rewrite (R w) by lia. rewrite H. reflexivity.
  - intros g H.
    destruct (Z.leb_spec 3 w) as [H3|H3]; [|rewrite andb_false_r in H; discriminate].
    rewrite (R w) in H by lia.
    destruct (Z.odd w) eqn:Ho; [|discriminate].
    cbn in H. injection H as <-. cbn [windowSize_].
    pose proof (Z.quot_rem' w 2) as Q. rewrite (R w) in Q by lia. rewrite Ho in Q.
    split; [|lia].
    assert (0 <= Z.quot w 2) by (apply Z.quot_pos; lia). lia.
Qed.

Lemma X13_witness :
  GDFMM_new ExpCache_flat ExpCache_flat fone 3 = Ok (mkGDFMM ExpCache_flat ExpCache_flat 3 fone).
Proof.
  apply (proj1 (X13_constructor_window ExpCache_flat ExpCache_flat fone 3)).
  split; [lia|reflexivity].
Defined.

(** ** Deferrals of a seed *)

Lemma seed_deferral k :
  0 <= k <= 20 ->
  flt (float_of_int (- k)) (float_of_int (-20)) = false /\
  fsub (float_of_int (- k)) (float_of_int 1) = float_of_int (- (k + 1)).
Proof.
  intro H.
  assert (E : k = 0 \/ k = 1 \/ k = 2 \/ k = 3 \/ k = 4 \/ k = 5 \/ k = 6 \/ k = 7 \/ k = 8 \/
              k = 9 \/ k = 10 \/ k = 11 \/ k = 12 \/ k = 13 \/ k = 14 \/ k = 15 \/ k = 16 \/
              k = 17 \/ k = 18 \/ k = 19 \/ k = 20) by lia.
  repeat (destruct E as [->|E]; [split; vm_compute; reflexivity|]).
  subst k. split; vm_compute; reflexivity.
Qed.

(** X14: a pixel seeded with priority 0 whose neighbour cannot be predicted
    is pushed back with the priorities -1, -2, .., -21, the integers being
    exact in binary32: the deferral at priority -20 still succeeds, and
    only the deferral at priority -21, the 22nd in a row, throws. *)
Theorem X14_seed_is_deferred_21_times predict C strength position st d v k :
  0 <= k <= 21 ->
  in_bounds (depthImage st) (p_y position + p_y d) (p_x position + p_x d) = true ->
  feq (depth_at (depthImage st) (p_y position + p_y d) (p_x position + p_x d)) fzero = true ->
  predict (depthImage st) C (p_x position + p_x d) (p_y position + p_y d) = Ok v ->
  feq v fzero = true ->
  visit_neighbour predict C strength (float_of_int (- k)) position st d =
  if k =? 21 then Err (runtime_error too_few_known_values)
  else Ok (mkBand (mat_set (depthImage st) (p_y position + p_y d) (p_x position + p_x d) v)
                  ((float_of_int (- (k + 1)), position) :: narrowBand st)).
Proof.
  intros Hk B U P V. unfold visit_neighbour. cbn [p_x p_y].
  rewrite B, U, P. cbn [negb bind]. unfold fne. fold (feq v fzero). rewrite V. cbn [negb].
  destruct (Z.eqb_spec k 21) as [->|Hne].
  - reflexivity.
  - destruct (seed_deferral k ltac:(lia)) as [F S]. rewrite F, S. reflexivity.
Qed.

Lemma X14_witness :
  visit_neighbour (PredictDepth gdfmm_flat) (uniform_image 1 2 gray) strength_1x1
                  (float_of_int (- 20)) (mkPoint 0 0)
                  (mkBand (convertTo_32F depth_1x2) []) (mkPoint 1 0) =
  if 20 =? 21 then Err (runtime_error too_few_known_values)
  else Ok (mkBand (mat_set (convertTo_32F depth_1x2) (0 + 0) (0 + 1) fzero)
                  [(float_of_int (- (20 + 1)), mkPoint 0 0)]).
Proof.
  apply (X14_seed_is_deferred_21_times (PredictDepth gdfmm_flat) (uniform_image 1 2 gray)
           strength_1x1 (mkPoint 0 0) (mkBand (convertTo_32F depth_1x2) []) (mkPoint 1 0)
           fzero 20).
  - lia.
  - reflexivity.
  - vm_compute. reflexivity.
  - vm_compute. reflexivity.
  - reflexivity.
Defined.

(** ** Unknown pixels are never gained *)

Section UnknownCount.

Variable top_pop : BandItem -> list BandItem -> BandItem * list BandItem.
Variable predict : Mat float -> Mat RGB -> Z -> Z -> result float.
Variable C : Mat RGB.
Variable strength : Mat (Vec3 float).

Lemma visit_neighbour_unknown_count speed position st d st' :
  mat_wf (depthImage st) ->
  visit_neighbour predict C strength speed position st d = Ok st' ->
  mat_wf (depthImage st') /\
  unknown_count (depthImage st') <= unknown_count (depthImage st).
Proof.
  destruct st as [D h]. cbn [depthImage]. intros W H.
  unfold visit_neighbour in H. cbn [p_x p_y depthImage narrowBand] in H.
  destruct (in_bounds D (p_y position + p_y d) (p_x position + p_x d)) eqn:B;
    cbn [negb] in H; [|injection H as <-; cbn [depthImage]; split; auto; lia].
  destruct (feq (depth_at D (p_y position + p_y d) (p_x position + p_x d)) fzero)
    eqn:U; [|injection H as <-; cbn [depthImage]; split; auto; lia].
  destruct (predict _ _ _ _) as [v|e]; cbn [bind] in H; [|discriminate].
  pose proof (unknown_count_mat_set D _ _ v W B U) as HU.
  assert (G : mat_wf (mat_set D (p_y position + p_y d) (p_x position + p_x d) v) /\
              unknown_count (mat_set D (p_y position + p_y d) (p_x position + p_x d) v)
              <= unknown_count D).
  { split; [apply mat_wf_mat_set; auto|]. rewrite HU. destruct (feq v fzero); cbv beta iota; lia. }
  destruct (fne v fzero); [injection H as <-; cbn [depthImage]; exact G|].
  destruct (flt _ _); [discriminate|injection H as <-; cbn [depthImage]; exact G].
Qed.

Lemma visits_unknown_count speed position l st st' :
  mat_wf (depthImage st) ->
  fold_result (visit_neighbour predict C strength speed position) l st = Ok st' ->
  mat_wf (depthImage st') /\
  unknown_count (depthImage st') <= unknown_count (depthImage st).
Proof.
  revert st. induction l as [|d l IH]; intros st W H.
  - rewrite fold_result_nil in H. injection H as <-. split; auto. lia.
  - rewrite fold_result_cons in H.
    destruct (visit_neighbour predict C strength speed position st d) as [st1|e] eqn:E;
      [|discriminate].
    destruct (visit_neighbour_unknown_count speed position st d st1 W E) as [W1 U1].
    destruct (IH st1 W1 H) as [W2 U2]. split; auto. lia.
Qed.

Lemma propagate_unknown_count fuel st img :
  mat_wf (depthImage st) ->
  propagate top_pop predict fuel C strength st = Some (Ok img) ->
  unknown_count img <= unknown_count (depthImage st).
Proof.
  revert st. induction fuel as [|fuel IH]; intros [D h] W H; [discriminate|].
  cbn [propagate narrowBand depthImage] in *.
  destruct h as [|it rest]; [injection H as <-; lia|].
  destruct (propagate_step top_pop predict C strength D it rest) as [st1|e] eqn:E;
    [|discriminate].
  unfold propagate_step in E. destruct (top_pop it rest) as [[speed position] rest'].
  destruct (visits_unknown_count speed position neighbours (mkBand D rest') st1 W E)
    as [W1 U1]. cbn [depthImage] in U1.
  pose proof (IH st1 W1 H). lia.
Qed.

End UnknownCount.

(** X15: a run of the loop never gains an unknown pixel, whatever the
    predictor and the queue: the image it ends with has at most as many
    pixels that compare equal to 0 as the image it started from. *)
Theorem X15_unknown_pixels_never_gained top_pop predict C strength fuel st img :
  mat_wf (depthImage st) ->
  propagate top_pop predict fuel C strength st = Some (Ok img) ->
  unknown_count img <= unknown_count (depthImage st).
Proof.
  apply propagate_unknown_count.
Qed.

Lemma X15_witness :
  unknown_count (mkMat 3 3 1 (map float_of_int [100; 100; 100; 100; 100; 100; 100; 100; 100]))
  <= unknown_count (convertTo_32F depth_hole).
Proof.
  apply (X15_unknown_pixels_never_gained heap_top_pop (PredictDepth gdfmm_flat)
           (uniform_image 3 3 gray)
           (gradient_strength (uniform_image 3 3 gray)
              (sobel_uniform (uniform_image 3 3 gray) 1 0)
              (sobel_uniform (uniform_image 3 3 gray) 0 1))
           10 (mkBand (convertTo_32F depth_hole) (initial_band (convertTo_32F depth_hole)))).
  - unfold mat_wf. cbn. repeat split; lia.
  - vm_compute. reflexivity.
Defined.

(** ** The bilateral predictor is local *)

Lemma fold_result_ext_in (A B : Type) (f g : A -> B -> result A) (l : list B) (a : A) :
  (forall a b, In b l -> f a b = g a b) -> fold_result f l a = fold_result g l a.
Proof.
  revert a. induction l as [|b l IH]; intros a H.
  - reflexivity.
  - rewrite !fold_result_cons, (H a b) by (left; auto).
    destruct (g a b); auto. apply IH. intros; apply H; right; auto.
Qed.

(** X16: the bilateral prediction at a pixel depends on the depth image
    through its size and the depths of the pixels of the image that lie in
    the window only: two depth images of the same size that agree on those
    pixels give the same answer.  (The depth gradient reads beyond the
    window, and is discarded.) *)
Theorem X16_PredictDepth_is_local g D D' C x y :
  cols D = cols D' -> rows D = rows D' ->
  (forall m n, in_bounds D n m = true ->
               Z.abs (m - x) <= Z.quot (windowSize_ g) 2 ->
               Z.abs (n - y) <= Z.quot (windowSize_ g) 2 ->
               depth_at D n m = depth_at D' n m) ->
  PredictDepth g D C x y = PredictDepth g D' C x y.
Proof.
  intros Hc Hr H. unfold PredictDepth. rewrite <- Hc, <- Hr.
  destruct (assert (cols D =? cols C) _); cbn [bind]; [|reflexivity].
  destruct (assert (rows D =? rows C) _); cbn [bind]; [|reflexivity].
  assert (E : PredictDepth_loops g D C x y = PredictDepth_loops g D' C x y).
  { unfold PredictDepth_loops, window_lo, window_hi. rewrite <- Hc, <- Hr.
    apply fold_result_ext_in. intros s n Hn.
    apply fold_result_ext_in. intros s' m Hm.
    apply Zrange_In in Hn, Hm.
    unfold PredictDepth_pixel.
    rewrite <- (H m n) by (try (apply in_bounds_spec); lia).
    destruct (feq (depth_at D n m) fzero); [reflexivity|].
    destruct (BilateralWeight _ _ _ _); cbn [bind]; [|reflexivity].
    destruct (ComputeDepthGradient D m n), (ComputeDepthGradient D' m n). reflexivity. }
  rewrite E. reflexivity.
Qed.

Lemma X16_witness :
  PredictDepth gdfmm_flat (convertTo_32F depth_hole) (uniform_image 3 3 gray) 0 0 =
  PredictDepth gdfmm_flat
    (mkMat 3 3 1 (map float_of_int [100; 100; 7; 100; 0; 100; 100; 100; 100]))
    (uniform_image 3 3 gray) 0 0.
Proof.
  apply (X16_PredictDepth_is_local gdfmm_flat (convertTo_32F depth_hole)
           (mkMat 3 3 1 (map float_of_int [100; 100; 7; 100; 0; 100; 100; 100; 100]))
           (uniform_image 3 3 gray) 0 0); try reflexivity.
  intros m n B Hm Hn. apply in_bounds_spec in B.
  change (Z.quot (windowSize_ gdfmm_flat) 2) with 1 in Hm, Hn.
  assert (Em : m = 0 \/ m = 1) by lia.
  assert (En : n = 0 \/ n = 1) by lia.
  destruct Em as [->| ->]; destruct En as [->| ->]; reflexivity.
Defined.

(** ** The gradient strengths *)

Lemma gradient_ok_abs g :
  gradient_ok g = true ->
  finite_nonneg (SFabs g) /\ (val (SFabs g) <= bpow 62)%R /\
  fmul g g = fmul (SFabs g) (SFabs g).
Proof.
  unfold gradient_ok. intro H.
  apply andb_prop in H. destruct H as [H L]. apply andb_prop in H. destruct H as [V F].
  destruct (pow2_ok 62 ltac:(lia)) as [[P62 _] V62].
  assert (FN : finite_nonneg (SFabs g)).
  { destruct g as [s|s| |s m e]; try discriminate; (split; [split; [exact V|exact I]|reflexivity]). }
  split; [exact FN|]. split.
  - rewrite <- V62. apply (fle_nonneg _ _ (proj1 FN) P62). exact L.
  - destruct g as [[]|[]| |[] m e]; reflexivity.
Qed.

Lemma gradients_ok_at G y x c :
  gradients_ok G = true -> gradient_ok (vec3_get (mat_at vec3f_zero G y x) c) = true.
Proof.
  intro H. unfold gradients_ok in H. rewrite forallb_forall in H. unfold mat_at.
  destruct (nth_in_or_default (mat_index G y x) (elems G) vec3f_zero) as [Hin|Hd].
  - specialize (H _ Hin). destruct (nth (mat_index G y x) (elems G) vec3f_zero) as [[a b] d].
    cbn [vec3_get] in *. change (0 =? 0) with true in H. change (1 =? 0) with false in H.
    change (1 =? 1) with true in H. change (2 =? 0) with false in H.
    change (2 =? 1) with false in H. cbv beta iota in H.
    apply andb_prop in H. destruct H as [H H3]. apply andb_prop in H. destruct H as [H1 H2].
    destruct (c =? 0); auto. destruct (c =? 1); auto.
  - rewrite Hd. unfold vec3f_zero. cbn [vec3_get].
    destruct (c =? 0); [reflexivity|]. destruct (c =? 1); reflexivity.
Qed.

Lemma squares_sum_in_range gx gy :
  gradient_ok gx = true -> gradient_ok gy = true ->
  nonneg_upto (pow2 125) (fadd (fmul gx gx) (fmul gy gy)) = true.
Proof.
  intros Hx Hy.
  destruct (gradient_ok_abs gx Hx) as (Fx & Vx & ->).
  destruct (gradient_ok_abs gy Hy) as (Fy & Vy & ->).
  destruct (pow2_ok 124 ltac:(lia)) as [P124 V124].
  destruct (pow2_ok 125 ltac:(lia)) as [P125 V125].
  pose proof (bpow_plus 62 62) as B. change (62 + 62) with 124 in B.
  pose proof (bpow_double 124) as B2. change (124 + 1) with 125 in B2.
  assert (S : forall a, finite_nonneg a -> (val a <= bpow 62)%R ->
                        finite_nonneg (fmul a a) /\ (val (fmul a a) <= bpow 124)%R).
  { intros a Fa Va. pose proof (fmul_rounded a a Fa Fa) as R.
    pose proof (val_nonneg a).
    assert (Hx2 : (val a * val a <= val (pow2 124))%R).
    { rewrite V124, B. apply Rmult_le_compat; lra. }
    split; [apply (rounded_finite _ _ _ R P124 Hx2)|].
    rewrite <- V124. apply (rounded_upper _ _ _ R (proj1 P124) Hx2). }
  destruct (S _ Fx Vx) as [Fp Vp]. destruct (S _ Fy Vy) as [Fq Vq].
  pose proof (fadd_rounded _ _ Fp Fq) as R.
  assert (Hs : (val (fmul (SFabs gx) (SFabs gx)) + val (fmul (SFabs gy) (SFabs gy))
                <= val (pow2 125))%R) by (rewrite V125, B2; lra).
  apply (nonneg_upto_intro (pow2 125) _ (proj1 P125)).
  - apply (rounded_finite _ _ _ R P125 Hs).
  - apply (rounded_upper _ _ _ R (proj1 P125) Hs).
Qed.

(** X17: the squared gradient magnitudes the speeds are computed from are
    finite, non-negative and at most [2^125] whenever the two Sobel
    derivatives are finite floats of magnitude at most [2^62], as those of
    an 8-bit image are: each is [gx * gx + gy * gy], and neither product
    nor sum overflows.  This is the condition on the gradient strengths
    under which the speeds lie in [[-1, 0)] and the loop ends. *)
Theorem X17_gradient_strength_in_range C Gx Gy :
  gradients_ok Gx = true -> gradients_ok Gy = true ->
  strength_ok (gradient_strength C Gx Gy) = true.
Proof.
  intros Hx Hy. unfold strength_ok, gradient_strength; cbn [elems].
  apply forallb_forall. intros v Hv. apply in_map_iff in Hv.
  destruct Hv as ([y x] & <- & _). cbn [fst snd vec3_get].
  change (0 =? 0) with true. change (1 =? 0) with false. change (1 =? 1) with true.
  change (2 =? 0) with false. change (2 =? 1) with false. cbv beta iota.
  rewrite !squares_sum_in_range by (apply gradients_ok_at; assumption).
  reflexivity.
Qed.

Lemma X17_witness :
  strength_ok (gradient_strength (uniform_image 1 1 gray)
                 (mkMat 1 1 3 [(float_of_int (-1020), fzero, float_of_int 3)])
                 (mkMat 1 1 3 [(float_of_int 7, float_of_int (-2), fzero)])) = true.
Proof.
  apply (X17_gradient_strength_in_range (uniform_image 1 1 gray)
           (mkMat 1 1 3 [(float_of_int (-1020), fzero, float_of_int 3)])
           (mkMat 1 1 3 [(float_of_int 7, float_of_int (-2), fzero)]));
    vm_compute; reflexivity.
Defined.

(** ** Worked runs *)

Lemma C2_witness :
  mat_at 0 (mkMat 3 3 1 [100; 100; 100; 100; 100; 100; 100; 100; 100]) 0 0 =
  mat_at 0 depth_hole 0 0.
Proof.
  apply (@C2_known_pixels_preserved heap_top_pop (PredictDepth gdfmm_flat) blur_uniform
           sobel_uniform fone depth_hole (uniform_image 3 3 gray) None 10).
  - vm_compute. reflexivity.
  - vm_compute. split; discriminate.
Defined.

(** C2 fails as stated: 70000 is non-zero and below 2^24, and [float] holds
    it exactly, but the final conversion to 16 bit saturates it to 65535. *)
Lemma C2_counterexample :
  mat_at 0 (mkMat 1 2 1 [70000; 7]) 0 0 = 70000 /\
  InPaint heap_top_pop blur_uniform sobel_uniform gdfmm_flat
          (mkMat 1 2 1 [70000; 7]) (uniform_image 1 2 gray) None 3 =
  (Some (Ok (mkMat 1 2 1 [65535; 7])), None).
Proof.
  split; vm_compute; reflexivity.
Qed.



(** C3 fails as stated: where the three squared gradients are zero (any
    image of one colour) the speed is -1/(1+0+0+0), which is -1 and not
    above it. *)
Lemma C3_counterexample :
  let rgb := uniform_image 1 1 gray in
  let strength := gradient_strength rgb (sobel_uniform rgb 1 0) (sobel_uniform rgb 0 1) in
  mat_at vec3f_zero strength 0 0 = (fzero, fzero, fzero) /\
  ComputeSpeed strength (mkPoint 0 0) = float_of_int (-1) /\
  flt (float_of_int (-1)) (ComputeSpeed strength (mkPoint 0 0)) = false.
Proof.
  repeat split; vm_compute; reflexivity.
Qed.

(** C6 fails as stated: the first deferral of a seed, popped with priority 0,
    pushes priority 0 - 1 = -1, which is not below -1. *)
Lemma C6_counterexample :
  let rgb := uniform_image 1 2 gray in
  let strength := gradient_strength rgb (sobel_uniform rgb 1 0) (sobel_uniform rgb 0 1) in
  initial_band (convertTo_32F depth_1x2) = [(float_of_int 0, mkPoint 0 0)] /\
  propagate_step heap_top_pop (PredictDepth gdfmm_flat) rgb strength
                 (convertTo_32F depth_1x2) (float_of_int 0, mkPoint 0 0) [] =
  Ok (mkBand (convertTo_32F depth_1x2) [(float_of_int (-1), mkPoint 0 0)]) /\
  flt (float_of_int (-1)) (float_of_int (-1)) = false.
Proof.
  repeat split; vm_compute; reflexivity.
Qed.

(** C7 fails as stated: with [constant = 0] column 3 of the feature matrix
    holds 0 in every row, not max(0, 1e-5), while the test vector's fourth
    component is 1e-5: the column is filled before the constant is clamped. *)
Lemma C7_counterexample :
  let ls := PredictDepth2_system gdfmm_flat depth_ring (uniform_image 3 3 gray) 1 1 fone fzero in
  column (ls_X ls) 3 = repeat fzero 8 /\
  nth 3 (ls_test ls) fzero = float_1em5 /\
  std_max float_1em5 fzero = float_1em5.
Proof.
  repeat split; vm_compute; reflexivity.
Qed.

(** C8 fails as stated: the assertion before the return rejects NaN only.
    Here the normal equations are diagonal, the solve is a division per
    component, the slope times the test feature overflows, and the call
    returns +infinity. *)
Lemma C8_counterexample :
  PredictDepth2 solve_diagonal gdfmm_flat depth_huge rgb_red_ramp 1 1 fone fzero fzero =
  Ok (S754_infinity false) /\
  is_finite (S754_infinity false) = false /\
  flt fzero fone = true.
Proof.
  repeat split; vm_compute; reflexivity.
Qed.

(** C10 fails as stated: five known depths, all 3, each with the floored
    weight 1e-6, give a mean of 3 + 2^-22, above the largest known depth. *)
Lemma C10_counterexample :
  map (fun mn => depth_at depth_five_threes (snd mn) (fst mn))
      (known_window gdfmm_sharp depth_five_threes 1 1) = repeat (float_of_int 3) 5 /\
  PredictDepth gdfmm_sharp depth_five_threes rgb_black_centre 1 1 =
  Ok (S754_finite false 12582913 (-22)) /\
  flt (float_of_int 3) (S754_finite false 12582913 (-22)) = true.
Proof.
  repeat split; vm_compute; reflexivity.
Qed.

Lemma C3_witness :
  fle (float_of_int (-1)) (ComputeSpeed (mkMat 1 1 3 [(fzero, fzero, fzero)]) (mkPoint 0 0))
  = true /\
  flt (ComputeSpeed (mkMat 1 1 3 [(fzero, fzero, fzero)]) (mkPoint 0 0)) fzero = true /\
  ComputeSpeed (mkMat 1 1 3 [(fzero, fzero, fzero)]) (mkPoint 0 0) = float_of_int (-1).
Proof.
  destruct (C3_speed_range (mkMat 1 1 3 [(fzero, fzero, fzero)]) (mkPoint 0 0)
              ltac:(vm_compute; reflexivity)) as (H1 & H2 & H3).
  split; [exact H1|]. split; [exact H2|]. apply H3. reflexivity.
Defined.

Lemma C6_witness : band_nonpos (initial_band (convertTo_32F depth_1x2)).
Proof.
  apply (proj1 (C6_deferred_priority heap_top_pop (PredictDepth gdfmm_flat)
                  (uniform_image 1 2 gray) strength_1x1
                  ltac:(vm_compute; reflexivity) heap_top_pop_contract)).
Defined.

Lemma C7_witness :
  nth 3 (ls_sX (PredictDepth2_system gdfmm_flat depth_ring (uniform_image 3 3 gray)
                                     1 1 fone fzero)) fzero = float_of_int 1.
Proof.
  exact (proj1 (C7_bias_column gdfmm_flat depth_ring (uniform_image 3 3 gray) 1 1 fone fzero)).
Defined.

Lemma C8_witness : isnan (S754_infinity false) = false.
Proof.
  apply (C8_returned_value_not_NaN solve_diagonal gdfmm_flat depth_huge rgb_red_ramp
           1 1 fone fzero fzero (S754_infinity false)).
  vm_compute. reflexivity.
Defined.

Lemma C10_witness :
  fle four_weight_floors
      (sumWeights (bilateral_sums gdfmm_sharp depth_five_threes rgb_black_centre 1 1))
  = true.
Proof.
  apply (C10_divisor_and_mean_bounds gdfmm_sharp depth_five_threes rgb_black_centre 1 1
           3%R 3%R (bilateral_sums gdfmm_sharp depth_five_threes rgb_black_centre 1 1)).
  - intro k. unfold gdfmm_sharp, ExpCache_sharp; cbn [distExpCache_ colorExpCache_].
    destruct (k =? 0); split; reflexivity.
  - reflexivity.
  - reflexivity.
  - reflexivity.
  - pose proof (bpow_le (-100) 0 ltac:(lia)) as H. rewrite bpow_0 in H. lra.
  - pose proof (bpow_le 2 100 ltac:(lia)) as H. rewrite (bpow_IZR 2) in H by lia.
    change (IZR (2 ^ 2)) with 4%R in H. lra.
  - intros m n H.
    assert (E : depth_at depth_five_threes n m = float_of_int 3).
    { vm_compute in H.
      repeat (destruct H as [H|H]; [injection H as <- <-; reflexivity|]).
      destruct H. }
    rewrite E. destruct (float_of_int_nonneg 3 ltac:(lia)) as [F V].
    split; [exact F|]. rewrite V. lra.
  - vm_compute. reflexivity.
  - vm_compute. reflexivity.
Defined.

